(** * Layout and collapse engine of the mind-map renderer

    A shallow embedding of the layout code of [src/App.jsx]
    ([MindMapRenderer]: the seeding effect, [handleToggle] and
    [calculateLayout] with its local functions [assignCoords] and
    [collect]), followed by the properties the specification states
    about it.  Around it, the code the layout is used with: the rendering
    of a node ([MindMapNode]) and the clicks it handles, the client of the
    proxy ([fetchGeminiProxy], [callGeminiForAnswer],
    [callGeminiSummarize]) and the proxy function itself
    ([onRequestPost]), with the properties their code shows.

    Conventions of the embedding.
    - JavaScript numbers are modelled by exact rationals ([Qc], with
      Leibniz equality).  Every number the layout computes is an integer
      or an integer divided by a power of two, which IEEE doubles hold
      exactly at the sizes a diagram can reach.
    - The collapsed [Set] is observed through [has] only; it is modelled
      by a finite set of strings ([gset string]), without the insertion
      order that a JavaScript [Set] also keeps.
    - A string holds its code units; [String.length] is [label.length].
    - What lies outside the program (the answers to [fetch], the key of
      the environment) is an argument of the function that meets it; what
      the function does to the outside (the requests it sends) is returned
      beside its result. *)

From Stdlib Require Import QArith Qcanon Lqa.
From stdpp Require Import base numbers list strings gmap sets sorting pretty.

Set Warnings "-register-all,-clear-no-such-hyp,-abstract-large-number".
Local Open Scope Qc_scope.

(** ** Numbers and helpers *)

Definition num_of_nat (n : nat) : Qc := Qc_of_Z (Z.of_nat n).

(** [Math.max] on two numbers. *)
Definition Math_max (a b : Qc) : Qc := if decide (a ≤ b) then b else a.

(** [Array.prototype.map] with a callback that reads and writes a captured
    variable: the variable is threaded through the calls, left to right. *)
Definition mapThread {A B S : Type} (f : A → S → B * S) : list A → S → list B * S :=
  fix go (l : list A) (s : S) : list B * S :=
    match l with
    | [] => ([], s)
    | a :: l' =>
        let '(b, s1) := f a s in
        let '(bs, s2) := go l' s1 in
        (b :: bs, s2)
    end.

(** ** Data model *)

(** The tree handed to the renderer: [{id, label, type, children}].
    [children] may be missing ([None]); the code tests for it. *)
Inductive TreeNode : Type :=
  mkTreeNode {
    id : string;
    label : string;
    type : string;
    children : option (list TreeNode)
  }.

(** The [children] property of a processed node: either still the array
    copied by the object spread (the node was laid out as a leaf), or the
    array of processed children that [assignCoords] stored in its place. *)
Inductive Kids (A : Type) : Type :=
| Untouched (c : option (list TreeNode))
| Mapped (c : list A).
Arguments Untouched {A} c.
Arguments Mapped {A} c.

(** [processedNode]: the fields of the tree node, plus [depth],
    [isCollapsed], [x], [y], and [halfWidth] once [collect] has visited it. *)
Inductive PNode : Type :=
  mkPNode {
    p_id : string;
    p_label : string;
    p_type : string;
    p_children : Kids PNode;
    depth : nat;
    isCollapsed : bool;
    p_x : Qc;
    p_y : Qc;
    halfWidth : option Qc
  }.

Record Edge : Type := mkEdge { x1 : Qc; y1 : Qc; x2 : Qc; y2 : Qc }.

Record Layout : Type :=
  mkLayout { nodes : list PNode; edges : list Edge; width : Qc; height : Qc }.

(** The [data] prop / [root] argument: an object, [null] or [undefined]. *)
Inductive JsRoot : Type :=
| JsNull
| JsUndefined
| JsObject (t : TreeNode).

Inductive JsError : Type := TypeError | SyntaxError.

(** Outcome of a call: a value, or an exception. *)
Inductive Completion (A : Type) : Type :=
| Return (a : A)
| Throw (e : JsError).
Arguments Return {A} a.
Arguments Throw {A} e.

(** ** Collapse state *)

(** The effect run when [data] changes: [collapseRecursively] adds to
    [initialCollapsed] (threaded here as [acc]). *)
Fixpoint collapseRecursively (dataId : string) (node : TreeNode)
    (acc : gset string) {struct node} : gset string :=
  match node with
  | mkTreeNode i _ _ (Some ((_ :: _) as cs)) =>
      let acc1 := if decide (i ≠ dataId) then acc ∪ {[ i ]} else acc in
      foldl (λ a c, collapseRecursively dataId c a) acc1 cs
  | _ => acc
  end.

(** The body of the effect: [if (data) collapseRecursively(data)], then
    [setCollapsed(initialCollapsed)]. *)
Definition seed (data : JsRoot) : gset string :=
  match data with
  | JsObject t => collapseRecursively (id t) t ∅
  | _ => ∅
  end.

(** [handleToggle]: the updater passed to [setCollapsed]. *)
Definition handleToggle (i : string) (prev : gset string) : gset string :=
  if decide (i ∈ prev) then prev ∖ {[ i ]} else prev ∪ {[ i ]}.

(** ** Sizing *)

Definition charWidth (ty : string) : Qc :=
  if decide (ty = "code"%string) then Q2Qc 7.5 else Q2Qc 7.

(** [Math.max(140, label.length * charWidth + 30)], as computed by
    [MindMapNode] and twice by [collect]. *)
Definition calculatedWidth (lbl ty : string) : Qc :=
  Math_max (Q2Qc 140) (num_of_nat (String.length lbl) * charWidth ty + Q2Qc 30).

(** ** Layout *)

Definition X_GAP : Qc := Q2Qc 300.
Definition Y_GAP : Qc := Q2Qc 80.

(** [getLeafCount(node)]: defined inside [calculateLayout], never called. *)
Fixpoint getLeafCount (collapsedSet : gset string) (node : TreeNode) : nat :=
  match node with
  | mkTreeNode i _ _ ch =>
      if bool_decide (i ∈ collapsedSet) then 1%nat
      else match ch with
           | None | Some [] => 1%nat
           | Some ((_ :: _) as cs) =>
               foldl (λ acc child, (acc + getLeafCount collapsedSet child)%nat) 0%nat cs
           end
  end.

(** [children[0].y] and [children[children.length - 1].y]; the array is
    never empty where the code reads them. *)
Definition firstY (l : list PNode) : Qc := default 0 (p_y <$> head l).
Definition lastY (l : list PNode) : Qc := default 0 (p_y <$> last l).

(** [assignCoords(node, depth)]; the captured counter [currentLeafY] is
    passed in and returned. *)
Fixpoint assignCoords (collapsedSet : gset string) (node : TreeNode)
    (d : nat) (currentLeafY : nat) {struct node} : PNode * nat :=
  match node with
  | mkTreeNode i lbl ty ch =>
      let collapsed := bool_decide (i ∈ collapsedSet) in
      let leaf :=
        (mkPNode i lbl ty (Untouched ch) d collapsed
           (num_of_nat d * X_GAP + Q2Qc 100)
           (num_of_nat currentLeafY * Y_GAP + Q2Qc 50) None,
         S currentLeafY) in
      if collapsed then leaf
      else match ch with
           | None | Some [] => leaf
           | Some ((_ :: _) as cs) =>
               let '(ks, cur') :=
                 mapThread (λ c cur, assignCoords collapsedSet c (S d) cur)
                   cs currentLeafY in
               (mkPNode i lbl ty (Mapped ks) d collapsed
                  (num_of_nat d * X_GAP + Q2Qc 100)
                  ((firstY ks + lastY ks) / Q2Qc 2) None,
                cur')
           end
  end.

(** The edge pushed for a child inside [collect]: both half widths are
    recomputed from label and type. *)
Definition edgeTo (node child : PNode) : Edge :=
  mkEdge (p_x node + calculatedWidth (p_label node) (p_type node) / Q2Qc 2)
         (p_y node)
         (p_x child - calculatedWidth (p_label child) (p_type child) / Q2Qc 2)
         (p_y child).

(** [children.forEach(child => { edges.push(..); collect(child) })]: the
    nodes and edges pushed while the children are visited, in push order,
    together with the children as they are once visited. *)
Definition forEachChild (visit : PNode → PNode * (list PNode * list Edge))
    (node : PNode) : list PNode → list PNode * (list PNode * list Edge) :=
  fix go (l : list PNode) : list PNode * (list PNode * list Edge) :=
    match l with
    | [] => ([], ([], []))
    | child :: l' =>
        let '(child', (ns1, es1)) := visit child in
        let '(l'', (ns2, es2)) := go l' in
        (child' :: l'', (ns1 ++ ns2, edgeTo node child :: es1 ++ es2))
    end.

(** [collect(node)].  The arrays [nodes] and [edges] only grow by [push],
    so the call returns what it pushes, in order.  [nodes] holds references
    to the processed nodes, which [collect] goes on to mutate
    ([node.halfWidth = ..] on the descendants); the first component is the
    node as it stands when the traversal is over, and that is the value
    listed.  A node whose [children] were left untouched by [assignCoords]
    is collapsed or has none (lemma [assignCoords_untouched]), so nothing is
    visited below it. *)
Fixpoint collect (node : PNode) : PNode * (list PNode * list Edge) :=
  match node with
  | mkPNode i lbl ty ch d collapsed px py _ =>
      let hw := calculatedWidth lbl ty / Q2Qc 2 in
      match collapsed, ch with
      | false, Mapped ks =>
          let '(ks', (ns, es)) := forEachChild collect node ks in
          let node' := mkPNode i lbl ty (Mapped ks') d collapsed px py (Some hw) in
          (node', (node' :: ns, es))
      | _, _ =>
          let node' := mkPNode i lbl ty ch d collapsed px py (Some hw) in
          (node', ([node'], []))
      end
  end.

(** [n.halfWidth || 70] *)
Definition halfWidthOr70 (n : PNode) : Qc :=
  match halfWidth n with
  | Some h => if decide (h = 0) then Q2Qc 70 else h
  | None => Q2Qc 70
  end.

(** [calculateLayout(root, collapsedSet)].  [JSON.parse(JSON.stringify(root))]
    yields a tree equal to [root] for an object, [null] for [null], and
    throws a [SyntaxError] for [undefined]; [assignCoords(null, 0)] throws a
    [TypeError] when it reads [node.id]. *)
Definition calculateLayout (root : JsRoot) (collapsedSet : gset string)
    : Completion Layout :=
  match root with
  | JsUndefined => Throw SyntaxError
  | JsNull => Throw TypeError
  | JsObject t =>
      let '(layoutRoot, _) := assignCoords collapsedSet t 0 0 in
      let '(_, (nodes, edges)) := collect layoutRoot in
      let maxX := foldl (λ m n, Math_max m (p_x n + halfWidthOr70 n)) 0 nodes in
      let maxY := foldl (λ m n, Math_max m (p_y n)) 0 nodes in
      Return (mkLayout nodes edges
                (Math_max (Q2Qc 800) (maxX + Q2Qc 200))
                (Math_max (Q2Qc 600) (maxY + Q2Qc 200)))
  end.

(** The gate in [MindMapApp]: [{activeMindMap && (.. <MindMapRenderer
    data={activeMindMap} /> ..)}] and [{!activeMindMap && (.. "No Mindmap
    Active" ..)}]; the renderer, hence [calculateLayout], only runs on an
    object. *)
Inductive View : Type :=
| NoMindmapActive
| MindMap (l : Completion Layout).

Definition MindMapApp_view (activeMindMap : JsRoot) (collapsed : gset string) : View :=
  match activeMindMap with
  | JsObject _ => MindMap (calculateLayout activeMindMap collapsed)
  | _ => NoMindmapActive
  end.

(** ** Vocabulary of the specification *)

(** The children of a node as a list; a missing array has no element. *)
Definition arrayOf {A : Type} (ch : option (list A)) : list A :=
  match ch with
  | Some l => l
  | None => []
  end.

Definition kids (t : TreeNode) : list TreeNode := arrayOf (children t).

(** [node.children && node.children.length > 0] *)
Definition hasChildren (t : TreeNode) : bool :=
  match children t with
  | Some (_ :: _) => true
  | _ => false
  end.

(** A position in the tree: the child indices on the way from the root. *)
Definition path : Type := list nat.

Fixpoint node_at (t : TreeNode) (p : path) : option TreeNode :=
  match p with
  | [] => Some t
  | i :: p' => kids t !! i ≫= λ c, node_at c p'
  end.

(** Every strict ancestor of position [p] is outside the collapsed set. *)
Definition ancestors_expanded (cs : gset string) (t : TreeNode) (p : path) : Prop :=
  ∀ q n, q `prefix_of` p → q ≠ p → node_at t q = Some n → id n ∉ cs.

(** A visual leaf: collapsed, or without children. *)
Definition visualLeaf (cs : gset string) (t : TreeNode) : bool :=
  bool_decide (id t ∈ cs) || negb (hasChildren t).

(** [flat_map] with the index of the element. *)
Definition flatMapi {A B : Type} (f : nat → A → list B) : nat → list A → list B :=
  fix go (i : nat) (l : list A) : list B :=
    match l with
    | [] => []
    | a :: l' => f i a ++ go (S i) l'
    end.

(** All positions of a tree, in depth-first pre-order. *)
Fixpoint all_paths (t : TreeNode) : list path :=
  match t with
  | mkTreeNode _ _ _ ch =>
      [] :: match ch with
            | Some l => flatMapi (λ i c, (i ::.) <$> all_paths c) 0 l
            | None => []
            end
  end.

(** A position is visible when no node above it is collapsed. *)
Fixpoint visibleb (cs : gset string) (t : TreeNode) (p : path) : bool :=
  match p with
  | [] => true
  | i :: p' =>
      negb (bool_decide (id t ∈ cs)) &&
      match kids t !! i with
      | Some c => visibleb cs c p'
      | None => false
      end
  end.

(** The visible positions of the tree, in depth-first pre-order. *)
Definition visible_paths (cs : gset string) (t : TreeNode) : list path :=
  filter (λ p, visibleb cs t p = true) (all_paths t).

(** Ids of all nodes, in pre-order, and the data-model invariant. *)
Fixpoint ids (t : TreeNode) : list string :=
  match t with
  | mkTreeNode i _ _ ch =>
      i :: match ch with
           | Some l => flat_map ids l
           | None => []
           end
  end.

Definition unique_ids (t : TreeNode) : Prop := NoDup (ids t).

(** All nodes of a tree, in pre-order. *)
Fixpoint nodes_of (t : TreeNode) : list TreeNode :=
  match t with
  | mkTreeNode _ _ _ ch =>
      t :: match ch with
           | Some l => flat_map nodes_of l
           | None => []
           end
  end.

(** A processed node with the positioning fields erased. *)
Fixpoint forget (n : PNode) : TreeNode :=
  match n with
  | mkPNode i lbl ty ch _ _ _ _ _ =>
      mkTreeNode i lbl ty
        (match ch with
         | Untouched c => c
         | Mapped ks => Some (forget <$> ks)
         end)
  end.

(** The processed children of a processed node. *)
Definition laidKids (n : PNode) : list PNode :=
  match p_children n with
  | Mapped ks => ks
  | Untouched _ => []
  end.

Fixpoint pnode_at (n : PNode) (p : path) : option PNode :=
  match p with
  | [] => Some n
  | i :: p' => laidKids n !! i ≫= λ c, pnode_at c p'
  end.

(** Pre-order listing of a laid-out tree. *)
Fixpoint flatten (n : PNode) : list PNode :=
  match n with
  | mkPNode _ _ _ ch _ _ _ _ _ =>
      n :: match ch with
           | Mapped ks => flat_map flatten ks
           | Untouched _ => []
           end
  end.

(** The vertical coordinate of slot [k]. *)
Definition slotY (k : nat) : Qc := num_of_nat k * Q2Qc 80 + Q2Qc 50.

(** The horizontal coordinate of depth [d]. *)
Definition depthX (d : nat) : Qc := num_of_nat d * Q2Qc 300 + Q2Qc 100.

Local Close Scope Qc_scope.

(** Pre-order on positions: a position comes before its descendants, and
    before everything below a later sibling of one of its ancestors. *)
Inductive before : path → path → Prop :=
| before_nil j q : before [] (j :: q)
| before_lt i j p q : (i < j)%nat → before (i :: p) (j :: q)
| before_eq i p q : before p q → before (i :: p) (i :: q).

(** ** The same code over a store of objects *)

(** The pure embedding cannot say
    that the caller's objects are left alone, so the layout is embedded a
    second time, over a store: objects live at references, a spread or
    [JSON.parse] allocates, a property assignment updates the object in
    place.  Arrays are only built and read, never mutated, by this code; a
    [children] property holds the list of the references of its elements.
    A recursion over references needs fuel; [None] is out of fuel (or a
    reference to nothing, which no JavaScript store contains). *)
Module Store.

Abbreviation ref := nat (only parsing).

(** An object with the properties this code reads or writes; [None] is a
    missing property ([undefined]). *)
Record Obj : Type :=
  mkObj {
    o_id : string;
    o_label : string;
    o_type : string;
    o_children : option (list ref);
    o_depth : option nat;
    o_isCollapsed : option bool;
    o_x : option Qc;
    o_y : option Qc;
    o_halfWidth : option Qc
  }.

Abbreviation store := (list Obj) (only parsing).

Definition set_depth (v : nat) (o : Obj) : Obj :=
  mkObj (o_id o) (o_label o) (o_type o) (o_children o) (Some v)
    (o_isCollapsed o) (o_x o) (o_y o) (o_halfWidth o).
Definition set_isCollapsed (v : bool) (o : Obj) : Obj :=
  mkObj (o_id o) (o_label o) (o_type o) (o_children o) (o_depth o)
    (Some v) (o_x o) (o_y o) (o_halfWidth o).
Definition set_children (v : list ref) (o : Obj) : Obj :=
  mkObj (o_id o) (o_label o) (o_type o) (Some v) (o_depth o)
    (o_isCollapsed o) (o_x o) (o_y o) (o_halfWidth o).
Definition set_x (v : option Qc) (o : Obj) : Obj :=
  mkObj (o_id o) (o_label o) (o_type o) (o_children o) (o_depth o)
    (o_isCollapsed o) v (o_y o) (o_halfWidth o).
Definition set_y (v : option Qc) (o : Obj) : Obj :=
  mkObj (o_id o) (o_label o) (o_type o) (o_children o) (o_depth o)
    (o_isCollapsed o) (o_x o) v (o_halfWidth o).
Definition set_halfWidth (v : Qc) (o : Obj) : Obj :=
  mkObj (o_id o) (o_label o) (o_type o) (o_children o) (o_depth o)
    (o_isCollapsed o) (o_x o) (o_y o) (Some v).

(** Arithmetic on numbers that may be [undefined] or [NaN] (both [None]). *)
Definition num2 (f : Qc → Qc → Qc) (a b : option Qc) : option Qc :=
  match a, b with
  | Some x, Some y => Some (f x y)
  | _, _ => None
  end.

(** An edge as pushed: four numbers. *)
Record Edge : Type :=
  mkEdge { x1 : option Qc; y1 : option Qc; x2 : option Qc; y2 : option Qc }.

Record Layout : Type :=
  mkLayout { nodes : list ref; edges : list Edge;
             width : option Qc; height : option Qc }.

(** The [root] argument. *)
Inductive JsRoot : Type :=
| JsNull
| JsUndefined
| JsObject (r : ref).

(** [map] / [forEach] with a callback that may run out of fuel and that
    threads the store (and counters) through the calls. *)
Definition mapThreadM {A B S : Type} (f : A → S → option (B * S))
    : list A → S → option (list B * S) :=
  fix go (l : list A) (s : S) : option (list B * S) :=
    match l with
    | [] => Some ([], s)
    | a :: l' =>
        match f a s with
        | None => None
        | Some (b, s1) =>
            match go l' s1 with
            | None => None
            | Some (bs, s2) => Some (b :: bs, s2)
            end
        end
    end.

(** [JSON.stringify(root)] for an object: the text is the tree of the
    [id], [label], [type] and [children] properties (the caller's nodes
    carry no other).  On a cyclic structure JavaScript throws; here no
    fuel suffices. *)
Fixpoint stringify (fuel : nat) (h : store) (r : ref) : option TreeNode :=
  match fuel with
  | O => None
  | S fuel' =>
      match h !! r with
      | None => None
      | Some o =>
          match o_children o with
          | None => Some (mkTreeNode (o_id o) (o_label o) (o_type o) None)
          | Some rs =>
              match mapM (stringify fuel' h) rs with
              | None => None
              | Some l => Some (mkTreeNode (o_id o) (o_label o) (o_type o) (Some l))
              end
          end
      end
  end.

(** [JSON.parse(text)]: a fresh object for every node of the text, the
    elements of an array before the object that holds it. *)
Fixpoint parse (t : TreeNode) (h : store) {struct t} : ref * store :=
  match t with
  | mkTreeNode i lbl ty ch =>
      match ch with
      | None =>
          (length h, h ++ [mkObj i lbl ty None None None None None None])
      | Some l =>
          let '(rs, h1) := mapThread parse l h in
          (length h1, h1 ++ [mkObj i lbl ty (Some rs) None None None None None])
      end
  end.

(** [assignCoords(node, depth)].  The spread allocates [processedNode];
    the assignments to its [x], [y] and [children] update it in place. *)
Fixpoint assignCoords (fuel : nat) (collapsedSet : gset string)
    (node : ref) (d : nat) (st : store * nat) {struct fuel}
    : option (ref * (store * nat)) :=
  match fuel with
  | O => None
  | S fuel' =>
      let '(h, currentLeafY) := st in
      match h !! node with
      | None => None
      | Some o =>
          let collapsed := bool_decide (o_id o ∈ collapsedSet) in
          let processedNode := length h in
          let h1 := h ++ [set_isCollapsed collapsed (set_depth d o)] in
          match (if collapsed then None else o_children o) with
          | None | Some [] =>
              let h2 := alter (set_x (Some (num_of_nat d * X_GAP + Q2Qc 100)%Qc))
                          processedNode h1 in
              let h3 := alter (set_y (Some (num_of_nat currentLeafY * Y_GAP + Q2Qc 50)%Qc))
                          processedNode h2 in
              Some (processedNode, (h3, S currentLeafY))
          | Some ((_ :: _) as cs) =>
              match mapThreadM (λ child st, assignCoords fuel' collapsedSet child (S d) st)
                      cs (h1, currentLeafY) with
              | None => None
              | Some (ks, (h2, cur')) =>
                  let h3 := alter (set_children ks) processedNode h2 in
                  let firstChildY := head ks ≫= λ k, h3 !! k ≫= o_y in
                  let lastChildY := last ks ≫= λ k, h3 !! k ≫= o_y in
                  let h4 := alter (set_x (Some (num_of_nat d * X_GAP + Q2Qc 100)%Qc))
                              processedNode h3 in
                  let h5 := alter (set_y (num2 (λ a b, (a + b) / Q2Qc 2)%Qc
                                            firstChildY lastChildY))
                              processedNode h4 in
                  Some (processedNode, (h5, cur'))
              end
          end
      end
  end.

(** The body of [children.forEach(child => ..)] in [collect]: push the
    edge from [node] to [child], then [collect(child)]. *)
Definition visitChild
    (collect : ref → store * (list ref * list Edge)
               → option (unit * (store * (list ref * list Edge))))
    (node : ref) (halfWidth : Qc) (child : ref)
    (st : store * (list ref * list Edge))
    : option (unit * (store * (list ref * list Edge))) :=
  let '(h, (ns, es)) := st in
  match h !! node, h !! child with
  | Some n, Some c =>
      let childHalfWidth := (calculatedWidth (o_label c) (o_type c) / Q2Qc 2)%Qc in
      let e := mkEdge (num2 Qcplus (o_x n) (Some halfWidth)) (o_y n)
                 (num2 Qcminus (o_x c) (Some childHalfWidth)) (o_y c) in
      collect child (h, (ns, es ++ [e]))
  | _, _ => None
  end.

(** [collect(node)]: [nodes] and [edges] are the arrays it pushes to. *)
Fixpoint collect (fuel : nat) (node : ref)
    (st : store * (list ref * list Edge)) {struct fuel}
    : option (unit * (store * (list ref * list Edge))) :=
  match fuel with
  | O => None
  | S fuel' =>
      let '(h, (ns, es)) := st in
      match h !! node with
      | None => None
      | Some o =>
          let halfWidth := (calculatedWidth (o_label o) (o_type o) / Q2Qc 2)%Qc in
          let h1 := alter (set_halfWidth halfWidth) node h in
          let ns1 := ns ++ [node] in
          match (if default false (o_isCollapsed o) then None else o_children o) with
          | None => Some (tt, (h1, (ns1, es)))
          | Some cs =>
              match mapThreadM (visitChild (collect fuel') node halfWidth)
                      cs (h1, (ns1, es)) with
              | None => None
              | Some (_, st') => Some (tt, st')
              end
          end
      end
  end.

(** [n.x + (n.halfWidth || 70)] *)
Definition rightEdge (o : Obj) : option Qc :=
  num2 Qcplus (o_x o)
    (Some (match o_halfWidth o with
           | Some w => if decide (w = 0%Qc) then Q2Qc 70 else w
           | None => Q2Qc 70
           end)).

(** [nodes.reduce((max, n) => Math.max(max, f(n)), 0)] *)
Definition reduceMax (f : Obj → option Qc) (h : store) (ns : list ref) : option Qc :=
  foldl (λ m r, num2 Math_max m (h !! r ≫= f)) (Some 0%Qc) ns.

Definition calculateLayout (fuel : nat) (root : JsRoot)
    (collapsedSet : gset string) (h : store)
    : option (Completion (Layout * store)) :=
  match root with
  | JsUndefined => Some (Throw SyntaxError)
  | JsNull => Some (Throw TypeError)
  | JsObject r =>
      match stringify fuel h r with
      | None => None
      | Some text =>
          let '(copy, h1) := parse text h in
          match assignCoords fuel collapsedSet copy 0 (h1, 0%nat) with
          | None => None
          | Some (layoutRoot, (h2, _)) =>
              match collect fuel layoutRoot (h2, ([], [])) with
              | None => None
              | Some (_, (h3, (ns, es))) =>
                  let maxX := reduceMax rightEdge h3 ns in
                  let maxY := reduceMax o_y h3 ns in
                  Some (Return
                          (mkLayout ns es
                             (num2 Math_max (Some (Q2Qc 800))
                                (num2 Qcplus maxX (Some (Q2Qc 200))))
                             (num2 Math_max (Some (Q2Qc 600))
                                (num2 Qcplus maxY (Some (Q2Qc 200)))),
                           h3))
              end
          end
      end
  end.

End Store.

(** ** Auxiliary notions for the proofs *)

(** [collect] sets [halfWidth] on every node it visits. *)
Fixpoint sized (n : PNode) : PNode :=
  match n with
  | mkPNode i lbl ty ch d c px py _ =>
      mkPNode i lbl ty
        (match ch with
         | Mapped ks => Mapped (sized <$> ks)
         | Untouched c0 => Untouched c0
         end)
        d c px py (Some (calculatedWidth lbl ty / Q2Qc 2)%Qc)
  end.

(** What [assignCoords] establishes at every node it produces. *)
Definition node_ok (cs : gset string) (n : PNode) : Prop :=
  isCollapsed n = bool_decide (p_id n ∈ cs) ∧
  p_x n = depthX (depth n) ∧
  halfWidth n = None ∧
  match p_children n with
  | Untouched _ => visualLeaf cs (forget n) = true
  | Mapped ks =>
      visualLeaf cs (forget n) = false ∧
      p_y n = ((firstY ks + lastY ks) / Q2Qc 2)%Qc ∧
      Forall (λ k, depth k = S (depth n)) ks
  end.

(** The edges pushed below a node, in push order. *)
Fixpoint edgesOf (n : PNode) : list Edge :=
  match n with
  | mkPNode _ _ _ ch _ _ _ _ _ =>
      match ch with
      | Mapped ks => flat_map (λ k, edgeTo n k :: edgesOf k) ks
      | Untouched _ => []
      end
  end.

Definition mapped_expanded (n : PNode) : Prop :=
  match p_children n with
  | Mapped _ => isCollapsed n = false
  | Untouched _ => True
  end.

(** What [collect] relies on at a node: it walks into processed children
    only, and a node with untouched children is collapsed or has none. *)
Definition collectable (n : PNode) : Prop :=
  match p_children n with
  | Mapped _ => isCollapsed n = false
  | Untouched c => isCollapsed n = true ∨ arrayOf c = []
  end.

Definition leafP (cs : gset string) (n : PNode) : Prop :=
  visualLeaf cs (forget n) = true.

Global Instance leafP_dec cs n : Decision (leafP cs n).
Proof. unfold leafP. apply _. Defined.

Definition slots_from (cs : gset string) (cur : nat) (l : list PNode) (cur' : nat) : Prop :=
  p_y <$> filter (leafP cs) l = slotY <$> seq cur (length (filter (leafP cs) l)) ∧
  cur' = (cur + length (filter (leafP cs) l))%nat.

(** The value [calculateLayout] returns for a laid-out tree. *)
Definition layoutOf (L : PNode) : Layout :=
  let ns := sized <$> flatten L in
  mkLayout ns (edgesOf L)
    (Math_max (Q2Qc 800)
       (foldl (λ m n, Math_max m (p_x n + halfWidthOr70 n)%Qc) 0%Qc ns + Q2Qc 200)%Qc)
    (Math_max (Q2Qc 600)
       (foldl (λ m n, Math_max m (p_y n)) 0%Qc ns + Q2Qc 200)%Qc).

(** A laid-out tree with [isCollapsed] set to [b] on the nodes of id [i]. *)
Fixpoint reflag (i : string) (b : bool) (n : PNode) : PNode :=
  match n with
  | mkPNode j lbl ty ch d col px py hw =>
      mkPNode j lbl ty
        (match ch with
         | Mapped ks => Mapped (reflag i b <$> ks)
         | Untouched c => Untouched c
         end)
        d (if decide (j = i) then b else col) px py hw
  end.

(** ** Relating the store to the pure embedding *)

(** Number of nodes of a laid-out tree. *)
Definition psize (n : PNode) : nat := length (flatten n).

(** [assignCoords] allocates a processed node before its children: the
    children of the node at [b - 1] sit at [b], [b + psize k1], ... *)
Fixpoint kidRefs (b : nat) (ks : list PNode) : list nat :=
  match ks with
  | [] => []
  | k :: ks' => b :: kidRefs (b + psize k) ks'
  end.

(** The object [o] at reference [p] holds the processed node [n]. *)
Definition obj_matches (p : nat) (o : Store.Obj) (n : PNode) : Prop :=
  Store.o_id o = p_id n ∧ Store.o_label o = p_label n ∧
  Store.o_type o = p_type n ∧
  Store.o_depth o = Some (depth n) ∧
  Store.o_isCollapsed o = Some (isCollapsed n) ∧
  Store.o_x o = Some (p_x n) ∧ Store.o_y o = Some (p_y n) ∧
  Store.o_halfWidth o = halfWidth n ∧
  match p_children n with
  | Untouched c => length <$> Store.o_children o = length <$> c
  | Mapped ks => Store.o_children o = Some (kidRefs (S p) ks)
  end.

Definition laidSeq (P : nat → PNode → Prop) : nat → list PNode → Prop :=
  fix go (b : nat) (ks : list PNode) : Prop :=
    match ks with
    | [] => True
    | k :: ks' => P b k ∧ go (b + psize k) ks'
    end.

(** The store holds the laid-out tree [L] in the references from [pb] on,
    in pre-order. *)
Fixpoint laidAt (h : Store.store) (pb : nat) (L : PNode) : Prop :=
  (∃ o, h !! pb = Some o ∧ obj_matches pb o L) ∧
  match L with
  | mkPNode _ _ _ (Mapped ks) _ _ _ _ _ => laidSeq (laidAt h) (S pb) ks
  | _ => True
  end.

(** Fuel [f] lets a recursion walk down the laid-out tree. *)
Fixpoint fits (f : nat) (L : PNode) : Prop :=
  match f with
  | O => False
  | S f' => Forall (fits f') (laidKids L)
  end.

(** The objects one reaches from [r] with fuel [f] carry no positioning
    property. *)
Fixpoint raw (f : nat) (h : list Store.Obj) (r : nat) : Prop :=
  match f with
  | O => True
  | S f' =>
      match h !! r with
      | None => False
      | Some o =>
          Store.o_depth o = None ∧ Store.o_isCollapsed o = None ∧
          Store.o_x o = None ∧ Store.o_y o = None ∧
          Store.o_halfWidth o = None ∧
          Forall (raw f' h) (arrayOf (Store.o_children o))
      end
  end.

(** An edge of the pure embedding as the four numbers pushed. *)
Definition liftEdge (e : Edge) : Store.Edge :=
  Store.mkEdge (Some (x1 e)) (Some (y1 e)) (Some (x2 e)) (Some (y2 e)).

(** What [assignCoords] over the store does with fuel [f] on a tree that
    [stringify] reads with fuel [f]: it appends the objects of the laid-out
    tree, the root first, and touches nothing else. *)
Definition assign_ok (cs : gset string) (f : nat) : Prop :=
  ∀ h r t, Store.stringify f h r = Some t → raw f h r →
  ∀ d cur, ∃ E,
    Store.assignCoords f cs r d (h, cur) =
      Some (length h, (h ++ E, (assignCoords cs t d cur).2)) ∧
    length E = psize (assignCoords cs t d cur).1 ∧
    laidAt (h ++ E) (length h) (assignCoords cs t d cur).1 ∧
    fits f (assignCoords cs t d cur).1.

(** What [collect] over the store does with fuel [f]: it sets [halfWidth]
    on the objects of the laid-out tree, pushes their references in
    pre-order and the edges of the pure [collect], and touches nothing
    else. *)
Definition collect_ok (f : nat) : Prop :=
  ∀ L h pb ns es,
    fits f L → Forall collectable (flatten L) → laidAt h pb L →
    ∃ h', Store.collect f pb (h, (ns, es)) =
            Some (tt, (h', (ns ++ seq pb (psize L),
                            es ++ (liftEdge <$> edgesOf L)))) ∧
          laidAt h' pb (sized L) ∧ length h' = length h ∧
          ∀ j, ¬ (pb ≤ j < pb + psize L)%nat → h' !! j = h !! j.

(** ** Scenarios *)

Definition scenario_A : TreeNode :=
  mkTreeNode "R" "Kerberos" "root"
    (Some [mkTreeNode "C1" "Tickets" "child" (Some []);
           mkTreeNode "C2" "Delegation" "child" None]).

Definition scenario_B : TreeNode :=
  mkTreeNode "R" "Kerberos" "root"
    (Some [mkTreeNode "C1" "Rubeus" "child"
             (Some [mkTreeNode "G1" "Rubeus.exe asktgt /user:admin" "code" (Some [])])]).

(** The caller's store of scenario A: the tree [scenario_A] at reference 2. *)
Definition caller_store : list Store.Obj :=
  [Store.mkObj "C1" "Tickets" "child" (Some []) None None None None None;
   Store.mkObj "C2" "Delegation" "child" None None None None None None;
   Store.mkObj "R" "Kerberos" "root" (Some [0%nat; 1%nat]) None None None None None].

(** A root whose children sit at 130, 290 and 370. *)
Definition uneven_tree : TreeNode :=
  mkTreeNode "R" "r" "root"
    (Some [mkTreeNode "A" "a" "child"
             (Some [mkTreeNode "A1" "a1" "child" None;
                    mkTreeNode "A2" "a2" "child" None;
                    mkTreeNode "A3" "a3" "child" None]);
           mkTreeNode "B" "b" "child" None;
           mkTreeNode "C" "c" "child" None]).

(** ** Auxiliary notions for the vertical order *)

(** [b] lies at least one slot (80 units) below [a]. *)
Definition below (a b : Qc) : Prop := (a + Q2Qc 80 ≤ b)%Qc.

(** The vertical coordinate of [n] lies within the slots [a .. b - 1]. *)
Definition in_slots (a b : nat) (n : PNode) : Prop :=
  (slotY a ≤ p_y n)%Qc ∧ (p_y n ≤ slotY (b - 1))%Qc.

(** The nodes of [l] lie within the slots [a .. b - 1], and those at depth
    [dd] are listed top to bottom, a slot or more apart. *)
Definition stacked (dd a b : nat) (l : list PNode) : Prop :=
  Forall (in_slots a b) l ∧
  StronglySorted below (p_y <$> filter (λ n, depth n = dd) l).

(** The processed children of [n] are listed top to bottom, a slot or more
    apart, and [n] sits between the first and the last of them. *)
Definition kids_stacked (n : PNode) : Prop :=
  StronglySorted below (p_y <$> laidKids n) ∧
  (laidKids n ≠ [] →
   (firstY (laidKids n) ≤ p_y n)%Qc ∧ (p_y n ≤ lastY (laidKids n))%Qc).

(** ** Rendering of a node *)

(** [MindMapNode]: the rectangle drawn for a processed node, the id its
    click handler passes to [onToggle] (none when the handler does
    nothing), and the toggle button, rendered only when [hasChildren]. *)
Inductive Glyph : Type := Plus | Minus.

Record ToggleButton : Type :=
  mkToggleButton { b_dx : Qc; b_glyph : Glyph; b_onClick : string }.

Record NodeView : Type :=
  mkNodeView {
    v_x : Qc;
    v_y : Qc;
    rect_x : Qc;
    rect_y : Qc;
    rect_width : Qc;
    rect_height : Qc;
    rect_onClick : option string;
    button : option ToggleButton
  }.

(** [node.children && node.children.length > 0] on a processed node, whose
    [children] are the processed children or the array left untouched. *)
Definition nodeHasChildren (node : PNode) : bool :=
  match p_children node with
  | Untouched (Some (_ :: _)) => true
  | Mapped (_ :: _) => true
  | _ => false
  end.

Definition MindMapNode (node : PNode) (x y : Qc) : NodeView :=
  let hasChildren := nodeHasChildren node in
  let calculatedWidth := calculatedWidth (p_label node) (p_type node) in
  let xOffset := (- (calculatedWidth / Q2Qc 2))%Qc in
  mkNodeView x y xOffset (Q2Qc (-25)) calculatedWidth (Q2Qc 50)
    (if hasChildren then Some (p_id node) else None)
    (if hasChildren
     then Some (mkToggleButton (- xOffset + Q2Qc 12)%Qc
                  (if isCollapsed node then Plus else Minus) (p_id node))
     else None).

(** [nodes.map(node => <MindMapNode node={node} x={node.x} y={node.y}
    onToggle={handleToggle} />)] *)
Definition MindMapRenderer_nodes (data : JsRoot) (collapsed : gset string)
    : Completion (list NodeView) :=
  match calculateLayout data collapsed with
  | Return r => Return ((λ n, MindMapNode n (p_x n) (p_y n)) <$> nodes r)
  | Throw e => Throw e
  end.

(** The two places of a rendered node that handle a click. *)
Inductive Target : Type := OnRect | OnButton.

(** The id passed to [onToggle] by a click, if any. *)
Definition click (v : NodeView) (tg : Target) : option string :=
  match tg with
  | OnRect => rect_onClick v
  | OnButton => b_onClick <$> button v
  end.

(** The collapsed set after a click on the [j]-th rendered node. *)
Definition MindMapRenderer_click (data : JsRoot) (collapsed : gset string)
    (j : nat) (tg : Target) : gset string :=
  match MindMapRenderer_nodes data collapsed with
  | Return vs =>
      match vs !! j ≫= λ v, click v tg with
      | Some i => handleToggle i collapsed
      | None => collapsed
      end
  | Throw _ => collapsed
  end.

(** The collapsed set after the seeding effect and a sequence of clicks. *)
Definition session (data : JsRoot) (clicks : list (nat * Target)) : gset string :=
  foldl (λ s ev, MindMapRenderer_click data s ev.1 ev.2) (seed data) clicks.

(** Borders of the rectangle in canvas coordinates. *)
Definition rect_left (v : NodeView) : Qc := (v_x v + rect_x v)%Qc.
Definition rect_right (v : NodeView) : Qc := (v_x v + rect_x v + rect_width v)%Qc.

(** ** JSON values *)

(** What [JSON.parse] yields and [JSON.stringify] preserves.  An object is
    observed through its properties only; it is modelled by a finite map,
    without the order in which the properties were inserted. *)
Inductive Json : Type :=
| JNull
| JBool (b : bool)
| JNum (q : Qc)
| JStr (s : string)
| JArr (l : list Json)
| JObj (m : gmap string Json).

(** [ToBoolean], as used by [||], [&&] and [!]. *)
Definition truthy (v : Json) : bool :=
  match v with
  | JNull => false
  | JBool b => b
  | JNum q => bool_decide (q ≠ 0%Qc)
  | JStr s => bool_decide (s ≠ ""%string)
  | JArr _ | JObj _ => true
  end.

(** What [await fetch(..)] followed by [await response.json()] produces:
    [fetch] rejects, or there is a response with a status, whose body is
    JSON ([Some]) or not ([None], [json()] rejects). *)
Inductive FetchResult : Type :=
| Rejected
| Responded (status : nat) (json : option Json).

(** ** The proxy function [onRequestPost] *)

Definition TEXT_MODEL : string := "gemini-2.5-flash-preview-09-2025".
Definition TTS_MODEL : string := "gemini-2.5-flash-preview-tts".

(** The request sent to Google: the value interpolated into the URL after
    [models/], the key, and the JSON body. *)
Record GoogleRequest : Type :=
  mkGoogleRequest { g_model : Json; g_key : string; g_payload : gmap string Json }.

(** A [Response] built by the function: status and JSON body. *)
Record Response : Type := mkResponse { r_status : nat; r_body : Json }.

(** What can be thrown inside the [try] block. *)
Inductive ServerError : Type :=
| RequestNotJson
| RequestNull
| GoogleUnreachable
| GoogleNotJson
| IllegalStatus (status : nat).

(** [requestData.model] on a value other than [null]: only an object can
    have a property of that name. *)
Definition model_property (requestData : Json) : option Json :=
  match requestData with
  | JObj m => m !! "model"%string
  | _ => None
  end.

(** The own enumerable properties of an array or of a string: one per
    index. *)
Definition indexed (l : list Json) : gmap string Json :=
  list_to_map (imap (λ i v, (pretty i, v)) l).

Definition code_units (s : string) : list Json :=
  (λ a, JStr (String a EmptyString)) <$> String.list_ascii_of_string s.

(** [const { model: _, ...googlePayload } = requestData] *)
Definition rest_without_model (requestData : Json) : gmap string Json :=
  match requestData with
  | JObj m => delete "model"%string m
  | JArr l => delete "model"%string (indexed l)
  | JStr s => delete "model"%string (indexed (code_units s))
  | _ => ∅
  end.

(** [new Response(body, { status })] with a body throws unless the status
    is in 200..599 and is not a null-body status. *)
Definition legalStatus (st : nat) : bool :=
  (200 <=? st)%nat && (st <=? 599)%nat &&
  negb ((st =? 204)%nat || (st =? 205)%nat || (st =? 304)%nat).

Section Server.
(** The text of the system prompt and the [message] of an error are not
    inspected by the code. *)
Variable MINDMAP_SYSTEM_PROMPT : string.
Variable message : ServerError → string.

Definition systemInstruction : Json :=
  JObj {[ "parts"%string := JArr [JObj {[ "text"%string := JStr MINDMAP_SYSTEM_PROMPT ]}] ]}.

(** The [try] block: the response it returns or the error it throws,
    with the requests sent to Google. *)
Definition tryForward (apiKey : string) (request : option Json)
    (google : GoogleRequest → FetchResult)
    : (ServerError + Response) * list GoogleRequest :=
  match request with
  | None => (inl RequestNotJson, [])
  | Some JNull => (inl RequestNull, [])
  | Some requestData =>
      let model :=
        match model_property requestData with
        | Some v => if truthy v then v else JStr TEXT_MODEL
        | None => JStr TEXT_MODEL
        end in
      let googlePayload := rest_without_model requestData in
      let googlePayload :=
        match model with
        | JStr s =>
            if decide (s = TEXT_MODEL)
            then <["systemInstruction"%string := systemInstruction]> googlePayload
            else googlePayload
        | _ => googlePayload
        end in
      let req := mkGoogleRequest model apiKey googlePayload in
      match google req with
      | Rejected => (inl GoogleUnreachable, [req])
      | Responded _ None => (inl GoogleNotJson, [req])
      | Responded st (Some data) =>
          if legalStatus st then (inr (mkResponse st data), [req])
          else (inl (IllegalStatus st), [req])
      end
  end.

(** [onRequestPost(context)]: [apiKey] is [context.env.GEMINI_API_KEY],
    [request] the outcome of [context.request.json()], [google] answers the
    [fetch].  The result is the response, with the requests sent to
    Google. *)
Definition onRequestPost (apiKey : option string) (request : option Json)
    (google : GoogleRequest → FetchResult) : Response * list GoogleRequest :=
  match apiKey with
  | Some key =>
      if decide (key = ""%string)
      then (mkResponse 500
              (JObj {[ "error"%string :=
                         JStr "Server-side configuration error: Missing API Key" ]}),
            [])
      else match tryForward key request google with
           | (inr response, sent) => (response, sent)
           | (inl err, sent) =>
               (mkResponse 500
                  (JObj (<[ "error"%string := JStr "Failed to process request" ]>
                           {[ "details"%string := JStr (message err) ]})),
                sent)
           end
  | None =>
      (mkResponse 500
         (JObj {[ "error"%string :=
                    JStr "Server-side configuration error: Missing API Key" ]}),
       [])
  end.
End Server.

(** ** The client of the proxy *)

(** What [fetchGeminiProxy] throws. *)
Inductive ClientError : Type :=
| ErrorOf (v : Json)
| ClientErrorDefault
| ApiError (status : nat)
| FetchFailed
| BodyNotJson
| PropertyOfNull.

Definition delays : list N := [1000; 2000; 4000; 8000; 16000]%N.

(** What the function does that can be observed from outside. *)
Inductive Event : Type :=
| Posted (body : gmap string Json)
| Waited (ms : N).

(** How the [try] block of one iteration ends. *)
Inductive Step : Type :=
| Returns (data : Json)
| Continues (ms : N)
| Throws (e : ClientError).

(** [response.ok] *)
Definition ok (st : nat) : bool := (200 <=? st)%nat && (st <=? 299)%nat.

(** The [try] block of iteration [i], after [fetch] has produced [res]. *)
Definition tryBlock (i : nat) (res : FetchResult) : Step :=
  match res with
  | Rejected => Throws FetchFailed
  | Responded st json =>
      if ok st then
        match json with
        | Some data => Returns data
        | None => Throws BodyNotJson
        end
      else if (400 <=? st)%nat && (st <? 500)%nat then
        match json with
        | None => Throws BodyNotJson
        | Some JNull => Throws PropertyOfNull
        | Some (JObj m) =>
            match m !! "error"%string with
            | Some v => if truthy v then Throws (ErrorOf v) else Throws ClientErrorDefault
            | None => Throws ClientErrorDefault
            end
        | Some _ => Throws ClientErrorDefault
        end
      else if (st =? 429)%nat && (i <? length delays)%nat then
        Continues (default 0%N (delays !! i))
      else Throws (ApiError st)
  end.

Inductive Outcome : Type :=
| Returned (data : Json)
| ReturnedUndefined
| Thrown (e : ClientError).

(** The [for] loop from iteration [i] on, [n] iterations being left; [world]
    answers the [i]-th request. *)
Fixpoint fetchLoop (world : nat → gmap string Json → FetchResult)
    (body : gmap string Json) (n i : nat) (trace : list Event)
    : Outcome * list Event :=
  match n with
  | O => (ReturnedUndefined, trace)
  | S n' =>
      let trace1 := trace ++ [Posted body] in
      match tryBlock i (world i body) with
      | Returns data => (Returned data, trace1)
      | Continues ms => fetchLoop world body n' (S i) (trace1 ++ [Waited ms])
      | Throws e =>
          if decide (i = length delays) then (Thrown e, trace1)
          else fetchLoop world body n' (S i) trace1
      end
  end.

(** [fetchGeminiProxy(payload, type)] *)
Definition fetchGeminiProxy (world : nat → gmap string Json → FetchResult)
    (payload : gmap string Json) (type : string) : Outcome * list Event :=
  let model := if decide (type = "tts"%string) then TTS_MODEL else TEXT_MODEL in
  let body := <[ "model"%string := JStr model ]> payload in
  fetchLoop world body (S (length delays)) 0 [].

(** The proxy function as the world of the client: the [i]-th request is
    served with the key [apiKey], Google answering with [google i]. *)
Definition served (prompt : string) (message : ServerError → string)
    (apiKey : option string) (google : nat → GoogleRequest → FetchResult)
    (i : nat) (body : gmap string Json) : FetchResult :=
  let response := (onRequestPost prompt message apiKey (Some (JObj body)) (google i)).1 in
  Responded (r_status response) (Some (r_body response)).

(** ** The functions that call the proxy *)

Definition nl : string := String (Ascii.ascii_of_nat 10) EmptyString.

(** The template literal [userPrompt] of [callGeminiForAnswer]. *)
Definition userPrompt (query contextText : string) : string :=
  nl +:+ "  --- SOURCE MATERIAL / CONTEXT ---" +:+ nl +:+ "  " +:+
  (if decide (contextText = ""%string) then "No source material provided."%string
   else String.substring 0 30000 contextText) +:+ nl +:+
  "  ---------------------------------" +:+ nl +:+ nl +:+
  "  User Question: " +:+ query +:+ nl +:+ "  " +:+ nl +:+
  "  Answer based STRICTLY on the source material above:" +:+ nl +:+ "  ".

Definition answerPayload (query contextText : string) : gmap string Json :=
  <[ "contents"%string :=
       JArr [JObj {[ "parts"%string :=
                       JArr [JObj {[ "text"%string :=
                                       JStr (userPrompt query contextText) ]}] ]}] ]>
    {[ "generationConfig"%string :=
         JObj {[ "responseMimeType"%string := JStr "application/json" ]} ]}.

Definition summarizePayload (text : string) : gmap string Json :=
  {[ "contents"%string :=
       JArr [JObj {[ "parts"%string :=
         JArr [JObj {[ "text"%string :=
           JStr ("Summarize the following text into 3-4 distinct bullet points of key takeaways:"
                 +:+ nl +:+ nl +:+ String.substring 0 10000 text) ]}] ]}] ]}.

(** [v.k] for a [v] other than [null] and a name [k] that is neither an
    index nor the name of a built-in property: only an object has it. *)
Definition property (k : string) (v : Json) : option Json :=
  match v with
  | JObj m => m !! k
  | _ => None
  end.

(** [v[0]] for a [v] other than [null]. *)
Definition first_item (v : Json) : option Json :=
  match v with
  | JArr l => l !! 0%nat
  | JObj m => m !! "0"%string
  | JStr s => code_units s !! 0%nat
  | _ => None
  end.

(** [v?.k]: [undefined] ([None]) when [v] is [null] or [undefined]. *)
Definition optional (f : Json → option Json) (v : option Json) : option Json :=
  match v with
  | Some JNull | None => None
  | Some w => f w
  end.

(** [result.candidates?.[0]?.content?.parts?.[0]?.text]; the outer [None]
    is the [TypeError] thrown when [result] is [null]. *)
Definition candidateText (result : Json) : option (option Json) :=
  match result with
  | JNull => None
  | _ =>
      Some (optional (property "text")
             (optional first_item
               (optional (property "parts")
                 (optional (property "content")
                   (optional first_item (property "candidates" result))))))
  end.

(** The object returned from the [catch] block of [callGeminiForAnswer]. *)
Definition fallbackAnswer : Json :=
  JObj (<[ "text"%string :=
             JStr "I'm sorry, I couldn't generate a response. Please ensure the backend is configured correctly." ]>
          {[ "mindMap"%string := JNull ]}).

Section Callers.
(** [JSON.parse] on a string ([None]: it throws), and [ToString] on a value
    that is not a string. *)
Variable JSON_parse : string → option Json.
Variable toString : Json → string.

Definition ToString (v : Json) : string :=
  match v with
  | JStr s => s
  | _ => toString v
  end.

(** [callGeminiForAnswer(query, contextText)]: the value it resolves to,
    with what [fetchGeminiProxy] did. *)
Definition callGeminiForAnswer (world : nat → gmap string Json → FetchResult)
    (query contextText : string) : Json * list Event :=
  let r := fetchGeminiProxy world (answerPayload query contextText) "text" in
  (match r.1 with
   | Returned result =>
       match candidateText result with
       | Some (Some jsonText) =>
           match JSON_parse (ToString jsonText) with
           | Some v => v
           | None => fallbackAnswer
           end
       | _ => fallbackAnswer
       end
   | _ => fallbackAnswer
   end, r.2).

(** [callGeminiSummarize(text)]; [None] is [undefined]. *)
Definition callGeminiSummarize (world : nat → gmap string Json → FetchResult)
    (text : string) : option Json * list Event :=
  let r := fetchGeminiProxy world (summarizePayload text) "text" in
  (match r.1 with
   | Returned result =>
       match candidateText result with
       | Some t => t
       | None => Some (JStr "Could not generate summary.")
       end
   | _ => Some (JStr "Could not generate summary.")
   end, r.2).
End Callers.

(** * Induction over trees *)

Section TreeNode_induction.
Variable P : TreeNode → Prop.
Hypothesis Hnode : ∀ i lbl ty ch,
  Forall P (arrayOf ch) → P (mkTreeNode i lbl ty ch).

Fixpoint TreeNode_nested_ind (t : TreeNode) : P t :=
  match t with
  | mkTreeNode i lbl ty ch =>
      Hnode i lbl ty ch
        (match ch as o return Forall P (arrayOf o) with
         | None => Forall_nil_2 P
         | Some l =>
             (fix go (l : list TreeNode) : Forall P l :=
                match l with
                | [] => Forall_nil_2 P
                | c :: l' => Forall_cons_2 P c l' (TreeNode_nested_ind c) (go l')
                end) l
         end)
  end.
End TreeNode_induction.

Section PNode_induction.
Variable P : PNode → Prop.
Hypothesis Hnode : ∀ n, Forall P (laidKids n) → P n.

Fixpoint PNode_nested_ind (n : PNode) : P n :=
  match n with
  | mkPNode i lbl ty ch d c px py hw =>
      Hnode (mkPNode i lbl ty ch d c px py hw)
        (match ch as k
           return Forall P (laidKids (mkPNode i lbl ty k d c px py hw)) with
         | Untouched _ => Forall_nil_2 P
         | Mapped ks =>
             (fix go (l : list PNode) : Forall P l :=
                match l with
                | [] => Forall_nil_2 P
                | k :: l' => Forall_cons_2 P k l' (PNode_nested_ind k) (go l')
                end) ks
         end)
  end.
End PNode_induction.

(** * Basic facts *)

Lemma mapThread_cons {A B S} (f : A → S → B * S) a l s :
  mapThread f (a :: l) s =
    ((f a s).1 :: (mapThread f l (f a s).2).1, (mapThread f l (f a s).2).2).
Proof.
  simpl. destruct (f a s) as [b s1]. simpl.
  destruct (mapThread f l s1) as [bs s2]. reflexivity.
Qed.

Lemma mapThread_Forall2 {A B S} (f : A → S → B * S) (R : A → B → Prop) l :
  Forall (λ a, ∀ s, R a (f a s).1) l →
  ∀ s, Forall2 R l (mapThread f l s).1.
Proof.
  induction 1 as [|a l Ha _ IH]; intros s.
  - constructor.
  - rewrite mapThread_cons. simpl. constructor; [apply Ha | apply IH].
Qed.

Lemma mapThread_length {A B S} (f : A → S → B * S) l s :
  length (mapThread f l s).1 = length l.
Proof.
  revert s. induction l as [|a l IH]; intros s; [done|].
  rewrite mapThread_cons. simpl. by rewrite IH.
Qed.

(** [assignCoords] unfolded once, with [kids] and [visualLeaf]. *)
Lemma assignCoords_leaf cs t d cur :
  visualLeaf cs t = true →
  assignCoords cs t d cur =
    (mkPNode (id t) (label t) (type t) (Untouched (children t)) d
       (bool_decide (id t ∈ cs)) (depthX d) (slotY cur) None, S cur).
Proof.
  destruct t as [i lbl ty ch]. unfold visualLeaf, hasChildren. simpl.
  destruct (bool_decide (i ∈ cs)); [done|].
  destruct ch as [[|c l]|]; simpl; done.
Qed.

Lemma assignCoords_inner cs t d cur :
  visualLeaf cs t = false →
  assignCoords cs t d cur =
    let r := mapThread (λ c cur, assignCoords cs c (S d) cur) (kids t) cur in
    (mkPNode (id t) (label t) (type t) (Mapped r.1) d false (depthX d)
       ((firstY r.1 + lastY r.1) / Q2Qc 2) None, r.2).
Proof.
  destruct t as [i lbl ty ch]. unfold visualLeaf, hasChildren, kids. simpl.
  destruct (bool_decide (i ∈ cs)); [done|].
  destruct ch as [[|c l]|]; simpl; try done.
  intros _. destruct (assignCoords cs c (S d) cur) as [k cur1].
  destruct (mapThread _ l cur1) as [ks cur2]. reflexivity.
Qed.

Lemma visualLeaf_false cs t :
  visualLeaf cs t = false → (id t ∉ cs) ∧ kids t ≠ [] ∧ hasChildren t = true.
Proof.
  unfold visualLeaf, hasChildren, kids. destruct t as [i lbl ty ch]; simpl.
  intros [Hc Hk]%orb_false_iff. apply bool_decide_eq_false in Hc.
  destruct ch as [[|c l]|]; simpl in *; done.
Qed.

(** * Positions *)

Lemma before_irrefl p : ¬ before p p.
Proof. induction p as [|i p IH]; inversion 1; subst; [lia | auto]. Qed.

Lemma before_trans p q r : before p q → before q r → before p r.
Proof.
  intros Hpq. revert r. induction Hpq; intros r Hqr; inversion Hqr; subst;
    try (constructor; (lia || auto)); done.
Qed.

Lemma before_strict_prefix p q : p `prefix_of` q → p ≠ q → before p q.
Proof.
  revert q. induction p as [|i p IH]; intros q Hpre Hne.
  - destruct q; [done | constructor].
  - destruct q as [|j q]; [by apply prefix_nil_not in Hpre|].
    pose proof (prefix_cons_inv_1 _ _ _ _ Hpre) as ->.
    apply prefix_cons_inv_2 in Hpre.
    apply before_eq, IH; [done | congruence].
Qed.

(** In a list sorted for a strict order, order is position. *)
Lemma sorted_lookup_lt {A} (R : relation A) (l : list A) i j a b :
  (∀ x, ¬ R x x) → (∀ x y z, R x y → R y z → R x z) →
  StronglySorted R l → l !! i = Some a → l !! j = Some b → R a b → (i < j)%nat.
Proof.
  intros Hirr Htr Hs. revert i j.
  induction Hs as [|x l Hs IH Hall]; intros i j Hi Hj Hab; [done|].
  rewrite Forall_forall in Hall.
  destruct i as [|i], j as [|j]; simpl in *; simplify_eq.
  - exfalso. by eapply Hirr.
  - lia.
  - exfalso. eapply Hirr, Htr; [|exact Hab].
    apply Hall. by eapply list_elem_of_lookup_2.
  - apply (IH i j) in Hab; [lia | done..].
Qed.

Lemma flatMapi_cons {A B} (f : nat → A → list B) i a l :
  flatMapi f i (a :: l) = f i a ++ flatMapi f (S i) l.
Proof. reflexivity. Qed.

Lemma elem_of_flatMapi {A B} (f : nat → A → list B) k l b :
  b ∈ flatMapi f k l ↔ ∃ i a, l !! i = Some a ∧ b ∈ f (k + i)%nat a.
Proof.
  revert k. induction l as [|a l IH]; intros k.
  - simpl. split; [by intros ?%elem_of_nil | by intros (i & a & ? & _)].
  - rewrite flatMapi_cons, elem_of_app, IH. split.
    + intros [H | (i & a' & Hi & H)].
      * exists 0%nat, a. by rewrite Nat.add_0_r.
      * exists (S i), a'. split; [done|]. by replace (k + S i)%nat with (S k + i)%nat by lia.
    + intros ([|i] & a' & Hi & H); simpl in Hi; simplify_eq.
      * left. by rewrite Nat.add_0_r in H.
      * right. exists i, a'. split; [done|]. by replace (S k + i)%nat with (k + S i)%nat by lia.
Qed.

Lemma all_paths_unfold t :
  all_paths t = [] :: flatMapi (λ i c, (i ::.) <$> all_paths c) 0 (kids t).
Proof. destruct t as [i lbl ty [l|]]; reflexivity. Qed.

Lemma elem_of_all_paths t p : p ∈ all_paths t ↔ is_Some (node_at t p).
Proof.
  revert t. induction p as [|i p IH]; intros t; rewrite all_paths_unfold.
  - simpl. split; [eauto | intros _; apply list_elem_of_here].
  - rewrite elem_of_cons, elem_of_flatMapi. simpl. split.
    + intros [? | (j & c & Hj & H)]; [done|].
      apply list_elem_of_fmap in H as (p' & [= -> ->] & H).
      rewrite Hj. simpl. by apply IH.
    + intros H. right. destruct (kids t !! i) as [c|] eqn:Hc; simpl in H;
        [|by destruct H].
      exists i, c. split; [done|]. apply list_elem_of_fmap. exists p.
      split; [done|]. by apply IH.
Qed.

Lemma StronglySorted_filter {A} (R : relation A) (P : A → Prop)
    `{∀ x, Decision (P x)} l :
  StronglySorted R l → StronglySorted R (filter P l).
Proof.
  induction 1 as [|x l Hs IH Hall]; [constructor|].
  rewrite filter_cons. destruct (decide (P x)); [|done].
  constructor; [done|]. rewrite Forall_forall in Hall |- *.
  intros y [_ Hy]%list_elem_of_filter. by apply Hall.
Qed.

Lemma StronglySorted_NoDup {A} (R : relation A) l :
  (∀ x, ¬ R x x) → StronglySorted R l → NoDup l.
Proof.
  intros Hirr. induction 1 as [|x l Hs IH Hall]; constructor; [|done].
  rewrite Forall_forall in Hall. intros Hx. by apply (Hirr x), Hall.
Qed.

Lemma filter_flatMapi {A B} (P : B → Prop) `{∀ x, Decision (P x)}
    (f : nat → A → list B) k l :
  filter P (flatMapi f k l) = flatMapi (λ i a, filter P (f i a)) k l.
Proof.
  revert k. induction l as [|a l IH]; intros k; [done|].
  by rewrite !flatMapi_cons, filter_app, IH.
Qed.

Lemma flatMapi_ext {A B} (f g : nat → A → list B) k l :
  (∀ i a, l !! i = Some a → f (k + i)%nat a = g (k + i)%nat a) →
  flatMapi f k l = flatMapi g k l.
Proof.
  revert k. induction l as [|a l IH]; intros k Hfg; [done|].
  rewrite !flatMapi_cons. f_equal.
  - specialize (Hfg 0%nat a eq_refl). by rewrite Nat.add_0_r in Hfg.
  - apply IH. intros i a' Hi. specialize (Hfg (S i) a' Hi).
    by replace (S k + i)%nat with (k + S i)%nat by lia.
Qed.

Lemma flatMapi_nil_fun {A B} k (l : list A) :
  flatMapi (λ _ _, @nil B) k l = [].
Proof. revert k. induction l as [|a l IH]; intros k; [done|]. apply IH. Qed.

Lemma all_paths_sorted t : StronglySorted before (all_paths t).
Proof.
  induction t as [i lbl ty ch IH] using TreeNode_nested_ind.
  rewrite all_paths_unfold. unfold kids. simpl.
  constructor.
  - generalize 0%nat. induction IH as [|c l Hc _ IHl]; intros k; [constructor|].
    rewrite flatMapi_cons. apply StronglySorted_app_2; [| |apply IHl].
    + intros p q (p' & -> & _)%list_elem_of_fmap
        (j & c' & _ & (q' & -> & _)%list_elem_of_fmap)%elem_of_flatMapi.
      apply before_lt. lia.
    + eapply StronglySorted_fmap; [|exact Hc]. intros; by apply before_eq.
  - apply Forall_forall.
    intros p (j & c & _ & (p' & -> & _)%list_elem_of_fmap)%elem_of_flatMapi.
    constructor.
Qed.

Lemma visible_paths_sorted cs t : StronglySorted before (visible_paths cs t).
Proof. apply StronglySorted_filter, all_paths_sorted. Qed.

Lemma visible_paths_NoDup cs t : NoDup (visible_paths cs t).
Proof.
  eapply StronglySorted_NoDup; [apply before_irrefl | apply visible_paths_sorted].
Qed.

Lemma visible_paths_unfold cs t :
  visible_paths cs t =
    [] :: (if visualLeaf cs t then []
           else flatMapi (λ i c, (i ::.) <$> visible_paths cs c) 0 (kids t)).
Proof.
  unfold visible_paths at 1. rewrite all_paths_unfold.
  rewrite filter_cons_True by done. f_equal.
  rewrite filter_flatMapi.
  destruct (visualLeaf cs t) eqn:Hleaf.
  - unfold visualLeaf in Hleaf. apply orb_true_iff in Hleaf as [Hc | Hk].
    + rewrite <-(flatMapi_nil_fun 0 (kids t)). apply flatMapi_ext.
      intros i c Hi. simpl. induction (all_paths c) as [|p l IH]; [done|].
      csimpl. rewrite filter_cons_False; [done|]. simpl. by rewrite Hc.
    + unfold hasChildren, kids in *. by destruct (children t) as [[|]|].
  - apply visualLeaf_false in Hleaf as (Hc & _).
    apply flatMapi_ext. intros i c Hi. simpl in *.
    unfold visible_paths. induction (all_paths c) as [|p l IH]; [done|].
    csimpl. rewrite (filter_cons _ p), (filter_cons _ (i :: p)). simpl.
    rewrite Hi, bool_decide_eq_false_2 by done. simpl.
    destruct (decide (visibleb cs c p = true)); csimpl; [f_equal|]; exact IH.
Qed.

Lemma visibleb_spec cs t p :
  is_Some (node_at t p) → visibleb cs t p = true ↔ ancestors_expanded cs t p.
Proof.
  revert t. induction p as [|i p IH]; intros t Hp; simpl.
  - split; [|done]. intros _ q n Hq Hne. by apply prefix_nil_inv in Hq.
  - simpl in Hp. destruct (kids t !! i) as [c|] eqn:Hc; [|by destruct Hp].
    simpl in Hp. rewrite andb_true_iff, negb_true_iff, bool_decide_eq_false, (IH c Hp).
    split.
    + intros [Ht Hanc] q n Hq Hne Hn. destruct q as [|j q]; simpl in Hn.
      * by simplify_eq.
      * pose proof (prefix_cons_inv_1 _ _ _ _ Hq) as ->.
        apply prefix_cons_inv_2 in Hq. rewrite Hc in Hn. simpl in Hn.
        eapply Hanc; [done| |done]. congruence.
    + intros Hanc. split.
      * apply (Hanc [] t); [apply prefix_nil | done | done].
      * intros q n Hq Hne Hn. apply (Hanc (i :: q) n).
        -- by apply prefix_cons.
        -- congruence.
        -- simpl. by rewrite Hc.
Qed.

Lemma elem_of_visible_paths cs t p :
  p ∈ visible_paths cs t ↔ is_Some (node_at t p) ∧ ancestors_expanded cs t p.
Proof.
  unfold visible_paths. rewrite list_elem_of_filter, elem_of_all_paths. split.
  - intros [Hv Hs]. split; [done|]. by apply visibleb_spec.
  - intros [Hs Ha]. split; [|done]. by apply visibleb_spec.
Qed.

(** * Laid-out trees *)

Lemma flatten_unfold n : flatten n = n :: flat_map flatten (laidKids n).
Proof. destruct n as [? ? ? [c|ks] ? ? ? ? ?]; reflexivity. Qed.

Lemma forget_unfold n :
  forget n = mkTreeNode (p_id n) (p_label n) (p_type n)
               (match p_children n with
                | Untouched c => c
                | Mapped ks => Some (forget <$> ks)
                end).
Proof. destruct n as [? ? ? [c|ks] ? ? ? ? ?]; reflexivity. Qed.

Lemma Forall_flat_map {A B} (P : B → Prop) (f : A → list B) l :
  Forall P (flat_map f l) ↔ Forall (λ a, Forall P (f a)) l.
Proof.
  induction l as [|a l IH]; simpl.
  - split; constructor.
  - rewrite Forall_app, Forall_cons, IH. done.
Qed.

Lemma Forall_flatten (P : PNode → Prop) n :
  Forall P (flatten n) ↔ P n ∧ Forall (λ k, Forall P (flatten k)) (laidKids n).
Proof. by rewrite flatten_unfold, Forall_cons, Forall_flat_map. Qed.

Lemma mapThread_Forall {A B S} (f : A → S → B * S) (P : B → Prop) l :
  Forall (λ a, ∀ s, P (f a s).1) l → ∀ s, Forall P (mapThread f l s).1.
Proof.
  induction 1 as [|a l Ha _ IH]; intros s.
  - constructor.
  - rewrite mapThread_cons. simpl. constructor; [apply Ha | apply IH].
Qed.

Lemma mapThread_fmap {A B S} (f : A → S → B * S) (g : B → A) l :
  Forall (λ a, ∀ s, g (f a s).1 = a) l → ∀ s, g <$> (mapThread f l s).1 = l.
Proof.
  induction 1 as [|a l Ha _ IH]; intros s; [done|].
  rewrite mapThread_cons. csimpl. by rewrite Ha, IH.
Qed.

Lemma children_kids t : hasChildren t = true → children t = Some (kids t).
Proof. unfold hasChildren, kids. by destruct (children t) as [[|]|]. Qed.

Lemma assignCoords_forget cs t : ∀ d cur, forget (assignCoords cs t d cur).1 = t.
Proof.
  induction t as [i lbl ty ch IH] using TreeNode_nested_ind. intros d cur.
  destruct (visualLeaf cs (mkTreeNode i lbl ty ch)) eqn:Hleaf.
  - by rewrite assignCoords_leaf.
  - rewrite assignCoords_inner by done. cbn -[mapThread].
    apply visualLeaf_false in Hleaf as (_ & _ & Hk). apply children_kids in Hk.
    simpl in Hk. rewrite Hk. do 2 f_equal.
    apply (mapThread_fmap (λ c cur, assignCoords cs c (S d) cur) forget).
    unfold kids; simpl. eapply Forall_impl; [exact IH|]. simpl. auto.
Qed.

Lemma assignCoords_depth cs t d cur : depth (assignCoords cs t d cur).1 = d.
Proof.
  destruct (visualLeaf cs t) eqn:Hleaf.
  - by rewrite assignCoords_leaf.
  - by rewrite assignCoords_inner.
Qed.

Lemma assignCoords_ok cs t :
  ∀ d cur, Forall (node_ok cs) (flatten (assignCoords cs t d cur).1).
Proof.
  induction t as [i lbl ty ch IH] using TreeNode_nested_ind. intros d cur.
  pose proof (assignCoords_forget cs (mkTreeNode i lbl ty ch) d cur) as Hf.
  destruct (visualLeaf cs (mkTreeNode i lbl ty ch)) eqn:Hleaf.
  - rewrite assignCoords_leaf in * by done. simpl in *.
    constructor; [|constructor]. unfold node_ok; simpl. done.
  - rewrite assignCoords_inner in * by done. cbn -[mapThread] in *.
    set (r := mapThread _ _ _) in *.
    constructor.
    + unfold node_ok; cbn -[mapThread]. rewrite Hf.
      pose proof Hleaf as (Hc & _)%visualLeaf_false. simpl in Hc.
      rewrite bool_decide_eq_false_2 by done. repeat split; try done.
      apply (mapThread_Forall (λ c cur, assignCoords cs c (S d) cur)).
      apply Forall_forall. intros. apply assignCoords_depth.
    + apply Forall_flat_map.
      apply (mapThread_Forall (λ c cur, assignCoords cs c (S d) cur)).
      unfold kids; simpl. eapply Forall_impl; [exact IH|]. simpl. auto.
Qed.

Lemma kids_forget n : kids (forget n) = forget <$> laidKids n ∨ laidKids n = [].
Proof.
  destruct n as [? ? ? [c|ks] ? ? ? ? ?]; unfold kids, laidKids; simpl; auto.
Qed.

Lemma pnode_at_forget L p n :
  pnode_at L p = Some n → node_at (forget L) p = Some (forget n).
Proof.
  revert L. induction p as [|i p IH]; intros L; simpl.
  - by intros [= ->].
  - destruct (laidKids L !! i) as [k|] eqn:Hk; [simpl|done]. intros Hn.
    destruct (kids_forget L) as [-> | Hnil]; [|by rewrite Hnil in Hk].
    rewrite list_lookup_fmap, Hk. simpl. by apply IH.
Qed.

Lemma pnode_at_ok cs L p n :
  Forall (node_ok cs) (flatten L) → pnode_at L p = Some n →
  Forall (node_ok cs) (flatten n) ∧ depth n = (depth L + length p)%nat.
Proof.
  revert L. induction p as [|i p IH]; intros L HL; simpl.
  - intros [= ->]. split; [done | lia].
  - destruct (laidKids L !! i) as [k|] eqn:Hk; [simpl|done]. intros Hn.
    apply Forall_flatten in HL as [HokL Hks].
    apply (IH k) in Hn as [? ->].
    + split; [done|]. destruct HokL as (_ & _ & _ & HL).
      unfold laidKids in Hk. destruct (p_children L) as [c|ks]; [done|].
      destruct HL as (_ & _ & Hd). rewrite Forall_forall in Hd.
      rewrite (Hd k) by (by eapply list_elem_of_lookup_2). lia.
    + rewrite Forall_forall in Hks. apply Hks. by eapply list_elem_of_lookup_2.
Qed.

Lemma Forall2_flatMapi_flat_map {A B C} (R : B → C → Prop)
    (f : nat → A → list B) (g : A → list C) k l :
  (∀ i a, l !! i = Some a → Forall2 R (f (k + i)%nat a) (g a)) →
  Forall2 R (flatMapi f k l) (flat_map g l).
Proof.
  revert k. induction l as [|a l IH]; intros k H; [constructor|].
  rewrite flatMapi_cons. simpl. apply Forall2_app.
  - specialize (H 0%nat a eq_refl). by rewrite Nat.add_0_r in H.
  - apply IH. intros i a' Hi. specialize (H (S i) a' Hi).
    by replace (S k + i)%nat with (k + S i)%nat by lia.
Qed.

Lemma flatMapi_fmap {A A' B} (h : A → A') (f : nat → A' → list B) k l :
  flatMapi f k (h <$> l) = flatMapi (λ i a, f i (h a)) k l.
Proof.
  revert k. induction l as [|a l IH]; intros k; [done|].
  by rewrite fmap_cons, !flatMapi_cons, IH.
Qed.

(** The pre-order listing of a laid-out tree runs through the visible
    positions of the tree it was made from. *)
Lemma flatten_positions cs L :
  Forall (node_ok cs) (flatten L) →
  Forall2 (λ p n, pnode_at L p = Some n) (visible_paths cs (forget L)) (flatten L).
Proof.
  induction L as [L IH] using PNode_nested_ind. intros Hok.
  apply Forall_flatten in Hok as [(_ & _ & _ & HL) Hks].
  rewrite visible_paths_unfold, flatten_unfold. constructor; [done|].
  unfold laidKids in *. destruct (kids_forget L) as [Hkids | Hnil].
  - destruct (p_children L) as [c|ks] eqn:Hch.
    + rewrite HL. constructor.
    + destruct HL as (-> & _). unfold laidKids in Hkids. rewrite Hch in Hkids.
      rewrite Hkids, flatMapi_fmap.
      apply Forall2_flatMapi_flat_map. intros i k Hi. simpl.
      rewrite Forall_forall in IH, Hks.
      assert (k ∈ ks) as Hin by (by eapply list_elem_of_lookup_2).
      specialize (IH k Hin (Hks k Hin)).
      apply Forall2_fmap_l. eapply Forall2_impl; [exact IH|].
      intros p n Hp. simpl. unfold laidKids. rewrite Hch, Hi. done.
  - unfold laidKids in Hnil. destruct (p_children L) as [c|ks] eqn:Hch.
    + rewrite HL. constructor.
    + subst ks. destruct HL as (Hleaf & _).
      apply visualLeaf_false in Hleaf as (_ & Hk & _).
      rewrite forget_unfold, Hch in Hk. done.
Qed.

(** * [collect] *)

Lemma edgesOf_unfold n :
  edgesOf n = flat_map (λ k, edgeTo n k :: edgesOf k) (laidKids n).
Proof. destruct n as [? ? ? [c|ks] ? ? ? ? ?]; reflexivity. Qed.

Lemma node_ok_mapped_expanded cs n : node_ok cs n → mapped_expanded n.
Proof.
  unfold node_ok, mapped_expanded. intros (Hc & _ & _ & H).
  destruct (p_children n) as [c|ks] eqn:Hch; [done|]. destruct H as (Hleaf & _).
  apply visualLeaf_false in Hleaf as (Hid & _).
  rewrite forget_unfold in Hid. simpl in Hid.
  by rewrite Hc, bool_decide_eq_false_2.
Qed.

Lemma forEachChild_spec visit node ks :
  Forall (λ k, visit k = (sized k, (flatten (sized k), edgesOf k))) ks →
  forEachChild visit node ks =
    (sized <$> ks,
     (flat_map flatten (sized <$> ks),
      flat_map (λ k, edgeTo node k :: edgesOf k) ks)).
Proof.
  induction 1 as [|k ks Hk _ IH]; [done|].
  simpl. rewrite Hk, IH. reflexivity.
Qed.

Lemma collect_spec L :
  Forall mapped_expanded (flatten L) →
  collect L = (sized L, (flatten (sized L), edgesOf L)).
Proof.
  induction L as [L IH] using PNode_nested_ind. intros Hok.
  apply Forall_flatten in Hok as [HL Hks].
  assert (Forall (λ k, collect k = (sized k, (flatten (sized k), edgesOf k)))
            (laidKids L)) as Hvisit.
  { rewrite Forall_forall in IH, Hks |- *. auto. }
  destruct L as [i lbl ty [c|ks] d col px py hw];
    unfold mapped_expanded, laidKids in *; simpl in *.
  - by destruct col.
  - subst col. by rewrite (forEachChild_spec _ _ _ Hvisit).
Qed.

Lemma flatten_sized n : flatten (sized n) = sized <$> flatten n.
Proof.
  induction n as [n IH] using PNode_nested_ind.
  destruct n as [i lbl ty [c|ks] d col px py hw]; unfold laidKids in IH;
    simpl in *; [done|].
  f_equal. induction IH as [|k ks Hk _ IHks]; [done|].
  csimpl. by rewrite fmap_app, Hk, IHks.
Qed.

Lemma laidKids_sized n : laidKids (sized n) = sized <$> laidKids n.
Proof. by destruct n as [? ? ? [c|ks] ? ? ? ? ?]. Qed.

Lemma forget_sized n : forget (sized n) = forget n.
Proof.
  induction n as [n IH] using PNode_nested_ind.
  destruct n as [i lbl ty [c|ks] d col px py hw]; unfold laidKids in IH;
    simpl in *; [done|].
  do 2 f_equal. induction IH as [|k ks Hk _ IHks]; [done|].
  csimpl. by rewrite Hk, IHks.
Qed.

Lemma edgeTo_sized n k : edgeTo (sized n) (sized k) = edgeTo n k.
Proof. by destruct n, k. Qed.

Lemma flat_map_cons_perm {A B} (e : A → B) (E : A → list B) l :
  flat_map (λ a, e a :: E a) l ≡ₚ (e <$> l) ++ flat_map E l.
Proof.
  induction l as [|a l IH]; [done|].
  csimpl. rewrite IH. apply Permutation_skip.
  rewrite !(assoc (++)). apply Permutation_app; [|done].
  by rewrite Permutation_app_comm.
Qed.

Lemma flat_map_flat_map {A B C} (f : A → list B) (g : B → list C) l :
  flat_map g (flat_map f l) = flat_map (λ a, flat_map g (f a)) l.
Proof.
  induction l as [|a l IH]; [done|]. simpl. by rewrite flat_map_app, IH.
Qed.

Lemma flat_map_perm_ext {A B} (f g : A → list B) l :
  Forall (λ a, f a ≡ₚ g a) l → flat_map f l ≡ₚ flat_map g l.
Proof.
  induction 1 as [|a l Ha _ IH]; [done|]. simpl. by rewrite Ha, IH.
Qed.

(** One edge for each pair of a listed node and one of its processed
    children. *)
Lemma edgesOf_perm L :
  edgesOf L ≡ₚ flat_map (λ n, edgeTo n <$> laidKids n) (flatten L).
Proof.
  induction L as [L IH] using PNode_nested_ind.
  rewrite edgesOf_unfold, flatten_unfold. simpl.
  rewrite flat_map_cons_perm. apply Permutation_app; [done|].
  rewrite flat_map_flat_map. by apply flat_map_perm_ext.
Qed.

(** * The slot counter *)

Lemma slots_from_app cs cur l1 cur1 l2 cur2 :
  slots_from cs cur l1 cur1 → slots_from cs cur1 l2 cur2 →
  slots_from cs cur (l1 ++ l2) cur2.
Proof.
  intros [H1 ->] [H2 ->]. unfold slots_from.
  rewrite filter_app, fmap_app, length_app, seq_app, fmap_app, H1, H2.
  split; [done | lia].
Qed.

Lemma mapThread_slots cs (f : TreeNode → nat → PNode * nat) l :
  Forall (λ c, ∀ cur, slots_from cs cur (flatten (f c cur).1) (f c cur).2) l →
  ∀ cur, slots_from cs cur (flat_map flatten (mapThread f l cur).1)
           (mapThread f l cur).2.
Proof.
  induction 1 as [|c l Hc _ IH]; intros cur.
  - simpl. split; [done | simpl; lia].
  - rewrite mapThread_cons. simpl. eapply slots_from_app; [apply Hc | apply IH].
Qed.

Lemma assignCoords_slots cs t :
  ∀ d cur, slots_from cs cur (flatten (assignCoords cs t d cur).1)
             (assignCoords cs t d cur).2.
Proof.
  induction t as [i lbl ty ch IH] using TreeNode_nested_ind. intros d cur.
  pose proof (assignCoords_forget cs (mkTreeNode i lbl ty ch) d cur) as Hf.
  destruct (visualLeaf cs (mkTreeNode i lbl ty ch)) eqn:Hleaf.
  - rewrite assignCoords_leaf in * by done. simpl in *. unfold slots_from.
    rewrite filter_cons_True by exact Hleaf.
    simpl. split; [done | lia].
  - assert (¬ leafP cs (assignCoords cs (mkTreeNode i lbl ty ch) d cur).1) as Hnl.
    { unfold leafP. by rewrite Hf, Hleaf. }
    rewrite assignCoords_inner in * by done. cbn -[mapThread] in *.
    set (r := mapThread _ _ _) in *.
    pose proof (mapThread_slots cs (λ c cur, assignCoords cs c (S d) cur)
                  (kids (mkTreeNode i lbl ty ch))) as Hs.
    destruct (Hs (Forall_impl _ _ _ IH (λ c H, H (S d))) cur) as [H1 H2].
    fold r in H1, H2. unfold slots_from.
    by rewrite filter_cons_False.
Qed.

Lemma filter_fmap {A B} (P : B → Prop) `{∀ x, Decision (P x)} (f : A → B)
    (l : list A) :
  filter P (f <$> l) = f <$> filter (λ a, P (f a)) l.
Proof.
  induction l as [|a l IH]; [done|].
  csimpl. rewrite !filter_cons, IH. by destruct (decide (P (f a))).
Qed.

(** The [k]-th element that satisfies [P] holds the [k]-th value. *)
Lemma filtered_index {A B} (P : A → Prop) `{∀ x, Decision (P x)}
    (g : A → B) (h : nat → B) (l : list A) :
  g <$> filter P l = h <$> seq 0 (length (filter P l)) →
  ∀ i a, l !! i = Some a → P a → g a = h (length (filter P (take i l))).
Proof.
  intros Heq i a Hi Ha.
  assert ((g <$> filter P l) !! length (filter P (take i l)) = Some (g a)) as Hl.
  { assert (filter P l = filter P (take i l) ++ a :: filter P (drop (S i) l))
      as ->.
    { rewrite <-(filter_cons_True P a) by done.
      by rewrite <-filter_app, take_drop_middle. }
    rewrite list_lookup_fmap, lookup_app_r by lia.
    by rewrite Nat.sub_diag. }
  rewrite Heq, list_lookup_fmap in Hl.
  destruct (seq 0 _ !! _) as [k|] eqn:Hk; [|done].
  apply lookup_seq in Hk as [-> _]. simpl in Hl. by simplify_eq.
Qed.

(** * The layout as a whole *)

Lemma calculateLayout_object cs t :
  calculateLayout (JsObject t) cs = Return (layoutOf (assignCoords cs t 0 0).1).
Proof.
  unfold calculateLayout.
  pose proof (assignCoords_ok cs t 0 0) as Hok.
  destruct (assignCoords cs t 0 0) as [L cur]. simpl in *.
  rewrite collect_spec, flatten_sized; [done|].
  eapply Forall_impl; [exact Hok|]. apply node_ok_mapped_expanded.
Qed.

Lemma pnode_at_sized L p n :
  pnode_at L p = Some n → pnode_at (sized L) p = Some (sized n).
Proof.
  revert L. induction p as [|i p IH]; intros L; simpl.
  - by intros [= ->].
  - rewrite laidKids_sized, list_lookup_fmap.
    destruct (laidKids L !! i) as [k|]; [simpl|done]. apply IH.
Qed.

Lemma elem_of_flatten_kids L n k :
  n ∈ flatten L → k ∈ laidKids n → k ∈ flatten L.
Proof.
  induction L as [L IH] using PNode_nested_ind. intros Hn Hk.
  rewrite flatten_unfold in Hn |- *. apply elem_of_cons in Hn as [-> | Hn].
  - right. apply list_elem_of_In, in_flat_map. exists k.
    split; [by apply list_elem_of_In|]. rewrite flatten_unfold. by left.
  - right. apply list_elem_of_In, in_flat_map in Hn as (c & Hc & Hn).
    apply list_elem_of_In, in_flat_map. exists c. split; [done|].
    apply list_elem_of_In. rewrite Forall_forall in IH.
    apply IH; [by apply list_elem_of_In | by apply list_elem_of_In | done].
Qed.

Lemma sized_fields n :
  p_id (sized n) = p_id n ∧ p_label (sized n) = p_label n ∧
  p_type (sized n) = p_type n ∧ depth (sized n) = depth n ∧
  isCollapsed (sized n) = isCollapsed n ∧ p_x (sized n) = p_x n ∧
  p_y (sized n) = p_y n ∧
  halfWidth (sized n) = Some (calculatedWidth (p_label n) (p_type n) / Q2Qc 2)%Qc.
Proof. by destruct n. Qed.

(** The listed nodes, position by position. *)
Lemma layout_positions cs t :
  let L := (assignCoords cs t 0 0).1 in
  Forall2 (λ p n, pnode_at (sized L) p = Some n ∧
                  node_at t p = Some (forget n) ∧
                  depth n = length p)
    (visible_paths cs t) (sized <$> flatten L).
Proof.
  intros L. pose proof (assignCoords_ok cs t 0 0) as Hok. fold L in Hok.
  pose proof (flatten_positions cs L Hok) as Hpos.
  assert (forget L = t) as Hf by apply assignCoords_forget.
  rewrite Hf in Hpos.
  apply Forall2_fmap_r. eapply Forall2_impl; [exact Hpos|].
  intros p n Hp. simpl. split; [by apply pnode_at_sized|].
  rewrite forget_sized. destruct (sized_fields n) as (_ & _ & _ & -> & _).
  split.
  - rewrite <-Hf. by apply pnode_at_forget.
  - destruct (pnode_at_ok cs L p n Hok Hp) as [_ ->].
    unfold L. by rewrite assignCoords_depth.
Qed.

Lemma pnode_at_snoc L p k :
  pnode_at L (p ++ [k]) = pnode_at L p ≫= λ n, laidKids n !! k.
Proof.
  revert L. induction p as [|i p IH]; intros L; simpl.
  - by destruct (laidKids L !! k).
  - destruct (laidKids L !! i) as [c|]; simpl; [apply IH | done].
Qed.

Lemma ancestors_expanded_prefix cs t p q :
  p `prefix_of` q → ancestors_expanded cs t q → ancestors_expanded cs t p.
Proof.
  intros Hpq Hq s n Hs Hne Hn. apply (Hq s n); [by etrans| |done].
  intros ->. apply Hne. by apply (anti_symm prefix).
Qed.

(** * Properties of the layout *)

(** C2 (visibility invariant).  The layout of a tree [t] returns, and its
    node list is in one-to-one correspondence with the positions of [t]
    listed by [visible_paths cs t]: the node listed for position [p] is the
    tree node at [p] (with positioning fields added) at depth [length p].
    No position is listed twice, and a position is listed if and only if it
    is reachable from the root and each of its strict ancestors is outside
    the collapsed set.  So a node below a collapsed ancestor yields no
    positioned node, and every other node yields exactly one. *)
Theorem layout_visibility (t : TreeNode) (cs : gset string) :
  ∃ r, calculateLayout (JsObject t) cs = Return r ∧
       Forall2 (λ p n, node_at t p = Some (forget n) ∧ depth n = length p)
         (visible_paths cs t) (nodes r) ∧
       NoDup (visible_paths cs t) ∧
       ∀ p, p ∈ visible_paths cs t ↔
            is_Some (node_at t p) ∧ ancestors_expanded cs t p.
Proof.
  eexists. split; [apply calculateLayout_object|]. simpl. split; [|split].
  - eapply Forall2_impl; [apply layout_positions|]. simpl. tauto.
  - apply visible_paths_NoDup.
  - apply elem_of_visible_paths.
Qed.

(** C10 (output order).  The node list is the depth-first pre-order of the
    visible tree: the first node is the root; the positions of the listed
    nodes are strictly increasing for the pre-order [before], so a position
    is listed before every visible position below it; and every listed node
    but the first is a processed child of a node listed earlier. *)
Theorem layout_preorder (t : TreeNode) (cs : gset string) :
  ∃ r, calculateLayout (JsObject t) cs = Return r ∧
       Forall2 (λ p n, node_at t p = Some (forget n) ∧ depth n = length p)
         (visible_paths cs t) (nodes r) ∧
       (∃ n, head (nodes r) = Some n ∧ forget n = t ∧ depth n = 0%nat) ∧
       head (visible_paths cs t) = Some [] ∧
       StronglySorted before (visible_paths cs t) ∧
       (∀ i j p q, visible_paths cs t !! i = Some p →
                   visible_paths cs t !! j = Some q →
                   p `prefix_of` q → p ≠ q → (i < j)%nat) ∧
       (∀ j m, nodes r !! j = Some m → j ≠ 0%nat →
               ∃ i n, (i < j)%nat ∧ nodes r !! i = Some n ∧ m ∈ laidKids n).
Proof.
  eexists. split; [apply calculateLayout_object|]. simpl.
  pose proof (layout_positions cs t) as Hpos. simpl in Hpos.
  set (L := (assignCoords cs t 0 0).1) in *.
  assert (∀ i j p q, visible_paths cs t !! i = Some p →
                     visible_paths cs t !! j = Some q →
                     p `prefix_of` q → p ≠ q → (i < j)%nat) as Hord.
  { intros i j p q Hi Hj Hpre Hne.
    eapply (sorted_lookup_lt before); eauto using before_irrefl, before_trans,
      visible_paths_sorted, before_strict_prefix. }
  split; [|split; [|split; [|split; [|split]]]].
  - eapply Forall2_impl; [exact Hpos|]. simpl. tauto.
  - exists (sized L). rewrite flatten_unfold, forget_sized. simpl.
    split; [done|]. split; [apply assignCoords_forget|].
    destruct (sized_fields L) as (_ & _ & _ & -> & _). apply assignCoords_depth.
  - by rewrite visible_paths_unfold.
  - apply visible_paths_sorted.
  - exact Hord.
  - intros j m Hj Hj0.
    destruct (Forall2_lookup_r _ _ _ _ _ Hpos Hj) as (q & Hq & Hm & _).
    destruct (decide (q = [])) as [-> | Hne].
    { exfalso. apply Hj0. eapply NoDup_lookup; [apply visible_paths_NoDup|exact Hq|].
      by rewrite visible_paths_unfold. }
    destruct (exists_last Hne) as (p & k & ->).
    rewrite pnode_at_snoc in Hm.
    destruct (pnode_at (sized L) p) as [n|] eqn:Hn; [simpl in Hm|done].
    assert (p ∈ visible_paths cs t) as Hp.
    { apply elem_of_visible_paths. split.
      - apply pnode_at_forget in Hn.
        rewrite forget_sized in Hn. unfold L in Hn.
        rewrite assignCoords_forget in Hn. by rewrite Hn.
      - apply (ancestors_expanded_prefix cs t p (p ++ [k])); [by apply prefix_app_r|].
        apply (elem_of_visible_paths cs t (p ++ [k])).
        by eapply list_elem_of_lookup_2. }
    apply list_elem_of_lookup in Hp as [i Hi].
    destruct (Forall2_lookup_l _ _ _ _ _ Hpos Hi) as (n' & Hn' & Hpn & _).
    exists i, n'. split; [|split; [done|]].
    + apply (Hord i j p (p ++ [k])); [done | done | by apply prefix_app_r|].
      intros Heq. apply (f_equal length) in Heq. rewrite length_app in Heq.
      simpl in Heq. lia.
    + rewrite Hn in Hpn. simplify_eq. by eapply list_elem_of_lookup_2.
Qed.

Lemma head_last_fmap_sized ks :
  firstY (sized <$> ks) = firstY ks ∧ lastY (sized <$> ks) = lastY ks.
Proof.
  unfold firstY, lastY. rewrite fmap_last.
  destruct ks as [|k ks]; [done|]. simpl. split.
  - by destruct k.
  - destruct (last (k :: ks)) as [l|]; [|done]. by destruct l.
Qed.

(** C1 (coordinate assignment).  The layout returns a node list in which
    - the node listed for a visible position [p] has [depth = length p] and
      [x = depth * 300 + 100];
    - the visual leaves (collapsed or childless nodes), taken in listing
      order, have [y = k * 80 + 50] for [k = 0, 1, 2, ...]: one slot each,
      counted from 0 in depth-first left-to-right order;
    - every other listed node has a non-empty array of processed children,
      one per child of the tree node and each listed too, and its [y] is
      the mean of the [y] of the first and of the last of them. *)
Theorem layout_coordinates (t : TreeNode) (cs : gset string) :
  ∃ r, calculateLayout (JsObject t) cs = Return r ∧
       Forall2 (λ p n, node_at t p = Some (forget n) ∧ depth n = length p ∧
                       p_x n = (num_of_nat (length p) * Q2Qc 300 + Q2Qc 100)%Qc)
         (visible_paths cs t) (nodes r) ∧
       (let leaves := filter (λ n, visualLeaf cs (forget n) = true) (nodes r) in
        p_y <$> leaves =
          (λ k, (num_of_nat k * Q2Qc 80 + Q2Qc 50)%Qc) <$> seq 0 (length leaves)) ∧
       Forall (λ n, visualLeaf cs (forget n) = true ∨
                    ∃ ks firstChild lastChild,
                      p_children n = Mapped ks ∧
                      forget <$> ks = kids (forget n) ∧
                      ks ⊆ nodes r ∧
                      head ks = Some firstChild ∧ last ks = Some lastChild ∧
                      p_y n = ((p_y firstChild + p_y lastChild) / Q2Qc 2)%Qc)
         (nodes r).
Proof.
  eexists. split; [apply calculateLayout_object|]. simpl.
  pose proof (layout_positions cs t) as Hpos. simpl in Hpos.
  pose proof (assignCoords_ok cs t 0 0) as Hok.
  pose proof (assignCoords_slots cs t 0 0) as [Hslots _].
  set (L := (assignCoords cs t 0 0).1) in *.
  split; [|split].
  - apply Forall2_fmap_r. apply Forall2_fmap_r in Hpos.
    apply Forall2_same_length_lookup. split; [by eapply Forall2_length|].
    intros i p n Hp Hn.
    destruct (Forall2_lookup_lr _ _ _ _ _ _ Hpos Hp Hn) as (_ & Hnode & Hd).
    split; [done|]. split; [done|].
    destruct (sized_fields n) as (_ & _ & _ & Hd' & _ & -> & _).
    rewrite Forall_forall in Hok.
    destruct (Hok n) as (_ & -> & _); [by eapply list_elem_of_lookup_2|].
    by rewrite <-Hd', Hd.
  - rewrite (filter_fmap _ sized), <-list_fmap_compose.
    rewrite length_fmap.
    erewrite (list_filter_iff _ (leafP cs)); last first.
    { intros n. unfold leafP. by rewrite forget_sized. }
    change (λ k, (num_of_nat k * Q2Qc 80 + Q2Qc 50)%Qc) with slotY.
    rewrite <-Hslots. apply list_fmap_ext. intros _ n _.
    simpl. by destruct n.
  - apply Forall_fmap, Forall_forall. intros n Hn. simpl.
    rewrite forget_sized.
    rewrite Forall_forall in Hok. destruct (Hok n Hn) as (_ & _ & _ & Hch).
    pose proof (kids_forget n) as Hkids. unfold laidKids in Hkids.
    destruct n as [i lbl ty [c|ks] d col px py hw]; simpl in *; [by left|].
    right. destruct Hch as (Hleaf & Hy & _).
    destruct Hkids as [Hkids | ->].
    2:{ apply visualLeaf_false in Hleaf as (_ & Hk & _). done. }
    destruct ks as [|k ks]; [by apply visualLeaf_false in Hleaf as (_ & ? & _)|].
    destruct (last (k :: ks)) as [lk|] eqn:Hlast;
      [|by apply last_None in Hlast].
    exists (sized <$> k :: ks), (sized k), (sized lk).
    split; [done|]. split.
    { rewrite <-list_fmap_compose, Hkids. apply list_fmap_ext.
      intros _ ? _. apply forget_sized. }
    split.
    { intros m (m' & -> & Hm')%list_elem_of_fmap. apply list_elem_of_fmap.
      exists m'. split; [done|]. by eapply elem_of_flatten_kids. }
    split; [done|]. split; [by rewrite fmap_last, Hlast|].
    rewrite Hy. unfold firstY, lastY. rewrite Hlast. simpl.
    by destruct k, lk.
Qed.

Lemma flat_map_fmap {A B C} (f : B → list C) (g : A → B) (l : list A) :
  flat_map f (g <$> l) = flat_map (λ a, f (g a)) l.
Proof. induction l as [|a l IH]; [done|]. csimpl. by rewrite IH. Qed.

Lemma edgesOf_length L : S (length (edgesOf L)) = length (flatten L).
Proof.
  induction L as [L IH] using PNode_nested_ind.
  rewrite edgesOf_unfold, flatten_unfold. simpl. f_equal.
  induction IH as [|k ks Hk _ IHks]; [done|].
  simpl. rewrite !length_app, <-Hk, IHks. done.
Qed.

Lemma forget_id n : id (forget n) = p_id n.
Proof. by destruct n. Qed.

Lemma node_at_snoc t p k :
  node_at t (p ++ [k]) = node_at t p ≫= λ n, kids n !! k.
Proof.
  revert t. induction p as [|i p IH]; intros t; simpl.
  - by destruct (kids t !! k).
  - destruct (kids t !! i) as [c|]; simpl; [apply IH | done].
Qed.

Lemma prefix_snoc_strict {A} (q p : list A) k :
  q `prefix_of` p ++ [k] → q ≠ p ++ [k] → q `prefix_of` p.
Proof.
  intros [r Hr] Hne. destruct r as [|x r _] using rev_ind.
  - rewrite app_nil_r in Hr. by subst.
  - rewrite (assoc (++)) in Hr. apply app_inj_tail in Hr as [-> _].
    by exists r.
Qed.

Lemma visible_child s t q c k c' :
  node_at t q = Some c → q ∈ visible_paths s t → (id c ∉ s) →
  kids c !! k = Some c' → q ++ [k] ∈ visible_paths s t.
Proof.
  intros Hc Hq Hnin Hk. apply elem_of_visible_paths. split.
  - rewrite node_at_snoc, Hc. simpl. by rewrite Hk.
  - apply elem_of_visible_paths in Hq as [_ Hanc].
    intros q' n Hq' Hne Hn. apply prefix_snoc_strict in Hq'; [|done].
    destruct (decide (q' = q)) as [->|Hqq]; [congruence|].
    by apply (Hanc q' n).
Qed.

(** What the layout establishes at every node it lists. *)
Lemma listed_node cs t n :
  n ∈ nodes (layoutOf (assignCoords cs t 0 0).1) →
  isCollapsed n = bool_decide (p_id n ∈ cs) ∧
  forget <$> laidKids n = (if isCollapsed n then [] else kids (forget n)) ∧
  laidKids n ⊆ nodes (layoutOf (assignCoords cs t 0 0).1) ∧
  ∃ p, node_at t p = Some (forget n).
Proof.
  simpl. set (L := (assignCoords cs t 0 0).1).
  pose proof (assignCoords_ok cs t 0 0) as Hok. fold L in Hok.
  intros Hin.
  assert (∃ p, node_at t p = Some (forget n)) as Hpos.
  { apply list_elem_of_lookup_1 in Hin as (i & Hi).
    destruct (Forall2_lookup_r _ _ _ _ _ (layout_positions cs t) Hi)
      as (p & _ & _ & ? & _). by exists p. }
  apply list_elem_of_fmap in Hin as (m & -> & Hm).
  rewrite Forall_forall in Hok. destruct (Hok m Hm) as (Hc & _ & _ & Hch).
  rewrite laidKids_sized, <-list_fmap_compose.
  destruct (sized_fields m) as (Hid & _ & _ & _ & Hcol & _ & _ & _).
  rewrite Hid, Hcol. split; [done|]. rewrite forget_sized in Hpos |- *.
  split; [|split; [|done]].
  - rewrite (list_fmap_ext (forget ∘ sized) forget (laidKids m))
      by (intros; apply forget_sized).
    pose proof (kids_forget m) as Hkids. unfold laidKids in *.
    destruct (p_children m) as [c|ks] eqn:Hchn.
    + simpl. destruct (isCollapsed m) eqn:Hcm; [done|].
      unfold visualLeaf in Hch. rewrite forget_id, <-Hc in Hch. simpl in Hch.
      apply negb_true_iff in Hch.
      unfold hasChildren, kids in *. by destruct (children (forget m)) as [[|]|].
    + destruct Hch as (Hleaf & _). apply visualLeaf_false in Hleaf as (Hi & Hk & _).
      rewrite forget_id in Hi.
      rewrite Hc, bool_decide_eq_false_2 by done.
      destruct Hkids as [-> | ->]; [done|].
      rewrite forget_unfold, Hchn in Hk. done.
  - intros k (k' & -> & Hk')%list_elem_of_fmap. apply list_elem_of_fmap.
    exists k'. split; [done|]. by eapply elem_of_flatten_kids.
Qed.

(** The nodes listed are the nodes at the visible positions, and the
    processed children of the node listed at position [p] are, index by
    index, the nodes listed at the positions [p ++ [k]]. *)
Lemma listed_children cs t :
  Forall2 (λ p n,
    node_at t p = Some (forget n) ∧ depth n = length p ∧
    isCollapsed n = bool_decide (id (forget n) ∈ cs) ∧
    forget <$> laidKids n =
      (if bool_decide (id (forget n) ∈ cs) then [] else kids (forget n)) ∧
    ∀ k c, laidKids n !! k = Some c →
           ∃ j, visible_paths cs t !! j = Some (p ++ [k]) ∧
                nodes (layoutOf (assignCoords cs t 0 0).1) !! j = Some c)
    (visible_paths cs t) (nodes (layoutOf (assignCoords cs t 0 0).1)).
Proof.
  pose proof (layout_positions cs t) as Hpos. cbv zeta in Hpos.
  change (sized <$> flatten (assignCoords cs t 0 0).1)
    with (nodes (layoutOf (assignCoords cs t 0 0).1)) in Hpos.
  apply Forall2_same_length_lookup. split; [by eapply Forall2_length|].
  intros i p n Hp Hn.
  destruct (Forall2_lookup_lr _ _ _ _ _ _ Hpos Hp Hn) as (Hat & Hnode & Hd).
  destruct (listed_node cs t n (list_elem_of_lookup_2 _ _ _ Hn))
    as (Hcol & Hkids & _ & _).
  rewrite forget_id, <-Hcol.
  split; [done|]. split; [done|]. split; [done|]. split; [done|].
  intros k c Hk.
  assert (isCollapsed n = false) as Hexp.
  { destruct (isCollapsed n); [|done].
    apply fmap_nil_inv in Hkids. by rewrite Hkids in Hk. }
  rewrite Hexp in Hcol, Hkids. symmetry in Hcol.
  apply bool_decide_eq_false in Hcol. rewrite <-forget_id in Hcol.
  assert (kids (forget n) !! k = Some (forget c)) as Hkc.
  { by rewrite <-Hkids, list_lookup_fmap, Hk. }
  assert (p ++ [k] ∈ visible_paths cs t) as Hvis.
  { eapply visible_child; [exact Hnode | by eapply list_elem_of_lookup_2 | done..]. }
  apply list_elem_of_lookup_1 in Hvis as (j & Hj). exists j. split; [done|].
  destruct (Forall2_lookup_l _ _ _ _ _ Hpos Hj) as (m & Hm & Hatm & _).
  rewrite Hm. f_equal. rewrite pnode_at_snoc, Hat in Hatm. simpl in Hatm. congruence.
Qed.

Lemma length_flat_map {A B} (f : A → list B) (l : list A) :
  length (flat_map f l) = sum_list ((λ a, length (f a)) <$> l).
Proof.
  induction l as [|a l IH]; [done|]. csimpl. by rewrite length_app, IH.
Qed.

Lemma Forall2_fmap_eq {A B C} (g : A → C) (h : B → C) (l : list A) (k : list B) :
  Forall2 (λ a b, g a = h b) l k → g <$> l = h <$> k.
Proof. induction 1 as [|a b l k Hab _ IH]; [done|]. csimpl. by rewrite Hab, IH. Qed.

(** C4 (edges).  The listed nodes are the nodes at the visible positions of
    the tree, and the processed children of the node listed at position [p]
    are, index by index, the nodes listed at the positions [p ++ [k]]: they
    are the children of the tree node at [p] when that node is not
    collapsed, and there are none when it is.  The layout returns an edge
    list that is, up to order, the list of one edge for every pair of a
    listed node and one of its processed children, from
    [(parent.x + w(parent)/2, parent.y)] to [(child.x - w(child)/2, child.y)]
    with [w] the width computed from the node's own label and type.  A
    listed node has its [halfWidth] set to half that width.  Hence there is
    exactly one edge per listed node other than the root, and the number
    of edges is the number of children of the tree nodes at the visible
    positions that are not collapsed. *)
Theorem layout_edges (t : TreeNode) (cs : gset string) :
  ∃ r, calculateLayout (JsObject t) cs = Return r ∧
       Forall2 (λ p n,
         ∃ c, node_at t p = Some c ∧ forget n = c ∧ depth n = length p ∧
              isCollapsed n = bool_decide (id c ∈ cs) ∧
              forget <$> laidKids n =
                (if bool_decide (id c ∈ cs) then [] else kids c) ∧
              ∀ k child, laidKids n !! k = Some child →
                         ∃ j, visible_paths cs t !! j = Some (p ++ [k]) ∧
                              nodes r !! j = Some child)
         (visible_paths cs t) (nodes r) ∧
       edges r ≡ₚ
         flat_map
           (λ n, (λ k, mkEdge
                         (p_x n + calculatedWidth (p_label n) (p_type n) / Q2Qc 2)%Qc
                         (p_y n)
                         (p_x k - calculatedWidth (p_label k) (p_type k) / Q2Qc 2)%Qc
                         (p_y k)) <$> laidKids n)
           (nodes r) ∧
       Forall (λ n, halfWidth n =
                      Some (calculatedWidth (p_label n) (p_type n) / Q2Qc 2)%Qc ∧
                    isCollapsed n = bool_decide (p_id n ∈ cs) ∧
                    laidKids n ⊆ nodes r ∧
                    forget <$> laidKids n =
                      (if isCollapsed n then [] else kids (forget n)))
         (nodes r) ∧
       S (length (edges r)) = length (nodes r) ∧
       length (edges r) =
         sum_list ((λ p, match node_at t p with
                         | Some c => if bool_decide (id c ∈ cs) then 0%nat
                                     else length (kids c)
                         | None => 0%nat
                         end) <$> visible_paths cs t).
Proof.
  eexists. split; [apply calculateLayout_object|].
  split.
  { eapply Forall2_impl; [apply listed_children|].
    intros p n (Hat & Hd & Hcol & Hkids & Hpos). by exists (forget n). }
  assert (edges (layoutOf (assignCoords cs t 0 0).1) ≡ₚ
          flat_map (λ n, edgeTo n <$> laidKids n)
            (nodes (layoutOf (assignCoords cs t 0 0).1))) as Hperm.
  { simpl. rewrite edgesOf_perm, flat_map_fmap. apply reflexive_eq.
    apply flat_map_ext. intros n. rewrite laidKids_sized, <-list_fmap_compose.
    apply list_fmap_ext. intros _ k _. simpl. by rewrite edgeTo_sized. }
  assert (length (edges (layoutOf (assignCoords cs t 0 0).1)) =
          sum_list ((λ p, match node_at t p with
                          | Some c => if bool_decide (id c ∈ cs) then 0%nat
                                      else length (kids c)
                          | None => 0%nat
                          end) <$> visible_paths cs t)) as Hcount.
  { rewrite Hperm, length_flat_map. f_equal. symmetry.
    apply Forall2_fmap_eq.
    eapply Forall2_impl; [apply listed_children|].
    intros p n (Hat & _ & _ & Hkids & _). simpl. rewrite Hat, length_fmap.
    apply (f_equal length) in Hkids. rewrite length_fmap in Hkids.
    rewrite Hkids. by destruct (bool_decide _). }
  clear Hperm.
  split; [|split; [|split; [|exact Hcount]]]; clear Hcount; simpl;
    pose proof (assignCoords_ok cs t 0 0) as Hok;
    set (L := (assignCoords cs t 0 0).1) in *.
  - rewrite edgesOf_perm, flat_map_fmap.
    apply reflexive_eq.
    apply flat_map_ext. intros n. rewrite laidKids_sized, <-list_fmap_compose.
    apply list_fmap_ext. intros _ k _. simpl. by destruct n, k.
  - apply Forall_fmap, Forall_forall. intros n Hn. simpl.
    rewrite Forall_forall in Hok. destruct (Hok n Hn) as (Hc & _ & _ & Hch).
    rewrite laidKids_sized, forget_sized, <-list_fmap_compose.
    destruct (sized_fields n) as (-> & -> & -> & _ & -> & _ & _ & ->).
    split; [done|]. split; [done|]. split.
    { intros m (m' & -> & Hm')%list_elem_of_fmap. apply list_elem_of_fmap.
      exists m'. split; [done|]. by eapply elem_of_flatten_kids. }
    rewrite (list_fmap_ext (forget ∘ sized) forget (laidKids n))
      by (intros; apply forget_sized).
    pose proof (kids_forget n) as Hkids. unfold laidKids in *.
    destruct (p_children n) as [c|ks] eqn:Hchn.
    + simpl. destruct (isCollapsed n) eqn:Hcol; [done|].
      unfold visualLeaf in Hch. rewrite forget_id, <-Hc in Hch. simpl in Hch. apply negb_true_iff in Hch.
      unfold hasChildren, kids in *. by destruct (children (forget n)) as [[|]|].
    + destruct Hch as (Hleaf & _). apply visualLeaf_false in Hleaf as (Hid & Hk & _).
      rewrite forget_id in Hid.
      rewrite Hc, bool_decide_eq_false_2 by done.
      destruct Hkids as [-> | ->]; [done|].
      rewrite forget_unfold, Hchn in Hk. done.
  - rewrite edgesOf_length. by rewrite length_fmap.
Qed.

Lemma Math_max_spec (a b : Qc) :
  (a ≤ Math_max a b)%Qc ∧ (b ≤ Math_max a b)%Qc ∧ (Math_max a b = a ∨ Math_max a b = b).
Proof.
  unfold Math_max. destruct (decide (a ≤ b)%Qc) as [Hle | Hnle].
  - split; [done|]. split; [apply Qcle_refl | by right].
  - split; [apply Qcle_refl|]. split; [|by left].
    apply Qclt_le_weak. by apply Qcnot_le_lt.
Qed.

(** C5 (sizing).  The width computed for a label and a type is the larger
    of 140 and [label.length * c + 30], with [c = 7.5] for type ["code"] and
    [c = 7] for every other type.  For a label of length 40 it is 330 for
    type ["code"] and 310 for type ["child"]. *)
Theorem sizing_function (lbl ty : string) :
  let c := if decide (ty = "code"%string) then Q2Qc 7.5 else Q2Qc 7 in
  let v := (num_of_nat (String.length lbl) * c + Q2Qc 30)%Qc in
  let w := calculatedWidth lbl ty in
  ((Q2Qc 140 ≤ w)%Qc ∧ (v ≤ w)%Qc ∧ (w = Q2Qc 140 ∨ w = v)) ∧
  (String.length lbl = 40%nat →
   calculatedWidth lbl "code" = Q2Qc 330 ∧ calculatedWidth lbl "child" = Q2Qc 310).
Proof.
  simpl. split.
  - unfold calculatedWidth, charWidth. apply Math_max_spec.
  - intros Hlen. unfold calculatedWidth. rewrite Hlen.
    split; apply Qc_is_canon; vm_compute; reflexivity.
Qed.

Lemma sizing_function_witness :
  calculatedWidth "for /f %i in (hosts.txt) do ping -n 1 %i" "code" = Q2Qc 330 ∧
  calculatedWidth "for /f %i in (hosts.txt) do ping -n 1 %i" "child" = Q2Qc 310.
Proof.
  apply (sizing_function "for /f %i in (hosts.txt) do ping -n 1 %i" "code").
  reflexivity.
Defined.

(** C6 (toggle round trip).  Toggling the same id twice gives back the
    collapsed set (the same members), and with it the same outcome of the
    layout, whatever the root. *)
Theorem toggle_round_trip (i : string) (s : gset string) (root : JsRoot) :
  handleToggle i (handleToggle i s) = s ∧
  calculateLayout root (handleToggle i (handleToggle i s)) = calculateLayout root s.
Proof.
  assert (handleToggle i (handleToggle i s) = s) as Heq.
  { unfold handleToggle. destruct (decide (i ∈ s)) as [Hin | Hout].
    - rewrite decide_False by set_solver.
      apply set_eq. intros x. destruct (decide (x = i)); set_solver.
    - rewrite decide_True by set_solver. set_solver. }
  by rewrite Heq.
Qed.

(** C7, as stated, fails: on a [null] root [calculateLayout] returns
    nothing, in particular not an empty layout with the minimum box. *)
Lemma null_root_has_no_layout :
  ¬ ∃ r, calculateLayout JsNull ∅ = Return r ∧
         nodes r = [] ∧ edges r = [] ∧ width r = Q2Qc 800 ∧ height r = Q2Qc 600.
Proof. intros (r & Hr & _). discriminate Hr. Qed.

Lemma Math_max_le_l (a b : Qc) : (a ≤ Math_max a b)%Qc.
Proof. apply Math_max_spec. Qed.

(** C7, amended.  On a [null] root [calculateLayout] throws a [TypeError]
    and on an [undefined] root a [SyntaxError]; the application does not
    reach it then, it shows the placeholder instead.  On an object it
    returns a layout that lists the root first and whose box is at least
    800 by 600. *)
Theorem missing_root (cs : gset string) :
  calculateLayout JsNull cs = Throw TypeError ∧
  calculateLayout JsUndefined cs = Throw SyntaxError ∧
  MindMapApp_view JsNull cs = NoMindmapActive ∧
  MindMapApp_view JsUndefined cs = NoMindmapActive ∧
  ∀ t, ∃ r n, MindMapApp_view (JsObject t) cs = MindMap (Return r) ∧
              head (nodes r) = Some n ∧ forget n = t ∧
              (Q2Qc 800 ≤ width r)%Qc ∧ (Q2Qc 600 ≤ height r)%Qc.
Proof.
  repeat split; try reflexivity.
  intros t. unfold MindMapApp_view. rewrite calculateLayout_object.
  eexists _, (sized (assignCoords cs t 0 0).1). split; [reflexivity|]. simpl.
  split; [by rewrite flatten_unfold|].
  split; [by rewrite forget_sized, assignCoords_forget|].
  split; apply Math_max_le_l.
Qed.

(** * What [collect] and the unused [getLeafCount] rely on *)

Lemma node_ok_collectable cs n : node_ok cs n → collectable n.
Proof.
  intros Hok. pose proof (node_ok_mapped_expanded cs n Hok) as Hme.
  unfold collectable, mapped_expanded, node_ok in *.
  destruct Hok as (Hc & _ & _ & Hch).
  destruct (p_children n) as [c|ks] eqn:Hchn; [|done].
  unfold visualLeaf in Hch. rewrite forget_id, <-Hc in Hch.
  destruct (isCollapsed n); [by left | right]. simpl in Hch.
  apply negb_true_iff in Hch. rewrite forget_unfold, Hchn in Hch.
  unfold hasChildren in Hch. simpl in Hch. by destruct c as [[|]|].
Qed.

(** Every node produced by [assignCoords] that kept its untouched
    [children] is collapsed or has none, and every node with processed
    children is not collapsed: [collect] visits exactly the processed
    nodes. *)
Lemma assignCoords_untouched cs t d cur :
  Forall collectable (flatten (assignCoords cs t d cur).1).
Proof.
  eapply Forall_impl; [apply assignCoords_ok|]. apply node_ok_collectable.
Qed.

Lemma foldl_add_shift {A} (g : A → nat) (l : list A) (a : nat) :
  foldl (λ acc c, (acc + g c)%nat) a l = (a + foldl (λ acc c, (acc + g c)%nat) 0%nat l)%nat.
Proof.
  revert a. induction l as [|c l IH]; intros a; simpl; [lia|].
  rewrite (IH (a + g c)%nat), (IH (g c)). lia.
Qed.

Lemma getLeafCount_unfold cs t :
  getLeafCount cs t =
    if visualLeaf cs t then 1%nat
    else foldl (λ acc c, (acc + getLeafCount cs c)%nat) 0%nat (kids t).
Proof.
  destruct t as [i lbl ty [[|c l]|]]; unfold visualLeaf, hasChildren, kids; simpl;
    by destruct (bool_decide (i ∈ cs)).
Qed.

(** The slot counter advances by the leaf count of the subtree:
    [getLeafCount] measures what [assignCoords] consumes. *)
Lemma assignCoords_counter cs t :
  ∀ d cur, (assignCoords cs t d cur).2 = (cur + getLeafCount cs t)%nat.
Proof.
  induction t as [i lbl ty ch IH] using TreeNode_nested_ind. intros d cur.
  rewrite getLeafCount_unfold.
  destruct (visualLeaf cs (mkTreeNode i lbl ty ch)) eqn:Hleaf.
  - rewrite assignCoords_leaf by done. simpl. lia.
  - rewrite assignCoords_inner by done. cbn -[mapThread].
    unfold kids. simpl. generalize (S d). intros d'.
    revert cur. induction IH as [|c l Hc _ IHl]; intros cur; [simpl; lia|].
    rewrite mapThread_cons. cbn [snd]. rewrite IHl, Hc. simpl.
    rewrite (foldl_add_shift _ l (getLeafCount cs c)). lia.
Qed.

(** The vertical position of an inner node is the mean of its first and
    last child only: with children at 130, 290 and 370 the root sits at
    250, which is not the mean of the three. *)
Example first_and_last_child_only :
  ∃ r, calculateLayout (JsObject uneven_tree) ∅ = Return r ∧
       p_y <$> nodes r =
         Q2Qc <$> [250; 130; 50; 130; 210; 290; 370]%Q ∧
       Q2Qc 250 ≠ ((Q2Qc 130 + Q2Qc 290 + Q2Qc 370) / Q2Qc 3)%Qc.
Proof.
  eexists. split; [reflexivity|]. split.
  - apply (bool_decide_unpack _). vm_compute. exact I.
  - apply (bool_decide_unpack _). vm_compute. exact I.
Qed.

(** * Seeding *)

Lemma collapseRecursively_unfold d t acc :
  collapseRecursively d t acc =
    if hasChildren t
    then foldl (λ a c, collapseRecursively d c a)
           (if decide (id t ≠ d) then acc ∪ {[ id t ]} else acc) (kids t)
    else acc.
Proof. destruct t as [i lbl ty [[|c l]|]]; reflexivity. Qed.

Lemma elem_of_foldl_collapse (f : TreeNode → gset string → gset string)
    (Q : TreeNode → string → Prop) l :
  Forall (λ c, ∀ acc i, i ∈ f c acc ↔ i ∈ acc ∨ Q c i) l →
  ∀ acc i, i ∈ foldl (λ a c, f c a) acc l ↔ i ∈ acc ∨ ∃ c, c ∈ l ∧ Q c i.
Proof.
  induction 1 as [|c l Hc _ IH]; intros acc i; simpl.
  - split; [auto | intros [? | (c & ?%elem_of_nil & _)]; done].
  - rewrite IH, Hc. split.
    + intros [[? | ?] | (c' & ? & ?)]; [by left | right..].
      * exists c. split; [apply list_elem_of_here | done].
      * exists c'. split; [by apply list_elem_of_further | done].
    + intros [? | (c' & [-> | ?]%elem_of_cons & ?)]; [by left; left | by left; right |].
      right. by exists c'.
Qed.

Lemma collapseRecursively_spec d t :
  ∀ acc i, i ∈ collapseRecursively d t acc ↔
           i ∈ acc ∨ (i ≠ d ∧ ∃ p n, node_at t p = Some n ∧
                                    hasChildren n = true ∧ id n = i).
Proof.
  induction t as [j lbl ty ch IH] using TreeNode_nested_ind. intros acc i.
  rewrite collapseRecursively_unfold.
  set (t := mkTreeNode j lbl ty ch) in *.
  destruct (hasChildren t) eqn:Hhas.
  - pose proof (elem_of_foldl_collapse (collapseRecursively d) _ _ IH) as Hfold.
    change (arrayOf ch) with (kids t) in Hfold. rewrite Hfold. clear Hfold. split.
    + intros [Hacc | (c & Hc & Hne & p & n & Hp & Hn & Hid)].
      * destruct (decide (id t ≠ d)) as [Hd | Hd]; [|by left].
        apply elem_of_union in Hacc as [? | ->%elem_of_singleton]; [by left|].
        right. split; [done|]. by exists [], t.
      * right. split; [done|].
        apply list_elem_of_lookup in Hc as [k Hk].
        exists (k :: p), n. simpl. fold (kids t). rewrite Hk. done.
    + intros [Hacc | (Hne & p & n & Hp & Hn & Hid)].
      * left. destruct (decide (id t ≠ d)); set_solver.
      * destruct p as [|k p]; simpl in Hp.
        -- simplify_eq. left. rewrite decide_True by done. set_solver.
        -- destruct (kids t !! k) as [c|] eqn:Hk; [simpl in Hp|done].
           right. exists c. split; [by eapply list_elem_of_lookup_2|].
           split; [done|]. by exists p, n.
  - split; [auto|]. intros [? | (Hne & p & n & Hp & Hn & Hid)]; [done|].
    destruct p as [|k p]; simpl in Hp; [by simplify_eq; congruence|].
    unfold hasChildren, kids in *. destruct (children t) as [[|]|]; done.
Qed.

Lemma ids_unfold t : ids t = id t :: flat_map ids (kids t).
Proof. destruct t as [i lbl ty [l|]]; reflexivity. Qed.

Lemma node_at_ids t p n : node_at t p = Some n → id n ∈ ids t.
Proof.
  revert t. induction p as [|k p IH]; intros t; simpl; rewrite ids_unfold.
  - intros [= ->]. apply list_elem_of_here.
  - destruct (kids t !! k) as [c|] eqn:Hk; [simpl|done]. intros Hn.
    apply list_elem_of_further, list_elem_of_In, in_flat_map. exists c.
    split; apply list_elem_of_In; [by eapply list_elem_of_lookup_2 | by apply IH].
Qed.

Lemma unique_ids_below t p n :
  unique_ids t → p ≠ [] → node_at t p = Some n → id n ≠ id t.
Proof.
  unfold unique_ids. rewrite ids_unfold. intros [Hnotin _]%NoDup_cons Hp Hn Heq.
  destruct p as [|k p]; [done|]. simpl in Hn.
  destruct (kids t !! k) as [c|] eqn:Hk; [simpl in Hn|done].
  apply Hnotin. rewrite <-Heq. apply list_elem_of_In, in_flat_map. exists c.
  split; apply list_elem_of_In; [by eapply list_elem_of_lookup_2 | by eapply node_at_ids].
Qed.

Lemma elem_of_seed t i :
  unique_ids t →
  i ∈ seed (JsObject t) ↔
    ∃ p n, p ≠ [] ∧ node_at t p = Some n ∧ hasChildren n = true ∧ id n = i.
Proof.
  intros Huniq. simpl. rewrite collapseRecursively_spec. split.
  - intros [?%elem_of_empty | (Hne & p & n & Hp & Hn & Hid)]; [done|].
    exists p, n. split; [|done]. intros ->. simpl in Hp. by simplify_eq.
  - intros (p & n & Hne & Hp & Hn & Hid). right. split; [|by exists p, n].
    subst i. by eapply unique_ids_below.
Qed.

Lemma root_not_in_seed t : id t ∉ seed (JsObject t).
Proof.
  simpl. rewrite collapseRecursively_spec. intros [?%elem_of_empty | [? _]]; done.
Qed.

Lemma flatten_leaves (l : list TreeNode) (ks : list PNode) :
  Forall2 (λ c k, flatten k = [k] ∧ forget k = c ∧ depth k = 1%nat) l ks →
  forget <$> flat_map flatten ks = l ∧
  depth <$> flat_map flatten ks = const 1%nat <$> l.
Proof.
  induction 1 as [|c k l ks (Hfl & Hfk & Hdk) _ [IH1 IH2]]; [done|].
  simpl. rewrite Hfl. csimpl. by rewrite Hfk, Hdk, IH1, IH2.
Qed.

(** When every child of an expanded root is a visual leaf, the listing is
    the root followed by its children. *)
Lemma flatten_two_levels cs t :
  id t ∉ cs → (∀ c, c ∈ kids t → visualLeaf cs c = true) →
  let L := (assignCoords cs t 0 0).1 in
  forget <$> flatten L = t :: kids t ∧
  depth <$> flatten L = 0%nat :: (const 1%nat <$> kids t).
Proof.
  intros Hroot Hkids L.
  assert (forget L = t) as Hf by apply assignCoords_forget.
  assert (depth L = 0%nat) as Hd by apply assignCoords_depth.
  destruct (visualLeaf cs t) eqn:Hleaf.
  - assert (kids t = []) as Hnil.
    { unfold visualLeaf in Hleaf. rewrite bool_decide_eq_false_2 in Hleaf by done.
      simpl in Hleaf. apply negb_true_iff in Hleaf.
      unfold hasChildren, kids in *. by destruct (children t) as [[|]|]. }
    unfold L in *. rewrite assignCoords_leaf in * by done. simpl in *.
    by rewrite Hf, Hnil.
  - rewrite flatten_unfold. csimpl. rewrite Hf, Hd.
    unfold L. rewrite assignCoords_inner by done. cbn -[mapThread].
    assert (Forall2 (λ c k, flatten k = [k] ∧ forget k = c ∧ depth k = 1%nat)
              (kids t) (mapThread (λ c cur, assignCoords cs c 1 cur) (kids t) 0).1)
      as Hks.
    { apply (mapThread_Forall2 (λ c cur, assignCoords cs c 1 cur)).
      apply Forall_forall. intros c Hc s.
      rewrite assignCoords_forget, assignCoords_depth.
      split; [|done]. by rewrite assignCoords_leaf by auto. }
    apply flatten_leaves in Hks as [-> ->]. done.
Qed.

(** C3 (seeding).  For a tree whose ids are pairwise distinct: the seeded
    set holds exactly the ids of the nodes other than the root that have at
    least one child; and the layout under the seeded set lists exactly the
    root, at depth 0, followed by its direct children in order, at depth 1.
    (This holds whatever the depth of the tree, so in particular for trees
    of depth 2 or more.) *)
Theorem seeding_rule (t : TreeNode) :
  unique_ids t →
  (∀ i, i ∈ seed (JsObject t) ↔
        ∃ p n, p ≠ [] ∧ node_at t p = Some n ∧ hasChildren n = true ∧ id n = i) ∧
  ∃ r, calculateLayout (JsObject t) (seed (JsObject t)) = Return r ∧
       forget <$> nodes r = t :: kids t ∧
       depth <$> nodes r = 0%nat :: (const 1%nat <$> kids t).
Proof.
  intros Huniq. split; [intros i; by apply elem_of_seed|].
  eexists. split; [apply calculateLayout_object|]. simpl.
  destruct (flatten_two_levels (seed (JsObject t)) t) as [H1 H2].
  - apply root_not_in_seed.
  - intros c Hc. unfold visualLeaf.
    destruct (hasChildren c) eqn:Hhas; [|by rewrite orb_true_r].
    rewrite bool_decide_eq_true_2; [done|].
    apply elem_of_seed; [done|].
    apply list_elem_of_lookup in Hc as [k Hk].
    exists [k], c. simpl. rewrite Hk. done.
  - rewrite <-!list_fmap_compose.
    rewrite <-H1, <-H2. split; apply list_fmap_ext; intros _ n _; simpl.
    + apply forget_sized.
    + by destruct n.
Qed.

Lemma seeding_rule_witness :
  (∀ i, i ∈ seed (JsObject scenario_B) ↔
        ∃ p n, p ≠ [] ∧ node_at scenario_B p = Some n ∧
               hasChildren n = true ∧ id n = i) ∧
  ∃ r, calculateLayout (JsObject scenario_B) (seed (JsObject scenario_B)) = Return r ∧
       forget <$> nodes r = scenario_B :: kids scenario_B ∧
       depth <$> nodes r = 0%nat :: (const 1%nat <$> kids scenario_B).
Proof.
  apply (seeding_rule scenario_B). unfold unique_ids. simpl.
  apply (bool_decide_unpack _). vm_compute. exact I.
Defined.

(** * Toggling *)

Lemma nodes_of_unfold t : nodes_of t = t :: flat_map nodes_of (kids t).
Proof. destruct t as [i lbl ty [l|]]; reflexivity. Qed.

Lemma elem_of_toggle i j s :
  j ∈ handleToggle i s ↔ if decide (j = i) then j ∉ s else j ∈ s.
Proof.
  unfold handleToggle. destruct (decide (j = i)) as [-> | Hne];
    destruct (decide (i ∈ s)); set_solver.
Qed.

Lemma mapThread_post {A B S} (f f' : A → S → B * S) (g : B → B) l :
  Forall (λ a, ∀ s, f' a s = (g (f a s).1, (f a s).2)) l →
  ∀ s, mapThread f' l s = (g <$> (mapThread f l s).1, (mapThread f l s).2).
Proof.
  induction 1 as [|a l Ha _ IH]; intros s; [done|].
  rewrite !mapThread_cons, Ha. simpl. by rewrite IH.
Qed.

Lemma reflag_fields i b n :
  p_id (reflag i b n) = p_id n ∧ p_label (reflag i b n) = p_label n ∧
  p_type (reflag i b n) = p_type n ∧ depth (reflag i b n) = depth n ∧
  p_x (reflag i b n) = p_x n ∧ p_y (reflag i b n) = p_y n ∧
  halfWidth (reflag i b n) = halfWidth n ∧
  isCollapsed (reflag i b n) = (if decide (p_id n = i) then b else isCollapsed n).
Proof. by destruct n. Qed.

Lemma firstY_lastY_reflag i b ks :
  firstY (reflag i b <$> ks) = firstY ks ∧ lastY (reflag i b <$> ks) = lastY ks.
Proof.
  unfold firstY, lastY. rewrite fmap_last. split.
  - destruct ks as [|k ks]; [done|]. by destruct k.
  - destruct (last ks) as [k|]; [|done]. by destruct k.
Qed.

(** Toggling an id that only childless nodes carry changes nothing but the
    flag of those nodes. *)
Lemma assignCoords_toggle i s t :
  Forall (λ n, id n = i → hasChildren n = false) (nodes_of t) →
  ∀ d cur,
    assignCoords (handleToggle i s) t d cur =
      (reflag i (negb (bool_decide (i ∈ s))) (assignCoords s t d cur).1,
       (assignCoords s t d cur).2).
Proof.
  induction t as [j lbl ty ch IH] using TreeNode_nested_ind.
  set (t := mkTreeNode j lbl ty ch) in *. intros Hless d cur.
  rewrite nodes_of_unfold in Hless. apply Forall_cons in Hless as [Ht Hkids].
  apply Forall_flat_map in Hkids.
  assert (bool_decide (j ∈ handleToggle i s) =
            if decide (j = i) then negb (bool_decide (i ∈ s))
            else bool_decide (j ∈ s)) as Hmem.
  { pose proof (elem_of_toggle i j s) as Hj.
    destruct (decide (j = i)) as [-> | Hne].
    - destruct (decide (i ∈ s)) as [Hin | Hout].
      + rewrite (bool_decide_eq_true_2 (i ∈ s)) by done.
        apply bool_decide_eq_false_2. rewrite Hj. by intros ?.
      + rewrite (bool_decide_eq_false_2 (i ∈ s)) by done.
        apply bool_decide_eq_true_2. by apply Hj.
    - by apply bool_decide_ext. }
  destruct (decide (j = i)) as [-> | Hne].
  - specialize (Ht eq_refl).
    rewrite !assignCoords_leaf by (unfold visualLeaf; rewrite Ht; apply orb_true_r).
    simpl. rewrite Hmem, decide_True by done. done.
  - assert (visualLeaf (handleToggle i s) t = visualLeaf s t) as Hvl.
    { unfold visualLeaf. simpl. by rewrite Hmem. }
    destruct (visualLeaf s t) eqn:Hleaf.
    + rewrite !assignCoords_leaf by done. simpl.
      rewrite Hmem, decide_False by done. done.
    + rewrite !assignCoords_inner by done. cbn -[mapThread].
      rewrite (mapThread_post (λ c cur, assignCoords s c (S d) cur) _
                 (reflag i (negb (bool_decide (i ∈ s))))); last first.
      { change (kids t) with (arrayOf ch).
        rewrite Forall_forall in IH, Hkids |- *. intros c Hc s'.
        apply IH; [done|]. by apply Hkids. }
      cbn -[mapThread].
      destruct (firstY_lastY_reflag i (negb (bool_decide (i ∈ s)))
                  (mapThread (λ c cur, assignCoords s c (S d) cur) (kids t) cur).1)
        as [-> ->].
      by rewrite decide_False by done.
Qed.

Lemma sized_reflag i b n : sized (reflag i b n) = reflag i b (sized n).
Proof.
  induction n as [n IH] using PNode_nested_ind.
  destruct n as [j lbl ty [c|ks] d col px py hw]; unfold laidKids in IH;
    simpl in *; [done|].
  f_equal. f_equal. rewrite <-!list_fmap_compose.
  apply list_fmap_ext. intros k m Hm. simpl.
  rewrite Forall_forall in IH. apply IH. by eapply list_elem_of_lookup_2.
Qed.

Lemma flatten_reflag i b n : flatten (reflag i b n) = reflag i b <$> flatten n.
Proof.
  induction n as [n IH] using PNode_nested_ind.
  destruct n as [j lbl ty [c|ks] d col px py hw]; unfold laidKids in IH;
    simpl in *; [done|].
  f_equal. induction IH as [|k ks Hk _ IHks]; [done|].
  csimpl. by rewrite fmap_app, Hk, IHks.
Qed.

Lemma edgeTo_reflag i b n k : edgeTo (reflag i b n) (reflag i b k) = edgeTo n k.
Proof. by destruct n, k. Qed.

Lemma edgesOf_reflag i b n : edgesOf (reflag i b n) = edgesOf n.
Proof.
  induction n as [n IH] using PNode_nested_ind.
  rewrite !edgesOf_unfold.
  assert (laidKids (reflag i b n) = reflag i b <$> laidKids n) as ->
    by (by destruct n as [? ? ? [c|ks] ? ? ? ? ?]).
  rewrite flat_map_fmap.
  induction IH as [|k ks Hk _ IHks]; [done|].
  simpl. by rewrite edgeTo_reflag, Hk, IHks.
Qed.

Lemma forget_reflag i b n : forget (reflag i b n) = forget n.
Proof.
  induction n as [n IH] using PNode_nested_ind.
  destruct n as [j lbl ty [c|ks] d col px py hw]; unfold laidKids in IH;
    simpl in *; [done|].
  do 2 f_equal. rewrite <-list_fmap_compose.
  apply list_fmap_ext. intros k m Hm. simpl.
  rewrite Forall_forall in IH. apply IH. by eapply list_elem_of_lookup_2.
Qed.

Lemma reflag_absent i b n :
  Forall (λ m, p_id m ≠ i) (flatten n) →
  reflag i b n = n ∧ reflag i b <$> flatten n = flatten n.
Proof.
  induction n as [n IH] using PNode_nested_ind. intros Hall.
  apply Forall_flatten in Hall as [Hn Hks].
  assert (reflag i b <$> laidKids n = laidKids n ∧
          reflag i b <$> flat_map flatten (laidKids n) = flat_map flatten (laidKids n))
    as [Hk1 Hk2].
  { induction IH as [|k ks Hk _ IHks]; [done|].
    apply Forall_cons in Hks as [Hk' Hks]. destruct (Hk Hk') as [E1 E2].
    destruct (IHks Hks) as [E3 E4]. csimpl.
    by rewrite fmap_app, E1, E2, E3, E4. }
  assert (reflag i b n = n) as Heq.
  { destruct n as [j lbl ty [c|ks] d col px py hw]; unfold laidKids in *;
      simpl in *; rewrite decide_False by done; [done|]. by rewrite Hk1. }
  split; [done|]. rewrite flatten_unfold. csimpl. by rewrite Heq, Hk2.
Qed.

Lemma foldl_fmap_ext {A B} (f : A → B → A) (g : B → B) a (l : list B) :
  (∀ x y, f x (g y) = f x y) → foldl f a (g <$> l) = foldl f a l.
Proof.
  intros Hfg. revert a. induction l as [|y l IH]; intros a; [done|].
  csimpl. by rewrite Hfg, IH.
Qed.

Lemma layoutOf_reflag i b L :
  layoutOf (reflag i b L) =
    mkLayout (reflag i b <$> nodes (layoutOf L)) (edges (layoutOf L))
      (width (layoutOf L)) (height (layoutOf L)).
Proof.
  unfold layoutOf. simpl.
  rewrite edgesOf_reflag, flatten_reflag, <-!list_fmap_compose.
  rewrite (list_fmap_ext (sized ∘ reflag i b) (reflag i b ∘ sized) (flatten L))
    by (intros; apply sized_reflag).
  rewrite (list_fmap_compose sized (reflag i b)).
  rewrite !(foldl_fmap_ext _ (reflag i b)); [done|..].
  - intros m n. by destruct n.
  - intros m n. unfold halfWidthOr70. by destruct n.
Qed.

Lemma node_at_nodes_of t p n : node_at t p = Some n → n ∈ nodes_of t.
Proof.
  revert t. induction p as [|k p IH]; intros t; simpl; rewrite nodes_of_unfold.
  - intros [= ->]. apply list_elem_of_here.
  - destruct (kids t !! k) as [c|] eqn:Hk; [simpl|done]. intros Hn.
    apply list_elem_of_further, list_elem_of_In, in_flat_map. exists c.
    split; apply list_elem_of_In; [by eapply list_elem_of_lookup_2 | by apply IH].
Qed.

(** C8, as stated, fails: toggling the id of a childless node changes the
    layout output (the node's [isCollapsed] flag). *)
Lemma toggle_childless_changes_output :
  hasChildren (mkTreeNode "C1" "Tickets" "child" (Some [])) = false ∧
  node_at scenario_A [0%nat] = Some (mkTreeNode "C1" "Tickets" "child" (Some [])) ∧
  calculateLayout (JsObject scenario_A) (handleToggle "C1" ∅) ≠
    calculateLayout (JsObject scenario_A) ∅.
Proof.
  split; [done|]. split; [done|]. intros Heq.
  apply (f_equal (λ o, match o with
                       | Return r => isCollapsed <$> nodes r
                       | Throw _ => []
                       end)) in Heq.
  vm_compute in Heq. discriminate Heq.
Qed.

(** C8, amended.  Toggling an id never fails.  When the id belongs only to
    childless nodes of the tree, the layout after the toggle lists the same
    nodes with the same tree fields, depth, coordinates and half width, and
    has the same edges and box; only the [isCollapsed] flag of the nodes
    with that id is inverted.  When no node of the tree has the id, the
    layout after the toggle equals the layout before. *)
Theorem toggle_without_children (t : TreeNode) (i : string) (s : gset string) :
  Forall (λ n, id n = i → hasChildren n = false) (nodes_of t) →
  ∃ r r', calculateLayout (JsObject t) s = Return r ∧
          calculateLayout (JsObject t) (handleToggle i s) = Return r' ∧
          Forall2 (λ n n', forget n' = forget n ∧ depth n' = depth n ∧
                           p_x n' = p_x n ∧ p_y n' = p_y n ∧
                           halfWidth n' = halfWidth n ∧
                           isCollapsed n' = (if decide (p_id n = i)
                                             then negb (isCollapsed n)
                                             else isCollapsed n))
            (nodes r) (nodes r') ∧
          edges r' = edges r ∧ width r' = width r ∧ height r' = height r ∧
          (Forall (λ n, id n ≠ i) (nodes_of t) → r' = r).
Proof.
  intros Hless. do 2 eexists. split; [apply calculateLayout_object|].
  rewrite calculateLayout_object, assignCoords_toggle by done.
  cbn [fst]. rewrite layoutOf_reflag. split; [reflexivity|].
  set (L := (assignCoords s t 0 0).1). cbn [nodes edges width height].
  pose proof (assignCoords_ok s t 0 0) as Hok. fold L in Hok.
  split; [|repeat split].
  - apply Forall2_fmap_r, Forall2_same_length_lookup. split; [done|].
    intros k n n' Hn Hn'. rewrite Hn in Hn'. injection Hn' as <-.
    unfold compose. rewrite forget_reflag.
    destruct (reflag_fields i (negb (bool_decide (i ∈ s))) n)
      as (_ & _ & _ & -> & -> & -> & -> & ->).
    repeat split. destruct (decide (p_id n = i)) as [Hid | _]; [|done].
    f_equal. simpl in Hn. apply list_lookup_fmap_Some in Hn as (m & -> & Hm).
    destruct (sized_fields m) as (Hid' & _ & _ & _ & -> & _).
    rewrite Forall_forall in Hok. destruct (Hok m) as (-> & _).
    { by eapply list_elem_of_lookup_2. }
    by rewrite <-Hid', Hid.
  - intros Habs.
    destruct (reflag_absent i (negb (bool_decide (i ∈ s))) (sized L)) as [_ Heq];
      [|unfold layoutOf; cbn [nodes]; rewrite <-flatten_sized, Heq; reflexivity].
    rewrite flatten_sized.
    apply Forall_fmap, Forall_forall. intros m Hm. simpl.
    destruct (sized_fields m) as (-> & _).
    pose proof (flatten_positions s L Hok) as Hpos.
    apply list_elem_of_lookup in Hm as [k Hk].
    destruct (Forall2_lookup_r _ _ _ _ _ Hpos Hk) as (p & _ & Hp).
    apply pnode_at_forget in Hp. unfold L in Hp.
    rewrite assignCoords_forget in Hp. apply node_at_nodes_of in Hp.
    rewrite Forall_forall in Habs. rewrite <-forget_id. by apply Habs.
Qed.

Lemma toggle_without_children_witness :
  ∃ r r', calculateLayout (JsObject scenario_A) ∅ = Return r ∧
          calculateLayout (JsObject scenario_A) (handleToggle "C1" ∅) = Return r' ∧
          Forall2 (λ n n', forget n' = forget n ∧ depth n' = depth n ∧
                           p_x n' = p_x n ∧ p_y n' = p_y n ∧
                           halfWidth n' = halfWidth n ∧
                           isCollapsed n' = (if decide (p_id n = "C1"%string)
                                             then negb (isCollapsed n)
                                             else isCollapsed n))
            (nodes r) (nodes r') ∧
          edges r' = edges r ∧ width r' = width r ∧ height r' = height r ∧
          (Forall (λ n, id n ≠ "C1"%string) (nodes_of scenario_A) → r' = r).
Proof.
  apply (toggle_without_children scenario_A "C1" ∅).
  apply (bool_decide_unpack _). vm_compute. exact I.
Defined.

(** * The scenarios of the specification *)

(** Scenario A: a root with two childless children; nothing is seeded,
    three nodes and two edges, the first child above the second. *)
Example scenario_A_seeded :
  seed (JsObject scenario_A) = ∅ ∧
  ∃ r, calculateLayout (JsObject scenario_A) (seed (JsObject scenario_A)) = Return r ∧
       p_id <$> nodes r = ["R"; "C1"; "C2"]%string ∧
       length (edges r) = 2%nat ∧
       p_y <$> nodes r = Q2Qc <$> [90; 50; 130]%Q.
Proof.
  split; [reflexivity|]. eexists. split; [reflexivity|].
  split; [reflexivity|]. split; [reflexivity|].
  apply (bool_decide_unpack _). vm_compute. exact I.
Qed.

(** Scenario B: root, child, grandchild; the child is seeded as collapsed:
    two nodes and one edge. *)
Example scenario_B_seeded :
  ∃ r, calculateLayout (JsObject scenario_B) (seed (JsObject scenario_B)) = Return r ∧
       p_id <$> nodes r = ["R"; "C1"]%string ∧
       isCollapsed <$> nodes r = [false; true] ∧
       length (edges r) = 1%nat.
Proof.
  eexists. split; [reflexivity|]. vm_compute. done.
Qed.

(** Scenario B, after [toggle("C1")]: three nodes and two edges. *)
Example scenario_B_toggled :
  ∃ r, calculateLayout (JsObject scenario_B)
         (handleToggle "C1" (seed (JsObject scenario_B))) = Return r ∧
       p_id <$> nodes r = ["R"; "C1"; "G1"]%string ∧
       isCollapsed <$> nodes r = [false; false; false] ∧
       length (edges r) = 2%nat.
Proof.
  eexists. split; [reflexivity|]. vm_compute. done.
Qed.

(** * The store: reading and copying the caller's tree *)

Lemma mapM_Forall2 {A B} (f : A → option B) l k :
  mapM f l = Some k ↔ Forall2 (λ a b, f a = Some b) l k.
Proof. apply mapM_Some. Qed.

Lemma stringify_unfold f h r t :
  Store.stringify (S f) h r = Some t ↔
  ∃ o, h !! r = Some o ∧ id t = Store.o_id o ∧ label t = Store.o_label o ∧
       type t = Store.o_type o ∧
       match Store.o_children o with
       | None => children t = None
       | Some rs => ∃ l, children t = Some l ∧
                         Forall2 (λ r c, Store.stringify f h r = Some c) rs l
       end.
Proof.
  simpl. destruct (h !! r) as [o|]; [|split; [done | by intros (? & ? & _)]].
  destruct (Store.o_children o) as [rs|] eqn:Hch.
  - destruct (mapM (Store.stringify f h) rs) as [l|] eqn:Hl.
    + apply mapM_Forall2 in Hl. split.
      * intros [= <-]. exists o. rewrite Hch. eauto 10.
      * intros (o' & [= <-] & ? & ? & ? & H). rewrite Hch in H.
        destruct H as (l' & ? & Hl'). apply mapM_Forall2 in Hl, Hl'.
        destruct t; simpl in *. congruence.
    + split; [done|]. intros (o' & [= <-] & ? & ? & ? & H). rewrite Hch in H.
      destruct H as (l' & ? & Hl'). apply mapM_Forall2 in Hl'. congruence.
  - split.
    + intros [= <-]. exists o. by rewrite Hch.
    + intros (o' & [= <-] & ? & ? & ? & H). rewrite Hch in H.
      destruct t; simpl in *. congruence.
Qed.

Lemma stringify_mono f h r t :
  Store.stringify f h r = Some t →
  ∀ f' h', (f ≤ f')%nat → h `prefix_of` h' → Store.stringify f' h' r = Some t.
Proof.
  revert r t. induction f as [|f IH]; intros r t Hs f' h' Hf Hh; [done|].
  destruct f' as [|f']; [lia|].
  apply stringify_unfold in Hs as (o & Ho & ? & ? & ? & Hch).
  apply stringify_unfold. exists o. split; [by eapply prefix_lookup_Some|].
  repeat split; try done.
  destruct (Store.o_children o) as [rs|]; [|done].
  destruct Hch as (l & ? & Hl). exists l. split; [done|].
  eapply Forall2_impl; [exact Hl|]. intros r' c Hc. simpl in Hc.
  apply IH; [done | lia | done].
Qed.

(** [l] is a prefix of [l ++ k1 ++ .. ++ kn], however bracketed. *)
Ltac solve_prefix :=
  rewrite <-?(assoc (++)); repeat apply prefix_app; by apply prefix_app_r || apply prefix_nil.

Lemma raw_mono f h r :
  raw f h r → ∀ h', h `prefix_of` h' → raw f h' r.
Proof.
  revert r. induction f as [|f IH]; intros r Hr h' Hpre; [done|].
  simpl in *. destruct (h !! r) as [o|] eqn:Ho; [|done].
  rewrite (prefix_lookup_Some _ _ _ _ Ho Hpre).
  destruct Hr as (? & ? & ? & ? & ? & Hch). repeat split; try done.
  eapply Forall_impl; [exact Hch|]. intros r' Hr'. by apply IH.
Qed.

Lemma parse_children f (l : list TreeNode) :
  Forall (λ c, ∀ h', ∃ cr E, Store.parse c h' = (cr, h' ++ E) ∧
                            Store.stringify f (h' ++ E) cr = Some c ∧
                            raw f (h' ++ E) cr) l →
  ∀ h', ∃ rs E, mapThread Store.parse l h' = (rs, h' ++ E) ∧
                Forall2 (λ r c, Store.stringify f (h' ++ E) r = Some c ∧
                                raw f (h' ++ E) r) rs l.
Proof.
  induction 1 as [|c l Hc _ IH]; intros h'.
  - exists [], []. rewrite app_nil_r. split; [done | constructor].
  - destruct (Hc h') as (cr & E1 & Hp & Hs & Hraw).
    destruct (IH (h' ++ E1)) as (rs & E2 & Hps & Hss).
    exists (cr :: rs), (E1 ++ E2). rewrite mapThread_cons, Hp. simpl.
    rewrite Hps. simpl. rewrite <-(assoc (++)) in Hss |- *. split; [done|].
    constructor; [|done]. split.
    + eapply stringify_mono; [exact Hs | done | solve_prefix].
    + eapply raw_mono; [exact Hraw | solve_prefix].
Qed.

Lemma lookup_snoc {A} (l : list A) x : (l ++ [x]) !! length l = Some x.
Proof. by apply list_lookup_middle. Qed.

(** The copy made by [JSON.parse] is fresh, reads back as the text and
    carries no positioning property. *)
Lemma parse_spec f h r t :
  Store.stringify f h r = Some t →
  ∀ h', ∃ cr E, Store.parse t h' = (cr, h' ++ E) ∧
                Store.stringify f (h' ++ E) cr = Some t ∧
                raw f (h' ++ E) cr.
Proof.
  revert h r t. induction f as [|f IH]; intros h r t Hs h'; [done|].
  apply stringify_unfold in Hs as (o & Ho & Hi & Hl & Hty & Hch).
  destruct t as [i lbl ty ch]. simpl in Hi, Hl, Hty, Hch. subst i lbl ty.
  destruct (Store.o_children o) as [rs|].
  - destruct Hch as (l & -> & Hrs). cbn [Store.parse].
    destruct (parse_children f l) with (h' := h') as (rs' & E & Hp & Hss).
    { apply Forall_forall. intros c Hc.
      apply list_elem_of_lookup in Hc as [k Hk].
      destruct (Forall2_lookup_r _ _ _ _ _ Hrs Hk) as (r' & _ & Hr').
      by apply (IH h r'). }
    rewrite Hp.
    set (obj := Store.mkObj _ _ _ (Some rs') _ _ _ _ _).
    exists (length (h' ++ E)), (E ++ [obj]). rewrite (assoc (++)).
    split; [done|]. split.
    + apply stringify_unfold. exists obj. split; [apply lookup_snoc|].
      simpl. repeat split. exists l. split; [done|].
      eapply Forall2_impl; [exact Hss|]. intros r' c [Hc _]. simpl in Hc.
      eapply stringify_mono; [exact Hc | done | solve_prefix].
    + cbn [raw]. rewrite lookup_snoc. simpl. repeat split.
      apply Forall_forall. intros r' Hr'.
      apply list_elem_of_lookup in Hr' as [k Hk].
      destruct (Forall2_lookup_l _ _ _ _ _ Hss Hk) as (c & _ & _ & Hraw).
      eapply raw_mono; [exact Hraw | solve_prefix].
  - subst ch. cbn [Store.parse].
    set (obj := Store.mkObj _ _ _ None _ _ _ _ _).
    exists (length h'), [obj]. split; [done|]. split.
    + apply stringify_unfold. exists obj. split; [apply lookup_snoc|]. done.
    + cbn [raw]. rewrite lookup_snoc. simpl. repeat split. constructor.
Qed.

(** * The store: laid-out trees *)

Lemma psize_unfold L : psize L = S (length (flat_map flatten (laidKids L))).
Proof. unfold psize. by rewrite flatten_unfold. Qed.

Lemma ksize_cons k (ks : list PNode) :
  length (flat_map flatten (k :: ks)) = (psize k + length (flat_map flatten ks))%nat.
Proof. simpl. by rewrite length_app. Qed.

Lemma laidAt_unfold h pb L :
  laidAt h pb L ↔
    (∃ o, h !! pb = Some o ∧ obj_matches pb o L) ∧
    laidSeq (laidAt h) (S pb) (laidKids L).
Proof. destruct L as [? ? ? [c|ks] ? ? ? ? ?]; simpl; tauto. Qed.

Lemma laidAt_ext h h' L :
  ∀ pb, (∀ j, (pb ≤ j < pb + psize L)%nat → h' !! j = h !! j) →
        laidAt h pb L → laidAt h' pb L.
Proof.
  induction L as [L IH] using PNode_nested_ind. intros pb Hext.
  rewrite !laidAt_unfold. rewrite psize_unfold in Hext.
  intros [(o & Ho & Hm) Hks]. split.
  - exists o. split; [|done]. rewrite Hext; [done | lia].
  - assert (∀ j, (S pb ≤ j < S pb + length (flat_map flatten (laidKids L)))%nat →
                 h' !! j = h !! j) as Hext' by (intros; apply Hext; lia).
    clear Hext Ho Hm. revert Hext' Hks. generalize (S pb).
    induction IH as [|k ks Hk _ IHks]; intros b Hext Hks; [done|].
    rewrite ksize_cons in Hext. destruct Hks as [Hk1 Hks]. split.
    + apply Hk; [|done]. intros j Hj. apply Hext. lia.
    + apply IHks; [|done]. intros j Hj. apply Hext. lia.
Qed.

Lemma laidSeq_ext h h' ks :
  ∀ b, (∀ j, (b ≤ j < b + length (flat_map flatten ks))%nat → h' !! j = h !! j) →
       laidSeq (laidAt h) b ks → laidSeq (laidAt h') b ks.
Proof.
  induction ks as [|k ks IH]; intros b Hext Hks; [done|].
  rewrite ksize_cons in Hext. destruct Hks as [Hk Hks]. split.
  - eapply laidAt_ext; [|exact Hk]. intros j Hj. apply Hext. lia.
  - apply IH; [|done]. intros j Hj. apply Hext. lia.
Qed.

Lemma laidSeq_head h b k ks :
  laidSeq (laidAt h) b (k :: ks) →
  head (kidRefs b (k :: ks)) = Some b ∧
  ∃ o, h !! b = Some o ∧ Store.o_y o = Some (p_y k).
Proof.
  intros [Hk _]. split; [done|].
  apply laidAt_unfold in Hk as [(o & Ho & Hm) _]. exists o. split; [done|].
  by destruct Hm as (_ & _ & _ & _ & _ & _ & ? & _).
Qed.

Lemma laidSeq_last h ks :
  ∀ b k, laidSeq (laidAt h) b ks → last ks = Some k →
         ∃ b' o, last (kidRefs b ks) = Some b' ∧ h !! b' = Some o ∧
                 Store.o_y o = Some (p_y k).
Proof.
  induction ks as [|k1 ks IH]; intros b k Hks Hlast; [done|].
  destruct Hks as [Hk1 Hks]. destruct ks as [|k2 ks].
  - simpl in Hlast. injection Hlast as <-.
    apply laidAt_unfold in Hk1 as [(o & Ho & Hm) _]. exists b, o.
    split; [done|]. split; [done|].
    by destruct Hm as (_ & _ & _ & _ & _ & _ & ? & _).
  - destruct (IH _ k Hks) as (b' & o & Hb' & Ho & Hy); [done|].
    exists b', o. split; [|done]. exact Hb'.
Qed.

Lemma alter_middle {A} (g : A → A) (l1 l2 : list A) x :
  alter g (length l1) (l1 ++ x :: l2) = l1 ++ g x :: l2.
Proof.
  induction l1 as [|a l1 IH]; [done|]. simpl. f_equal. exact IH.
Qed.

Lemma kidRefs_length b ks : length (kidRefs b ks) = length ks.
Proof. revert b. induction ks as [|k ks IH]; intros b; simpl; [done|]. by rewrite IH. Qed.

Lemma mapThreadM_cons {A B S} (f : A → S → option (B * S)) a l s :
  Store.mapThreadM f (a :: l) s =
    match f a s with
    | None => None
    | Some (b, s1) =>
        match Store.mapThreadM f l s1 with
        | None => None
        | Some (bs, s2) => Some (b :: bs, s2)
        end
    end.
Proof. reflexivity. Qed.

Lemma assignCoords_store_children cs f h0 rs l :
  assign_ok cs f →
  Forall2 (λ r c, Store.stringify f h0 r = Some c ∧ raw f h0 r) rs l →
  ∀ h d cur, h0 `prefix_of` h →
    ∃ E, Store.mapThreadM (λ child st, Store.assignCoords f cs child d st)
           rs (h, cur) =
           Some (kidRefs (length h)
                   (mapThread (λ c cur, assignCoords cs c d cur) l cur).1,
                 (h ++ E, (mapThread (λ c cur, assignCoords cs c d cur) l cur).2)) ∧
         length E =
           length (flat_map flatten
                     (mapThread (λ c cur, assignCoords cs c d cur) l cur).1) ∧
         laidSeq (laidAt (h ++ E)) (length h)
           (mapThread (λ c cur, assignCoords cs c d cur) l cur).1 ∧
         Forall (fits f) (mapThread (λ c cur, assignCoords cs c d cur) l cur).1.
Proof.
  intros Hok. induction 1 as [|r c rs l [Hc Hraw] _ IH]; intros h d cur Hpre.
  - exists []. rewrite app_nil_r. simpl. done.
  - destruct (Hok h r c) with (d := d) (cur := cur) as (E1 & Hrun & Hlen & Hlaid & Hfit).
    { eapply stringify_mono; [exact Hc | done | done]. }
    { by eapply raw_mono. }
    destruct (IH (h ++ E1) d (assignCoords cs c d cur).2) as (E2 & Hrun2 & Hlen2 & Hlaid2 & Hfit2).
    { etrans; [exact Hpre | solve_prefix]. }
    exists (E1 ++ E2). rewrite mapThread_cons. cbn [fst snd].
    rewrite mapThreadM_cons. cbn beta. rewrite Hrun, Hrun2. rewrite length_app, Hlen in *. rewrite (assoc (++)).
    split; [done|]. split; [by rewrite ksize_cons, length_app, Hlen, Hlen2|].
    split; [|by constructor].
    split; [|done]. eapply laidAt_ext; [|exact Hlaid].
    intros j Hj. rewrite lookup_app_l; [done|]. rewrite length_app. lia.
Qed.

Lemma kidRefs_ge ks : ∀ b r, r ∈ kidRefs b ks → (b ≤ r)%nat.
Proof.
  induction ks as [|k ks IH]; intros b r Hr; simpl in Hr.
  - by apply elem_of_nil in Hr.
  - apply elem_of_cons in Hr as [-> | Hr]; [done|]. apply IH in Hr. lia.
Qed.

Lemma lookup_middle_ne {A} (l1 l2 : list A) x y j :
  j ≠ length l1 → (l1 ++ x :: l2) !! j = (l1 ++ y :: l2) !! j.
Proof.
  intros Hj. destruct (decide (j < length l1)%nat).
  - by rewrite !lookup_app_l.
  - rewrite !lookup_app_r by lia.
    destruct (j - length l1)%nat as [|k] eqn:Hk; [lia | done].
Qed.

(** [assignCoords] over the store appends the laid-out tree that the pure
    [assignCoords] computes. *)
Lemma assignCoords_store cs f : assign_ok cs f.
Proof.
  induction f as [|f IH]; intros h r t Hs Hraw d cur; [done|].
  apply stringify_unfold in Hs as (o & Ho & Hi & Hl & Hty & Hch).
  cbn [raw] in Hraw. rewrite Ho in Hraw.
  destruct Hraw as (_ & _ & _ & _ & Hhw & Hrawk).
  cbn [Store.assignCoords]. rewrite Ho, <-Hi.
  set (o1 := Store.set_isCollapsed (bool_decide (id t ∈ cs)) (Store.set_depth d o)).
  assert (visualLeaf cs t = true →
          ∃ E, Some (length h,
                     (alter (Store.set_y (Some (num_of_nat cur * Y_GAP + Q2Qc 50)%Qc))
                        (length h)
                        (alter (Store.set_x (Some (num_of_nat d * X_GAP + Q2Qc 100)%Qc))
                           (length h) (h ++ [o1])), S cur)) =
               Some (length h, (h ++ E, (assignCoords cs t d cur).2)) ∧
               length E = psize (assignCoords cs t d cur).1 ∧
               laidAt (h ++ E) (length h) (assignCoords cs t d cur).1 ∧
               fits (S f) (assignCoords cs t d cur).1) as Hleafcase.
  { intros Hleaf. rewrite assignCoords_leaf by done. cbn [fst snd].
    rewrite !alter_middle. eexists [_]. split; [reflexivity|].
    split; [done|]. split; [|by constructor].
    split; [|done]. eexists. split; [apply lookup_snoc|].
    unfold obj_matches. simpl. repeat split; try done.
    destruct (Store.o_children o) as [rs|].
    - destruct Hch as (l & -> & Hrs). simpl. f_equal. by eapply Forall2_length.
    - by rewrite Hch. }
  destruct (bool_decide (id t ∈ cs)) eqn:Hc.
  { apply Hleafcase. unfold visualLeaf. by rewrite Hc. }
  destruct (Store.o_children o) as [[|r1 rs]|] eqn:Hoc.
  - apply Hleafcase. destruct Hch as (l & Hl' & Hrs). apply Forall2_nil_inv_l in Hrs.
    subst l. unfold visualLeaf, hasChildren. rewrite Hl'. apply orb_true_r.
  - destruct Hch as (l & Hkids & Hrs).
    assert (visualLeaf cs t = false) as Hleaf.
    { unfold visualLeaf, hasChildren. rewrite Hc, Hkids.
      by apply Forall2_cons_inv_l in Hrs as (c1 & l' & _ & _ & ->). }
    assert (kids t = l) as Hk by (unfold kids; by rewrite Hkids).
    rewrite assignCoords_inner by done. cbn zeta. cbn [fst snd]. rewrite Hk.
    set (rp := mapThread (λ c cur0, assignCoords cs c (S d) cur0) l cur).
    destruct (assignCoords_store_children cs f h (r1 :: rs) l IH)
      with (h := h ++ [o1]) (d := S d) (cur := cur)
      as (E & Hrun & Hlen & Hlaid & Hfit).
    { apply Forall2_same_length_lookup. split; [by eapply Forall2_length|].
      intros k r' c Hr' Hc'. split.
      - by eapply (Forall2_lookup_lr _ _ _ _ _ _ Hrs).
      - simpl in Hrawk. rewrite Forall_forall in Hrawk. apply Hrawk.
        by eapply list_elem_of_lookup_2. }
    { solve_prefix. }
    fold rp in Hrun, Hlen, Hlaid, Hfit. rewrite Hrun.
    assert (length (h ++ [o1]) = S (length h)) as Hlen1
      by (rewrite length_app; simpl; lia).
    rewrite Hlen1 in *.
    assert ((h ++ [o1]) ++ E = h ++ o1 :: E) as Happ by (by rewrite <-(assoc (++))).
    rewrite Happ in *.
    rewrite alter_middle.
    destruct rp.1 as [|k1 ks] eqn:Hks.
    { pose proof (mapThread_length (λ c cur0, assignCoords cs c (S d) cur0) l cur) as Hl0.
      fold rp in Hl0. rewrite Hks in Hl0.
      apply Forall2_cons_inv_l in Hrs as (c1 & l' & _ & _ & ->). simpl in Hl0. lia. }
    destruct (laidSeq_head _ _ _ _ Hlaid) as (Hhead & ofst & Hof & Hofy).
    destruct (last (k1 :: ks)) as [kl|] eqn:Hlast; [|by apply last_None in Hlast].
    destruct (laidSeq_last _ _ _ _ Hlaid Hlast) as (bl & ol & Hbl & Hol & Holy).
    assert (S (length h) ≠ length h) as Hne1 by lia.
    assert (bl ≠ length h) as Hne2.
    { apply last_Some_elem_of, kidRefs_ge in Hbl. lia. }
    rewrite Hhead, Hbl. simpl.
    rewrite (lookup_middle_ne h E _ o1 (S (length h)) Hne1), Hof.
    rewrite (lookup_middle_ne h E _ o1 bl Hne2), Hol. simpl.
    rewrite Hofy, Holy. simpl. rewrite !alter_middle.
    eexists (_ :: E). split; [reflexivity|].
    split; [by rewrite psize_unfold; simpl; rewrite Hlen|].
    split; [|simpl; done].
    apply laidAt_unfold. split.
    + eexists. split; [by apply list_lookup_middle|].
      unfold obj_matches. simpl. repeat split; try done.
      unfold firstY, lastY. rewrite Hlast. done.
    + cbn [laidKids p_children]. eapply laidSeq_ext; [|exact Hlaid].
      intros j Hj. apply lookup_middle_ne. lia.
  - apply Hleafcase. unfold visualLeaf, hasChildren. rewrite Hch. apply orb_true_r.
Qed.

(** * The store: [collect] *)

Lemma psize_sized n : psize (sized n) = psize n.
Proof. unfold psize. by rewrite flatten_sized, length_fmap. Qed.

Lemma kidRefs_sized ks : ∀ b, kidRefs b (sized <$> ks) = kidRefs b ks.
Proof.
  induction ks as [|k ks IH]; intros b; [done|].
  csimpl. by rewrite psize_sized, IH.
Qed.

Lemma ksize_sized (ks : list PNode) :
  length (flat_map flatten (sized <$> ks)) = length (flat_map flatten ks).
Proof.
  induction ks as [|k ks IH]; [done|].
  rewrite fmap_cons, !ksize_cons, psize_sized, IH. done.
Qed.

Lemma collect_store_children f L n pb hw :
  collect_ok f →
  hw = (calculatedWidth (p_label L) (p_type L) / Q2Qc 2)%Qc →
  Store.o_x n = Some (p_x L) → Store.o_y n = Some (p_y L) →
  ∀ ks b h ns es,
    (pb < b)%nat → Forall (fits f) ks →
    Forall (λ k, Forall collectable (flatten k)) ks →
    laidSeq (laidAt h) b ks → h !! pb = Some n →
    ∃ us h', Store.mapThreadM (Store.visitChild (Store.collect f) pb hw)
               (kidRefs b ks) (h, (ns, es)) =
               Some (us, (h', (ns ++ seq b (length (flat_map flatten ks)),
                               es ++ (liftEdge <$>
                                        flat_map (λ k, edgeTo L k :: edgesOf k) ks)))) ∧
             laidSeq (laidAt h') b (sized <$> ks) ∧ length h' = length h ∧
             ∀ j, ¬ (b ≤ j < b + length (flat_map flatten ks))%nat → h' !! j = h !! j.
Proof.
  intros Hok -> Hx Hy. induction ks as [|k ks IH]; intros b h ns es Hb Hfit Hcol Hlaid Hn.
  - exists [], h. simpl. rewrite !app_nil_r. done.
  - apply Forall_cons in Hfit as [Hfk Hfit]. apply Forall_cons in Hcol as [Hck Hcol].
    destruct Hlaid as [Hk Hks].
    pose proof Hk as [(c & Hc & Hm) _]%laidAt_unfold.
    destruct Hm as (_ & Hcl & Hct & _ & _ & Hcx & Hcy & _).
    destruct (Hok k h b ns
                (es ++ [liftEdge (edgeTo L k)]) Hfk Hck Hk)
      as (h1 & Hrun & Hlaid1 & Hlen1 & Hframe1).
    destruct (IH (b + psize k)%nat h1 (ns ++ seq b (psize k))
                (es ++ [liftEdge (edgeTo L k)] ++ (liftEdge <$> edgesOf k)))
      as (us & h2 & Hrun2 & Hlaid2 & Hlen2 & Hframe2);
      [lia | done | done | | |].
    { eapply laidSeq_ext; [|exact Hks]. intros j Hj. apply Hframe1. lia. }
    { rewrite Hframe1; [done | lia]. }
    exists (tt :: us), h2. simpl kidRefs. rewrite mapThreadM_cons.
    unfold Store.visitChild at 1. rewrite Hn, Hc, Hx, Hy, Hcx, Hcy, Hcl, Hct.
    simpl Store.num2.
    change (Store.mkEdge _ _ _ _) with (liftEdge (edgeTo L k)).
    rewrite Hrun. rewrite (assoc (++) es) in Hrun2. rewrite Hrun2.
    rewrite ksize_cons, seq_app. simpl flat_map. rewrite fmap_cons, fmap_app.
    split; [by rewrite <-!(assoc (++))|].
    split; [|split; [lia|]].
    + rewrite fmap_cons. split; [|by rewrite psize_sized].
      eapply laidAt_ext; [|exact Hlaid1]. intros j Hj. apply Hframe2.
      rewrite psize_sized in Hj. lia.
    + intros j Hj. rewrite Hframe2 by lia. apply Hframe1. lia.
Qed.

Lemma lookup_alter_eq {A} (g : A → A) (l : list A) i x :
  l !! i = Some x → alter g i l !! i = Some (g x).
Proof. intros H. by rewrite list_lookup_alter_eq, H. Qed.

Lemma obj_matches_sized pb o n :
  obj_matches pb o n →
  obj_matches pb
    (Store.set_halfWidth (calculatedWidth (Store.o_label o) (Store.o_type o) / Q2Qc 2)%Qc o)
    (sized n).
Proof.
  unfold obj_matches.
  intros (Hi & Hl & Hty & Hd & Hc & Hx & Hy & _ & Hch).
  destruct (sized_fields n) as (-> & -> & -> & -> & -> & -> & -> & ->).
  simpl. rewrite Hl, Hty. repeat split; try done.
  destruct n as [? ? ? [c|ks] ? ? ? ? ?]; simpl in *; [done|].
  by rewrite kidRefs_sized.
Qed.

(** [collect] over the store does what the pure [collect] computes. *)
Lemma collect_store f : collect_ok f.
Proof.
  induction f as [|f IH]; intros L h pb ns es Hfit Hcol Hlaid; [done|].
  apply laidAt_unfold in Hlaid as [(o & Ho & Hm) Hks].
  pose proof Hm as (_ & Hl & Hty & _ & Hc & Hx & Hy & _ & Hch).
  apply Forall_flatten in Hcol as [HcL Hcks].
  cbn [Store.collect]. rewrite Ho, Hc. cbn [default].
  set (hw := (calculatedWidth (Store.o_label o) (Store.o_type o) / Q2Qc 2)%Qc).
  set (h1 := alter (Store.set_halfWidth hw) pb h).
  assert (h1 !! pb = Some (Store.set_halfWidth hw o)) as Ho1
    by (by apply lookup_alter_eq).
  assert (length h1 = length h) as Hlen1 by apply length_alter.
  assert (∀ j, j ≠ pb → h1 !! j = h !! j) as Hframe1.
  { intros j Hj. apply list_lookup_alter_ne. congruence. }
  assert (laidAt h1 pb (sized L) ∧ laidKids L = [] →
          ∃ h', Some (tt, (h1, (ns ++ [pb], es))) =
                  Some (tt, (h', (ns ++ seq pb (psize L),
                                  es ++ (liftEdge <$> edgesOf L)))) ∧
                laidAt h' pb (sized L) ∧ length h' = length h ∧
                ∀ j, ¬ (pb ≤ j < pb + psize L)%nat → h' !! j = h !! j) as Hleafcase.
  { intros [Hl1 Hnil]. exists h1.
    rewrite psize_unfold, edgesOf_unfold, Hnil. simpl. rewrite app_nil_r.
    split; [done|]. split; [done|]. split; [done|].
    intros j Hj. apply Hframe1. lia. }
  assert (laidKids L = [] → laidAt h1 pb (sized L)) as Hlaidleaf.
  { intros Hnil. apply laidAt_unfold. rewrite laidKids_sized, Hnil. split; [|done].
    eexists. split; [exact Ho1|]. by apply obj_matches_sized. }
  unfold collectable in HcL.
  destruct (p_children L) as [c|ks] eqn:HchL.
  - assert (laidKids L = []) as Hnil by (unfold laidKids; by rewrite HchL).
    destruct HcL as [-> | Harr]; [by apply Hleafcase; auto|].
    destruct (isCollapsed L); [by apply Hleafcase; auto|].
    destruct (Store.o_children o) as [[|r rs]|] eqn:Hoc.
    + simpl. apply Hleafcase; auto.
    + destruct c as [l|]; simpl in Hch, Harr; [|done]. by subst l.
    + apply Hleafcase; auto.
  - rewrite HcL, Hch. unfold laidKids in Hks, Hcks, Hfit. simpl in Hfit.
    unfold laidKids in Hfit. rewrite HchL in Hks, Hcks, Hfit.
    destruct (collect_store_children f L (Store.set_halfWidth hw o) pb hw IH)
      with (ks := ks) (b := S pb) (h := h1) (ns := ns ++ [pb]) (es := es)
      as (us & h2 & Hrun & Hlaid2 & Hlen2 & Hframe2); try done.
    { unfold hw. by rewrite Hl, Hty. }
    { lia. }
    { eapply laidSeq_ext; [|exact Hks]. intros j Hj. apply Hframe1. lia. }
    cbn [Datatypes.id]. rewrite Hrun. exists h2.
    rewrite psize_unfold, edgesOf_unfold. unfold laidKids. rewrite HchL.
    split.
    { do 4 f_equal. rewrite <-(assoc (++)). done. }
    split; [|split; [lia|]].
    + apply laidAt_unfold. rewrite laidKids_sized. unfold laidKids. rewrite HchL.
      split; [|done]. exists (Store.set_halfWidth hw o). split.
      * rewrite Hframe2; [done | lia].
      * by apply obj_matches_sized.
    + intros j Hj. rewrite Hframe2 by lia. apply Hframe1. lia.
Qed.

(** * The store: the layout as a whole *)

Lemma stringify_frame f h r t :
  Store.stringify f h r = Some t →
  ∀ h', (∀ q o, h !! q = Some o → h' !! q = Some o) →
        Store.stringify f h' r = Some t.
Proof.
  revert r t. induction f as [|f IH]; intros r t Hs h' Hh; [done|].
  apply stringify_unfold in Hs as (o & Ho & ? & ? & ? & Hch).
  apply stringify_unfold. exists o. split; [by apply Hh|].
  repeat split; try done.
  destruct (Store.o_children o) as [rs|]; [|done].
  destruct Hch as (l & ? & Hl). exists l. split; [done|].
  eapply Forall2_impl; [exact Hl|]. intros r' c Hc. simpl in Hc. by apply IH.
Qed.

(** The object of the [j]-th node of the pre-order listing sits at
    reference [pb + j]. *)
Lemma laidAt_lookup h L :
  ∀ pb j n, laidAt h pb L → flatten L !! j = Some n →
            ∃ o, h !! (pb + j)%nat = Some o ∧ obj_matches (pb + j) o n.
Proof.
  induction L as [L IH] using PNode_nested_ind. intros pb j n Hlaid Hj.
  apply laidAt_unfold in Hlaid as [(o & Ho & Hm) Hks].
  rewrite flatten_unfold in Hj. destruct j as [|j]; simpl in Hj.
  - injection Hj as <-. exists o. by rewrite Nat.add_0_r.
  - replace (pb + S j)%nat with (S pb + j)%nat by lia.
    revert Hks j Hj. generalize (S pb).
    induction IH as [|k ks Hk _ IHks]; intros b Hks j Hj; [done|].
    destruct Hks as [Hlk Hks]. simpl in Hj.
    destruct (decide (j < psize k)%nat) as [Hlt | Hge].
    + rewrite lookup_app_l in Hj by done. by apply Hk.
    + rewrite lookup_app_r in Hj by (unfold psize in Hge; lia).
      destruct (IHks _ Hks _ Hj) as (o' & Ho' & Hm').
      fold (psize k) in Ho', Hm'.
      replace (b + psize k + (j - psize k))%nat with (b + j)%nat in * by lia.
      by exists o'.
Qed.

Lemma reduceMax_spec (F : Store.Obj → option Qc) (G : PNode → Qc)
    (h : list Store.Obj) (qs : list nat) (ns : list PNode) :
  Forall2 (λ q n, ∃ o, h !! q = Some o ∧ F o = Some (G n)) qs ns →
  ∀ a, foldl (λ m r, Store.num2 Math_max m (h !! r ≫= F)) (Some a) qs =
       Some (foldl (λ m n, Math_max m (G n)) a ns).
Proof.
  induction 1 as [|q n qs ns (o & Ho & HF) _ IH]; intros a; [done|].
  simpl. rewrite Ho. simpl. rewrite HF. simpl. apply IH.
Qed.

Lemma rightEdge_matches q o n :
  obj_matches q o n → Store.rightEdge o = Some (p_x n + halfWidthOr70 n)%Qc.
Proof.
  intros (_ & _ & _ & _ & _ & Hx & _ & Hhw & _).
  unfold Store.rightEdge, halfWidthOr70. by rewrite Hx, Hhw.
Qed.

(** C9 (the caller's tree is left alone).  Let the caller's store [h] hold
    at [r] a finite tree, which [JSON.stringify] reads as [t].  With enough
    fuel the layout over the store returns; every object of the caller's
    store is afterwards what it was before (same [id], [label], [type],
    [children], and no positioning property written), so the tree at [r]
    reads as [t] again; the references listed as nodes are all fresh, and
    the objects at them, the edges and the box are those of the pure
    [calculateLayout]. *)
Theorem layout_leaves_input_unchanged
    (h : list Store.Obj) (r : nat) (t : TreeNode) (cs : gset string)
    (fuel0 fuel : nat) :
  Store.stringify fuel0 h r = Some t → (fuel0 ≤ fuel)%nat →
  ∃ res h' pr,
    Store.calculateLayout fuel (Store.JsObject r) cs h = Some (Return (res, h')) ∧
    (∀ q o, h !! q = Some o → h' !! q = Some o) ∧
    Store.stringify fuel h' r = Some t ∧
    calculateLayout (JsObject t) cs = Return pr ∧
    Forall2 (λ q n, (length h ≤ q)%nat ∧
                    ∃ o, h' !! q = Some o ∧
                         Store.o_id o = p_id n ∧ Store.o_label o = p_label n ∧
                         Store.o_type o = p_type n ∧
                         Store.o_depth o = Some (depth n) ∧
                         Store.o_isCollapsed o = Some (isCollapsed n) ∧
                         Store.o_x o = Some (p_x n) ∧ Store.o_y o = Some (p_y n) ∧
                         Store.o_halfWidth o = halfWidth n)
      (Store.nodes res) (nodes pr) ∧
    Store.edges res = liftEdge <$> edges pr ∧
    Store.width res = Some (width pr) ∧ Store.height res = Some (height pr).
Proof.
  intros Hs0 Hfuel.
  assert (Store.stringify fuel h r = Some t) as Hs
    by (by eapply stringify_mono).
  destruct (parse_spec fuel h r t Hs h) as (cr & E1 & Hparse & Hcopy & Hraw).
  destruct (assignCoords_store cs fuel (h ++ E1) cr t Hcopy Hraw 0%nat 0%nat)
    as (E2 & Hassign & HlenE2 & Hlaid & Hfit).
  set (L := (assignCoords cs t 0 0).1) in *.
  set (pb := length (h ++ E1)) in *.
  pose proof (assignCoords_ok cs t 0 0) as Hok. fold L in Hok.
  destruct (collect_store fuel L ((h ++ E1) ++ E2) pb [] []) as (h3 & Hcollect & Hlaid3 & Hlen3 & Hframe3);
    [done | | done |].
  { eapply Forall_impl; [exact Hok|]. apply node_ok_collectable. }
  assert (∀ q o, h !! q = Some o → h3 !! q = Some o) as Hframe.
  { intros q o Hq. pose proof (lookup_lt_Some _ _ _ Hq) as Hlt.
    rewrite Hframe3 by (unfold pb; rewrite length_app; lia).
    rewrite <-(assoc (++)). by apply lookup_app_l_Some. }
  assert (Forall2 (λ q n, ∃ o, h3 !! q = Some o ∧ obj_matches q o n)
            (seq pb (psize L)) (sized <$> flatten L)) as Hobjs.
  { rewrite <-flatten_sized. apply Forall2_same_length_lookup.
    split; [by rewrite length_seq, <-psize_sized|].
    intros j q n Hq Hn. apply lookup_seq in Hq as [-> _].
    by eapply laidAt_lookup. }
  unfold Store.calculateLayout. rewrite Hs, Hparse, Hassign, Hcollect.
  eexists _, h3, _. split; [reflexivity|].
  split; [exact Hframe|]. split; [by eapply stringify_frame|].
  split; [apply calculateLayout_object|].
  cbn [Store.nodes Store.edges Store.width Store.height
       nodes edges width height layoutOf app].
  split; [|split; [done|split]].
  - apply Forall2_same_length_lookup. split; [by eapply Forall2_length|].
    intros j q n Hq Hn.
    destruct (Forall2_lookup_lr _ _ _ _ _ _ Hobjs Hq Hn) as (o & Ho & Hm).
    apply lookup_seq in Hq as [-> _].
    split; [unfold pb; rewrite length_app; lia|].
    exists o. split; [done|]. unfold obj_matches in Hm. tauto.
  - unfold Store.reduceMax.
    rewrite (reduceMax_spec Store.rightEdge (λ n, (p_x n + halfWidthOr70 n)%Qc)
               h3 _ (sized <$> flatten L)); [done|].
    eapply Forall2_impl; [exact Hobjs|]. intros q n (o & Ho & Hm).
    exists o. split; [done|]. by eapply rightEdge_matches.
  - unfold Store.reduceMax.
    rewrite (reduceMax_spec Store.o_y p_y h3 _ (sized <$> flatten L)); [done|].
    eapply Forall2_impl; [exact Hobjs|]. intros q n (o & Ho & Hm).
    exists o. split; [done|]. unfold obj_matches in Hm. tauto.
Qed.

Lemma layout_leaves_input_unchanged_witness :
  ∃ res h' pr,
    Store.calculateLayout 3 (Store.JsObject 2) ∅ caller_store = Some (Return (res, h')) ∧
    (∀ q o, caller_store !! q = Some o → h' !! q = Some o) ∧
    Store.stringify 3 h' 2 = Some scenario_A ∧
    calculateLayout (JsObject scenario_A) ∅ = Return pr ∧
    Forall2 (λ q n, (length caller_store ≤ q)%nat ∧
                    ∃ o, h' !! q = Some o ∧
                         Store.o_id o = p_id n ∧ Store.o_label o = p_label n ∧
                         Store.o_type o = p_type n ∧
                         Store.o_depth o = Some (depth n) ∧
                         Store.o_isCollapsed o = Some (isCollapsed n) ∧
                         Store.o_x o = Some (p_x n) ∧ Store.o_y o = Some (p_y n) ∧
                         Store.o_halfWidth o = halfWidth n)
      (Store.nodes res) (nodes pr) ∧
    Store.edges res = liftEdge <$> edges pr ∧
    Store.width res = Some (width pr) ∧ Store.height res = Some (height pr).
Proof.
  apply (layout_leaves_input_unchanged caller_store 2 scenario_A ∅ 2 3).
  - reflexivity.
  - lia.
Defined.

(** * Order on coordinates *)

(** Goals on the order of rationals, by linear arithmetic on their
    fractions. *)
Ltac qc_order :=
  unfold below, Qcle, Qclt, Qcdiv, Qcminus in *; simpl in *;
  rewrite ?Qred_correct in *;
  try change (/ 2)%Q with (1 # 2)%Q in *; lra.

Lemma num_of_nat_le a b : (a ≤ b)%nat → (num_of_nat a ≤ num_of_nat b)%Qc.
Proof.
  intros H. unfold num_of_nat, Qcle. simpl. rewrite <-Zle_Qle. lia.
Qed.

Lemma num_of_nat_S a : num_of_nat (S a) = (num_of_nat a + Q2Qc 1)%Qc.
Proof.
  apply Qc_is_canon. unfold num_of_nat. simpl. rewrite Qred_correct.
  rewrite <-(inject_Z_plus _ 1). f_equiv. lia.
Qed.

Lemma slotY_le a b : (a ≤ b)%nat → (slotY a ≤ slotY b)%Qc.
Proof.
  intros H%num_of_nat_le. unfold slotY. qc_order.
Qed.

Lemma slotY_lt a b : (a < b)%nat → below (slotY a) (slotY b).
Proof.
  intros H. assert (S a ≤ b)%nat as Hle%num_of_nat_le by lia.
  rewrite num_of_nat_S in Hle. unfold slotY. qc_order.
Qed.

Lemma below_trans_le a b c : (a ≤ b)%Qc → below b c → below a c.
Proof. intros. qc_order. Qed.

Lemma below_le_trans a b c : below a b → (b ≤ c)%Qc → below a c.
Proof. intros. qc_order. Qed.

Lemma mean_between (a b x z : Qc) :
  (a ≤ x)%Qc → (x ≤ z)%Qc → (z ≤ b)%Qc →
  (x ≤ (x + z) / Q2Qc 2)%Qc ∧ ((x + z) / Q2Qc 2 ≤ z)%Qc ∧
  (a ≤ (x + z) / Q2Qc 2)%Qc ∧ ((x + z) / Q2Qc 2 ≤ b)%Qc.
Proof. intros. repeat split; qc_order. Qed.

Lemma below_le a b : below a b → (a ≤ b)%Qc.
Proof. intros. qc_order. Qed.

(** * Vertical order *)

Lemma in_slots_widen a b a' b' n :
  (a' ≤ a)%nat → (b ≤ b')%nat → in_slots a b n → in_slots a' b' n.
Proof.
  intros Ha Hb [H1 H2]. split.
  - etrans; [apply slotY_le, Ha | done].
  - etrans; [done | apply slotY_le; lia].
Qed.

Lemma in_slots_below a b c n m :
  (a < b)%nat → in_slots a b n → in_slots b c m → below (p_y n) (p_y m).
Proof.
  intros Hab [_ Hn] [Hm _].
  eapply below_le_trans; [|exact Hm].
  eapply below_trans_le; [exact Hn|]. apply slotY_lt. lia.
Qed.

Lemma StronglySorted_app_2 {A} (R : relation A) l1 l2 :
  StronglySorted R l1 → StronglySorted R l2 →
  (∀ x y, x ∈ l1 → y ∈ l2 → R x y) → StronglySorted R (l1 ++ l2).
Proof.
  intros H1 H2 H. induction H1 as [|x l1 Hl1 IH Hx]; simpl; [done|].
  constructor.
  - apply IH. intros. apply H; [by right | done].
  - apply Forall_app. split; [done|].
    apply Forall_forall. intros. apply H; [by left | done].
Qed.

Lemma stacked_app dd a b c l1 l2 :
  (a < b)%nat → (b ≤ c)%nat →
  stacked dd a b l1 → stacked dd b c l2 → stacked dd a c (l1 ++ l2).
Proof.
  intros Hab Hbc [Hr1 Hs1] [Hr2 Hs2]. split.
  - apply Forall_app. split.
    + eapply Forall_impl; [exact Hr1|]. intros n. apply in_slots_widen; lia.
    + eapply Forall_impl; [exact Hr2|]. intros n. apply in_slots_widen; lia.
  - rewrite filter_app, fmap_app. apply StronglySorted_app_2; [done..|].
    intros x y (n & -> & Hn)%list_elem_of_fmap (m & -> & Hm)%list_elem_of_fmap.
    apply list_elem_of_filter in Hn as [_ Hn], Hm as [_ Hm].
    rewrite Forall_forall in Hr1, Hr2.
    eapply in_slots_below; [exact Hab | by apply Hr1 | by apply Hr2].
Qed.

Lemma filter_none {A} (P : A → Prop) `{∀ x, Decision (P x)} (l : list A) :
  Forall (λ x, ¬ P x) l → filter P l = [].
Proof.
  induction 1 as [|x l Hx _ IH]; [done|]. by rewrite filter_cons_False.
Qed.

Lemma mapThread_stacked dd (f : TreeNode → nat → PNode * nat) l :
  Forall (λ c, ∀ cur, (cur < (f c cur).2)%nat ∧
                      stacked dd cur (f c cur).2 (flatten (f c cur).1)) l →
  ∀ cur, (cur ≤ (mapThread f l cur).2)%nat ∧
         (l ≠ [] → (cur < (mapThread f l cur).2)%nat) ∧
         stacked dd cur (mapThread f l cur).2
           (flat_map flatten (mapThread f l cur).1).
Proof.
  induction 1 as [|c l Hc _ IH]; intros cur.
  - simpl. split; [lia|]. split; [done|]. split; simpl; constructor.
  - rewrite mapThread_cons. simpl.
    destruct (Hc cur) as [Hlt Hst]. destruct (IH (f c cur).2) as (Hle & _ & Hst').
    split; [lia|]. split; [lia|]. eapply stacked_app; eauto.
Qed.

Lemma mapThread_roots (f : TreeNode → nat → PNode * nat) l :
  Forall (λ c, ∀ cur, (cur < (f c cur).2)%nat ∧
                      in_slots cur (f c cur).2 (f c cur).1) l →
  ∀ cur, (cur ≤ (mapThread f l cur).2)%nat ∧
         Forall (in_slots cur (mapThread f l cur).2) (mapThread f l cur).1 ∧
         StronglySorted below (p_y <$> (mapThread f l cur).1).
Proof.
  induction 1 as [|c l Hc _ IH]; intros cur.
  - simpl. split; [lia|]. split; constructor.
  - rewrite mapThread_cons. simpl.
    destruct (Hc cur) as [Hlt Hin]. destruct (IH (f c cur).2) as (Hle & Hall & Hs).
    split; [lia|]. split.
    + constructor; [eapply in_slots_widen; [| |exact Hin]; lia|].
      eapply Forall_impl; [exact Hall|]. intros n. apply in_slots_widen; lia.
    + constructor; [done|]. apply Forall_fmap.
      eapply Forall_impl; [exact Hall|]. intros n Hn. simpl.
      eapply in_slots_below; [exact Hlt | exact Hin | exact Hn].
Qed.

Lemma sorted_head_le_last (l : list PNode) :
  StronglySorted below (p_y <$> l) → l ≠ [] → (firstY l ≤ lastY l)%Qc.
Proof.
  destruct l as [|a l]; [done|]. intros Hs _. unfold firstY, lastY.
  simpl. destruct (last (a :: l)) as [b|] eqn:Hb; [|by rewrite last_cons in Hb; destruct (last l)].
  simpl. apply last_Some in Hb as [l' Hl'].
  destruct l' as [|a' l']; simplify_eq/=; [done|].
  apply StronglySorted_inv in Hs as [_ Hs]. rewrite Forall_fmap, Forall_forall in Hs.
  apply below_le, (Hs b). set_solver.
Qed.

Lemma firstY_lastY_in_slots a b (l : list PNode) :
  Forall (in_slots a b) l → l ≠ [] →
  (slotY a ≤ firstY l)%Qc ∧ (lastY l ≤ slotY (b - 1))%Qc.
Proof.
  intros Hall Hne. rewrite Forall_forall in Hall. unfold firstY, lastY. split.
  - destruct l as [|x l]; [done|]. simpl. apply Hall. by left.
  - destruct (last l) as [y|] eqn:Hy; [|by apply last_None in Hy].
    simpl. apply Hall. apply last_Some in Hy as [l' ->]. set_solver.
Qed.

Lemma assignCoords_depth_ge cs t :
  ∀ d cur, Forall (λ n, (d ≤ depth n)%nat) (flatten (assignCoords cs t d cur).1).
Proof.
  induction t as [i lbl ty ch IH] using TreeNode_nested_ind. intros d cur.
  destruct (visualLeaf cs (mkTreeNode i lbl ty ch)) eqn:Hleaf.
  - rewrite assignCoords_leaf by done. simpl. by repeat constructor.
  - rewrite assignCoords_inner by done. cbn -[mapThread].
    constructor; [simpl; lia|]. apply Forall_flat_map.
    apply (mapThread_Forall (λ c cur, assignCoords cs c (S d) cur)).
    unfold kids; simpl. eapply Forall_impl; [exact IH|]. simpl.
    intros c Hc s. eapply Forall_impl; [apply Hc|]. simpl. lia.
Qed.

Lemma assignCoords_stacked cs dd t :
  ∀ d cur,
    (cur < (assignCoords cs t d cur).2)%nat ∧
    stacked dd cur (assignCoords cs t d cur).2 (flatten (assignCoords cs t d cur).1) ∧
    Forall kids_stacked (flatten (assignCoords cs t d cur).1).
Proof.
  induction t as [i lbl ty ch IH] using TreeNode_nested_ind. intros d cur.
  destruct (visualLeaf cs (mkTreeNode i lbl ty ch)) eqn:Hleaf.
  - rewrite assignCoords_leaf by done. simpl. split; [lia|]. split; [split|].
    + constructor; [|constructor]. split; simpl; [done|].
      by replace (cur - 0)%nat with cur by lia.
    + rewrite filter_cons. destruct (decide _); simpl; repeat constructor.
    + constructor; [|constructor]. split; simpl; [constructor | done].
  - pose proof Hleaf as (_ & Hne & _)%visualLeaf_false.
    rewrite assignCoords_inner by done. cbn -[mapThread].
    set (f := λ c cur, assignCoords cs c (S d) cur).
    set (l := kids (mkTreeNode i lbl ty ch)) in *.
    change (arrayOf ch) with l in IH.
    assert (Forall (λ c, ∀ cur, (cur < (f c cur).2)%nat ∧
              stacked dd cur (f c cur).2 (flatten (f c cur).1)) l) as H1.
    { eapply Forall_impl; [exact IH|]. intros c Hc s.
      destruct (Hc (S d) s) as (? & ? & _). done. }
    assert (Forall (λ c, ∀ cur, (cur < (f c cur).2)%nat ∧
              in_slots cur (f c cur).2 (f c cur).1) l) as H2.
    { eapply Forall_impl; [exact H1|]. intros c Hc s.
      destruct (Hc s) as (? & [Hin _]). split; [done|].
      rewrite flatten_unfold in Hin. by apply Forall_cons in Hin as [? _]. }
    destruct (mapThread_stacked dd f l H1 cur) as (Hle & Hlt & Hr & Hs).
    destruct (mapThread_roots f l H2 cur) as (_ & Hroots & Hsorted).
    specialize (Hlt Hne).
    assert ((mapThread f l cur).1 ≠ []) as Hne'.
    { intros Heq%(f_equal length). rewrite mapThread_length in Heq.
      by destruct l. }
    destruct (firstY_lastY_in_slots _ _ _ Hroots Hne') as [Hf Hl].
    pose proof (sorted_head_le_last _ Hsorted Hne') as Hfl.
    destruct (mean_between _ _ _ _ Hf Hfl Hl) as (Hm1 & Hm2 & Hm3 & Hm4).
    split; [done|]. split; [split|].
    + constructor; [by split|done].
    + rewrite filter_cons. cbn -[mapThread]. destruct (decide (d = dd)) as [->|Hd].
      * rewrite filter_none; [repeat constructor|].
        apply Forall_flat_map.
        apply (mapThread_Forall (λ c cur, assignCoords cs c (S dd) cur)).
        apply Forall_forall. intros c _ s.
        eapply Forall_impl; [apply assignCoords_depth_ge|]. simpl. lia.
      * done.
    + constructor.
      * split; cbn -[mapThread]; [done|]. intros _. by split.
      * apply Forall_flat_map.
        apply (mapThread_Forall (λ c cur, assignCoords cs c (S d) cur)).
        eapply Forall_impl; [exact IH|]. intros c Hc s.
        by destruct (Hc (S d) s) as (_ & _ & ?).
Qed.

(** * The canvas *)

Lemma level_sized dd (l : list PNode) :
  p_y <$> filter (λ n, depth n = dd) (sized <$> l) =
  p_y <$> filter (λ n, depth n = dd) l.
Proof.
  induction l as [|a l IH]; [done|]. csimpl. rewrite !filter_cons.
  destruct (sized_fields a) as (_ & _ & _ & Hd & _ & _ & Hy & _).
  rewrite Hd. destruct (decide (depth a = dd)); csimpl; by rewrite ?Hy, IH.
Qed.

Lemma foldl_max_ge {A} (g : A → Qc) l :
  ∀ a, (a ≤ foldl (λ m n, Math_max m (g n)) a l)%Qc ∧
       Forall (λ n, (g n ≤ foldl (λ m n, Math_max m (g n)) a l)%Qc) l.
Proof.
  induction l as [|x l IH]; intros a; simpl.
  - split; [apply Qcle_refl | constructor].
  - destruct (IH (Math_max a (g x))) as [H1 H2].
    destruct (Math_max_spec a (g x)) as (Ha & Hx & _).
    split; [by etrans|]. constructor; [by etrans | done].
Qed.

Lemma foldl_max_in {A} (g : A → Qc) l :
  ∀ a, foldl (λ m n, Math_max m (g n)) a l = a ∨
       ∃ n, n ∈ l ∧ foldl (λ m n, Math_max m (g n)) a l = g n.
Proof.
  induction l as [|x l IH]; intros a; simpl; [by left|].
  destruct (IH (Math_max a (g x))) as [H | (n & Hn & H)].
  - destruct (Math_max_spec a (g x)) as (_ & _ & [Ha | Hx]).
    + left. by rewrite H.
    + right. exists x. split; [by left | by rewrite H].
  - right. exists n. split; [by right | done].
Qed.

Lemma foldl_max_eq {A} (g : A → Qc) l a M :
  (a ≤ M)%Qc → Forall (λ n, (g n ≤ M)%Qc) l → (∃ n, n ∈ l ∧ g n = M) →
  foldl (λ m n, Math_max m (g n)) a l = M.
Proof.
  intros Ha Hall (n & Hn & HM). apply Qcle_antisym.
  - destruct (foldl_max_in g l a) as [-> | (m & Hm & ->)]; [done|].
    rewrite Forall_forall in Hall. by apply Hall.
  - destruct (foldl_max_ge g l a) as [_ Hge]. rewrite Forall_forall in Hge.
    rewrite <-HM. by apply Hge.
Qed.

Lemma calculatedWidth_half_pos lbl ty :
  (Q2Qc 70 ≤ calculatedWidth lbl ty / Q2Qc 2)%Qc.
Proof.
  unfold calculatedWidth.
  destruct (Math_max_spec (Q2Qc 140)
              (num_of_nat (String.length lbl) * charWidth ty + Q2Qc 30)%Qc)
    as (H & _ & _).
  revert H. generalize (Math_max (Q2Qc 140)
    (num_of_nat (String.length lbl) * charWidth ty + Q2Qc 30)%Qc).
  intros w H. qc_order.
Qed.

Lemma halfWidthOr70_sized n :
  halfWidthOr70 (sized n) = (calculatedWidth (p_label n) (p_type n) / Q2Qc 2)%Qc.
Proof.
  unfold halfWidthOr70. destruct (sized_fields n) as (_&_&_&_&_&_&_& ->).
  destruct (decide _) as [H0|]; [|done].
  pose proof (calculatedWidth_half_pos (p_label n) (p_type n)) as H.
  rewrite H0 in H. exfalso. revert H. clear. intros H. qc_order.
Qed.

Lemma slotY_0 : slotY 0 = Q2Qc 50.
Proof. apply Qc_is_canon. vm_compute. reflexivity. Qed.

Lemma depthX_ge d : (Q2Qc 100 ≤ depthX d)%Qc.
Proof.
  pose proof (num_of_nat_le 0 d ltac:(lia)) as H. unfold depthX.
  revert H. generalize (num_of_nat d). intros q H.
  assert (num_of_nat 0 = Q2Qc 0) as H0 by (apply Qc_is_canon; vm_compute; reflexivity).
  rewrite H0 in H. qc_order.
Qed.

Lemma depthX_S d : depthX (S d) = (depthX d + Q2Qc 300)%Qc.
Proof. unfold depthX. rewrite num_of_nat_S. ring. Qed.

Lemma filter_sized_leaf cs (l : list PNode) :
  filter (λ n, visualLeaf cs (forget n) = true) (sized <$> l) =
  sized <$> filter (leafP cs) l.
Proof.
  induction l as [|a l IH]; [done|]. csimpl. rewrite !filter_cons.
  unfold leafP at 1. rewrite IH.
  destruct (decide (visualLeaf cs (forget (sized a)) = true)) as [H1|H1];
    destruct (decide (visualLeaf cs (forget a) = true)) as [H2|H2];
    try done; rewrite forget_sized in H1; done.
Qed.

(** X1 (columns).  Nodes listed at the same depth share a column and are
    listed from top to bottom: each lies 80 or more below the one listed
    before it at that depth, so that boxes of height 50 in a column do not
    overlap. *)
Theorem layout_columns (t : TreeNode) (cs : gset string) :
  ∃ r, calculateLayout (JsObject t) cs = Return r ∧
       ∀ d, Forall (λ n, p_x n = (num_of_nat d * Q2Qc 300 + Q2Qc 100)%Qc)
              (filter (λ n, depth n = d) (nodes r)) ∧
            StronglySorted (λ a b, (a + Q2Qc 80 ≤ b)%Qc)
              (p_y <$> filter (λ n, depth n = d) (nodes r)).
Proof.
  eexists. split; [apply calculateLayout_object|]. intros d. simpl. split.
  - apply Forall_forall. intros n [Hd Hn]%list_elem_of_filter.
    apply list_elem_of_fmap in Hn as (m & -> & Hm).
    pose proof (assignCoords_ok cs t 0 0) as Hok.
    rewrite Forall_forall in Hok. destruct (Hok m Hm) as (_ & Hx & _).
    destruct (sized_fields m) as (_ & _ & _ & Hd' & _ & -> & _).
    rewrite Hd' in Hd. by rewrite Hx, Hd.
  - rewrite level_sized.
    by destruct (assignCoords_stacked cs d t 0 0) as (_ & [_ Hs] & _).
Qed.

(** X2 (families).  The processed children of a listed node stand one
    column to the right of it, are stacked from top to bottom in child
    order, 80 or more apart, and the node lies vertically between its first
    and its last child. *)
Theorem layout_families (t : TreeNode) (cs : gset string) :
  ∃ r, calculateLayout (JsObject t) cs = Return r ∧
       Forall (λ n,
         Forall (λ k, depth k = S (depth n) ∧ p_x k = (p_x n + Q2Qc 300)%Qc)
           (laidKids n) ∧
         StronglySorted (λ a b, (a + Q2Qc 80 ≤ b)%Qc) (p_y <$> laidKids n) ∧
         ∀ firstChild lastChild,
           head (laidKids n) = Some firstChild →
           last (laidKids n) = Some lastChild →
           (p_y firstChild ≤ p_y n)%Qc ∧ (p_y n ≤ p_y lastChild)%Qc)
         (nodes r).
Proof.
  eexists. split; [apply calculateLayout_object|]. simpl.
  set (L := (assignCoords cs t 0 0).1).
  pose proof (assignCoords_ok cs t 0 0) as Hok. fold L in Hok.
  destruct (assignCoords_stacked cs 0 t 0 0) as (_ & _ & Hks). fold L in Hks.
  rewrite Forall_forall in Hok, Hks.
  apply Forall_fmap, Forall_forall. intros n Hn. simpl.
  rewrite laidKids_sized.
  destruct (sized_fields n) as (_ & _ & _ & Hd & _ & Hx & Hy & _).
  rewrite Hd, Hx, Hy. destruct (Hks n Hn) as [Hsorted Hbetween].
  split; [|split].
  - apply Forall_fmap, Forall_forall. intros k Hk. simpl.
    destruct (sized_fields k) as (_ & _ & _ & -> & _ & -> & _).
    pose proof (elem_of_flatten_kids L n k Hn Hk) as HkL.
    destruct (Hok n Hn) as (_ & Hxn & _ & Hch).
    destruct (Hok k HkL) as (_ & Hxk & _).
    unfold laidKids in Hk. destruct (p_children n) as [|ks]; [by apply elem_of_nil in Hk|].
    destruct Hch as (_ & _ & Hdk). rewrite Forall_forall in Hdk.
    rewrite Hxk, Hxn, (Hdk k Hk). split; [done | apply depthX_S].
  - rewrite <-list_fmap_compose.
    erewrite list_fmap_ext; [exact Hsorted|]. intros _ k _. simpl.
    by destruct (sized_fields k) as (_ & _ & _ & _ & _ & _ & -> & _).
  - intros f l Hf Hl.
    assert (laidKids n ≠ []) as Hne.
    { intros Hnil. by rewrite Hnil in Hf. }
    destruct (Hbetween Hne) as [H1 H2]. unfold firstY, lastY in H1, H2.
    rewrite fmap_last in Hl.
    assert (head (sized <$> laidKids n) = sized <$> head (laidKids n)) as Hh
      by by destruct (laidKids n).
    rewrite Hh in Hf.
    destruct (head (laidKids n)) as [f0|]; [|done].
    destruct (last (laidKids n)) as [l0|]; [|done].
    simpl in *. simplify_eq.
    destruct (sized_fields f0) as (_ & _ & _ & _ & _ & _ & -> & _).
    destruct (sized_fields l0) as (_ & _ & _ & _ & _ & _ & -> & _). done.
Qed.

(** X3 (canvas).  Every listed node carries its half width, which is 70 or
    more; its centre is at [x ≥ 100], [y ≥ 50], and the canvas extends 200
    or more beyond its right border and beyond its centre line. *)
Theorem layout_canvas (t : TreeNode) (cs : gset string) :
  ∃ r, calculateLayout (JsObject t) cs = Return r ∧
       Forall (λ n, ∃ w, halfWidth n = Some w ∧
                         w = (calculatedWidth (p_label n) (p_type n) / Q2Qc 2)%Qc ∧
                         (Q2Qc 70 ≤ w)%Qc ∧
                         (Q2Qc 100 ≤ p_x n)%Qc ∧ (Q2Qc 50 ≤ p_y n)%Qc ∧
                         (p_x n + w + Q2Qc 200 ≤ width r)%Qc ∧
                         (p_y n + Q2Qc 200 ≤ height r)%Qc)
         (nodes r).
Proof.
  eexists. split; [apply calculateLayout_object|].
  set (L := (assignCoords cs t 0 0).1).
  pose proof (assignCoords_ok cs t 0 0) as Hok. fold L in Hok.
  destruct (assignCoords_stacked cs 0 t 0 0) as (_ & [Hin _] & _). fold L in Hin.
  rewrite Forall_forall in Hok, Hin.
  unfold layoutOf. cbn [nodes width height].
  set (ns := sized <$> flatten L).
  destruct (foldl_max_ge (λ n, (p_x n + halfWidthOr70 n)%Qc) ns 0%Qc) as [_ HX].
  destruct (foldl_max_ge p_y ns 0%Qc) as [_ HY].
  rewrite Forall_forall in HX, HY.
  apply Forall_forall. intros n Hn. specialize (HX n Hn). specialize (HY n Hn).
  apply list_elem_of_fmap in Hn as (m & -> & Hm).
  rewrite halfWidthOr70_sized in HX.
  destruct (sized_fields m) as (_ & Hl & Hty & _ & _ & Hx & Hy & Hw).
  rewrite Hl, Hty, Hx, Hy, Hw in *.
  eexists. split; [done|]. split; [done|].
  pose proof (calculatedWidth_half_pos (p_label m) (p_type m)) as Hpos.
  destruct (Hok m Hm) as (_ & Hxm & _). destruct (Hin m Hm) as [Hym _].
  rewrite slotY_0 in Hym. pose proof (depthX_ge (depth m)) as Hxge.
  rewrite <-Hxm in Hxge.
  revert HX HY Hpos.
  generalize (foldl (λ m n, Math_max m (p_x n + halfWidthOr70 n)%Qc) 0%Qc ns).
  generalize (foldl (λ m n, Math_max m (p_y n)) 0%Qc ns).
  generalize (calculatedWidth (p_label m) (p_type m) / Q2Qc 2)%Qc.
  intros w maxY maxX HX HY Hpos.
  destruct (Math_max_spec (Q2Qc 800) (maxX + Q2Qc 200)%Qc) as (_ & HW & _).
  destruct (Math_max_spec (Q2Qc 600) (maxY + Q2Qc 200)%Qc) as (_ & HH & _).
  revert HW HH.
  generalize (Math_max (Q2Qc 800) (maxX + Q2Qc 200)%Qc).
  generalize (Math_max (Q2Qc 600) (maxY + Q2Qc 200)%Qc).
  intros. repeat split; try done; qc_order.
Qed.

Lemma layoutOf_height cs t :
  height (layoutOf (assignCoords cs t 0 0).1) =
    Math_max (Q2Qc 600) (num_of_nat (getLeafCount cs t) * Q2Qc 80 + Q2Qc 170)%Qc.
Proof.
  set (L := (assignCoords cs t 0 0).1).
  destruct (assignCoords_slots cs t 0 0) as [Hys Hcnt].
  destruct (assignCoords_stacked cs 0 t 0 0) as (Hpos & [Hin _] & _).
  rewrite assignCoords_counter in Hcnt, Hpos, Hin. simpl in Hcnt, Hpos, Hin.
  fold L in Hys, Hcnt, Hin.
  unfold layoutOf. cbn [nodes height]. f_equal.
  set (K := getLeafCount cs t) in *.
  rewrite (foldl_max_eq p_y _ 0%Qc (slotY (K - 1))).
  - destruct K as [|k]; [lia|]. replace (S k - 1)%nat with k by lia.
    unfold slotY. rewrite num_of_nat_S. generalize (num_of_nat k). intros q.
    apply Qc_is_canon. simpl. rewrite ?Qred_correct. ring.
  - pose proof (slotY_le 0 (K - 1) ltac:(lia)) as H. rewrite slotY_0 in H.
    revert H. generalize (slotY (K - 1)). intros q H. qc_order.
  - apply Forall_fmap. eapply Forall_impl; [exact Hin|]. intros n [_ Hn].
    simpl. by destruct (sized_fields n) as (_ & _ & _ & _ & _ & _ & -> & _).
  - assert ((p_y <$> filter (leafP cs) (flatten L)) !! (K - 1)%nat
            = Some (slotY (K - 1))) as Hl.
    { rewrite Hys, list_lookup_fmap, <-Hcnt, lookup_seq_lt by lia. done. }
    rewrite list_lookup_fmap in Hl.
    destruct (filter (leafP cs) (flatten L) !! (K - 1)%nat) as [n|] eqn:Hn; [|done].
    simpl in Hl. apply list_elem_of_lookup_2, list_elem_of_filter in Hn as [_ Hn].
    exists (sized n). split; [by apply list_elem_of_fmap_2|].
    destruct (sized_fields n) as (_ & _ & _ & _ & _ & _ & -> & _). congruence.
Qed.

(** X4 (height).  The layout lists as many visual leaves as the local
    function [getLeafCount] counts, and the height of the canvas is
    [max 600 (80 * getLeafCount + 170)]. *)
Theorem layout_height (t : TreeNode) (cs : gset string) :
  ∃ r, calculateLayout (JsObject t) cs = Return r ∧
       length (filter (λ n, visualLeaf cs (forget n) = true) (nodes r)) =
         getLeafCount cs t ∧
       height r =
         Math_max (Q2Qc 600) (num_of_nat (getLeafCount cs t) * Q2Qc 80 + Q2Qc 170)%Qc.
Proof.
  eexists. split; [apply calculateLayout_object|].
  split; [|apply layoutOf_height].
  destruct (assignCoords_slots cs t 0 0) as [_ Hcnt].
  rewrite assignCoords_counter in Hcnt. simpl in Hcnt.
  cbn [layoutOf nodes]. by rewrite filter_sized_leaf, length_fmap, <-Hcnt.
Qed.

(** * Collapsing and expanding *)

Lemma visibleb_anti cs cs' t p :
  cs ⊆ cs' → visibleb cs' t p = true → visibleb cs t p = true.
Proof.
  intros Hsub. revert t. induction p as [|i p IH]; intros t; simpl; [done|].
  rewrite !andb_true_iff, !negb_true_iff, !bool_decide_eq_false.
  intros [Hid Hc]. split; [set_solver|].
  destruct (kids t !! i) as [c|]; [by apply IH | done].
Qed.

Lemma sublist_filter_impl {A} (P Q : A → Prop) `{∀ x, Decision (P x)}
    `{∀ x, Decision (Q x)} (l : list A) :
  (∀ x, P x → Q x) → filter P l `sublist_of` filter Q l.
Proof.
  intros HPQ. induction l as [|a l IH]; [done|].
  rewrite !filter_cons. destruct (decide (P a)) as [HP|HP].
  - rewrite decide_True by auto. by apply sublist_skip.
  - destruct (decide (Q a)); [by apply sublist_cons | done].
Qed.

Lemma visible_paths_anti cs cs' t :
  cs ⊆ cs' → visible_paths cs' t `sublist_of` visible_paths cs t.
Proof.
  intros Hsub. apply sublist_filter_impl. intros p. by apply visibleb_anti.
Qed.

Lemma sublist_omap {A B} (f : A → option B) (l1 l2 : list A) :
  l1 `sublist_of` l2 → omap f l1 `sublist_of` omap f l2.
Proof.
  induction 1 as [|x l1 l2 _ IH|x l1 l2 _ IH]; csimpl; [done| |].
  - destruct (f x); [by apply sublist_skip | done].
  - destruct (f x); [by apply sublist_cons | done].
Qed.

Lemma Forall2_omap {A B} (f : A → option B) (l : list A) (k : list B) :
  Forall2 (λ a b, f a = Some b) l k → omap f l = k.
Proof.
  induction 1 as [|a b l k Hab _ IH]; csimpl; [done|]. by rewrite Hab, IH.
Qed.

(** The listed nodes, with the positioning fields erased, are the nodes at
    the visible positions. *)
Lemma listed_nodes cs t :
  forget <$> nodes (layoutOf (assignCoords cs t 0 0).1) =
  omap (node_at t) (visible_paths cs t).
Proof.
  symmetry. apply Forall2_omap, Forall2_fmap_r.
  eapply Forall2_impl; [apply layout_positions|]. simpl. by intros p n (_ & ? & _).
Qed.

(** X5 (collapsing more shows less).  When the collapsed set grows, the
    layout lists a subsequence of what it listed before: no node appears,
    and the nodes that stay keep their order. *)
Theorem layout_anti_monotone (t : TreeNode) (cs cs' : gset string) :
  cs ⊆ cs' →
  ∃ r r', calculateLayout (JsObject t) cs = Return r ∧
          calculateLayout (JsObject t) cs' = Return r' ∧
          visible_paths cs' t `sublist_of` visible_paths cs t ∧
          forget <$> nodes r = omap (node_at t) (visible_paths cs t) ∧
          forget <$> nodes r' = omap (node_at t) (visible_paths cs' t) ∧
          forget <$> nodes r' `sublist_of` forget <$> nodes r ∧
          (length (nodes r') ≤ length (nodes r))%nat.
Proof.
  intros Hsub. do 2 eexists.
  split; [apply calculateLayout_object|]. split; [apply calculateLayout_object|].
  pose proof (visible_paths_anti cs cs' t Hsub) as Hvis.
  split; [done|]. split; [apply listed_nodes|]. split; [apply listed_nodes|].
  assert (forget <$> nodes (layoutOf (assignCoords cs' t 0 0).1) `sublist_of`
          forget <$> nodes (layoutOf (assignCoords cs t 0 0).1)) as Hs.
  { rewrite !listed_nodes. by apply sublist_omap. }
  split; [done|]. apply sublist_length in Hs. by rewrite !length_fmap in Hs.
Qed.

Lemma layout_anti_monotone_witness :
  ∃ r r', calculateLayout (JsObject scenario_B) ∅ = Return r ∧
          calculateLayout (JsObject scenario_B) {[ "C1"%string ]} = Return r' ∧
          visible_paths {[ "C1"%string ]} scenario_B
            `sublist_of` visible_paths ∅ scenario_B ∧
          forget <$> nodes r = omap (node_at scenario_B) (visible_paths ∅ scenario_B) ∧
          forget <$> nodes r' =
            omap (node_at scenario_B) (visible_paths {[ "C1"%string ]} scenario_B) ∧
          forget <$> nodes r' `sublist_of` forget <$> nodes r ∧
          (length (nodes r') ≤ length (nodes r))%nat.
Proof.
  apply (layout_anti_monotone scenario_B ∅ {[ "C1"%string ]}).
  apply (bool_decide_unpack _). vm_compute. exact I.
Defined.

(** X6 (toggles commute).  Toggling two ids gives the same collapsed set,
    hence the same layout, in either order. *)
Theorem toggle_commute (i j : string) (s : gset string) (root : JsRoot) :
  handleToggle i (handleToggle j s) = handleToggle j (handleToggle i s) ∧
  calculateLayout root (handleToggle i (handleToggle j s)) =
    calculateLayout root (handleToggle j (handleToggle i s)).
Proof.
  assert (handleToggle i (handleToggle j s) = handleToggle j (handleToggle i s))
    as Heq; [|by rewrite Heq].
  apply set_eq. intros k.
  pose proof (elem_of_toggle i k (handleToggle j s)) as H1.
  pose proof (elem_of_toggle j k s) as H2.
  pose proof (elem_of_toggle j k (handleToggle i s)) as H3.
  pose proof (elem_of_toggle i k s) as H4.
  destruct (decide (k = i)); destruct (decide (k = j)); tauto.
Qed.

Lemma NoDup_flat_map_disjoint {A B} (f : A → list B) (l : list A) i j a b x :
  NoDup (flat_map f l) → l !! i = Some a → l !! j = Some b →
  x ∈ f a → x ∈ f b → i = j.
Proof.
  revert i j. induction l as [|c l IH]; intros i j Hnd Hi Hj Ha Hb; [done|].
  simpl in Hnd. apply NoDup_app in Hnd as (_ & Hdis & Hnd).
  assert (∀ k d, l !! k = Some d → x ∈ f d → x ∈ flat_map f l) as Hin.
  { intros k d Hk Hd. apply list_elem_of_In, in_flat_map. exists d.
    split; apply list_elem_of_In; [by eapply list_elem_of_lookup_2 | done]. }
  destruct i as [|i], j as [|j]; simpl in *; simplify_eq; try done.
  - exfalso. eapply Hdis; [exact Ha | by eapply Hin].
  - exfalso. eapply Hdis; [exact Hb | by eapply Hin].
  - f_equal. by eapply IH.
Qed.

Lemma unique_ids_kid t k c : unique_ids t → kids t !! k = Some c → unique_ids c.
Proof.
  unfold unique_ids. rewrite ids_unfold. intros [_ Hnd]%NoDup_cons Hk.
  apply list_elem_of_lookup_2, list_elem_of_split in Hk as (l1 & l2 & Heq).
  rewrite Heq, flat_map_app in Hnd. simpl in Hnd.
  apply NoDup_app in Hnd as (_ & _ & Hnd). by apply NoDup_app in Hnd as (? & _).
Qed.

(** With unique ids, a node's id determines its position. *)
Lemma unique_ids_position t p q n m :
  unique_ids t → node_at t p = Some n → node_at t q = Some m →
  id n = id m → p = q.
Proof.
  revert t q. induction p as [|i p IH]; intros t q Hu Hn Hm Heq.
  - destruct q as [|j q]; [done|]. simpl in Hn. simplify_eq.
    exfalso. by eapply (unique_ids_below n (j :: q) m).
  - destruct q as [|j q].
    + simpl in Hm. simplify_eq.
      exfalso. by eapply (unique_ids_below m (i :: p) n).
    + simpl in Hn, Hm.
      destruct (kids t !! i) as [a|] eqn:Ha; [simpl in Hn|done].
      destruct (kids t !! j) as [b|] eqn:Hb; [simpl in Hm|done].
      assert (i = j) as <-.
      { pose proof Hu as Hu'. unfold unique_ids in Hu'. rewrite ids_unfold in Hu'.
        apply NoDup_cons in Hu' as [_ Hnd].
        eapply (NoDup_flat_map_disjoint ids (kids t) i j a b (id n)); try done.
        - by eapply node_at_ids.
        - rewrite Heq. by eapply node_at_ids. }
      simplify_eq. f_equal.
      apply (IH a q); [by eapply unique_ids_kid | done..].
Qed.

Lemma listed_at cs t p :
  p ∈ visible_paths cs t →
  ∃ n, n ∈ nodes (layoutOf (assignCoords cs t 0 0).1) ∧
       node_at t p = Some (forget n) ∧ depth n = length p.
Proof.
  intros (i & Hi)%list_elem_of_lookup_1.
  destruct (Forall2_lookup_l _ _ _ _ _ (layout_positions cs t) Hi)
    as (n & Hn & _ & ? & ?).
  exists n. split; [by eapply list_elem_of_lookup_2 | done].
Qed.

(** X7 (expanding).  Toggling the id of a listed, collapsed node brings
    every child of that node into the listing, one level below it, and
    removes nothing from the listing. *)
Theorem expand_shows_children (t : TreeNode) (cs : gset string) (p : path)
    (c : TreeNode) :
  node_at t p = Some c → p ∈ visible_paths cs t → id c ∈ cs →
  ∃ r r', calculateLayout (JsObject t) cs = Return r ∧
          calculateLayout (JsObject t) (handleToggle (id c) cs) = Return r' ∧
          forget <$> nodes r `sublist_of` forget <$> nodes r' ∧
          ∀ k c', kids c !! k = Some c' →
                  p ++ [k] ∈ visible_paths (handleToggle (id c) cs) t ∧
                  ∃ n, n ∈ nodes r' ∧ forget n = c' ∧ depth n = S (length p).
Proof.
  intros Hc Hp Hin. do 2 eexists.
  split; [apply calculateLayout_object|]. split; [apply calculateLayout_object|].
  set (cs' := handleToggle (id c) cs).
  assert (cs' ⊆ cs) as Hsub.
  { intros j Hj. apply elem_of_toggle in Hj. case_decide; [by subst | done]. }
  split.
  { rewrite !listed_nodes. by apply sublist_omap, visible_paths_anti. }
  intros k c' Hk.
  assert (p ++ [k] ∈ visible_paths cs' t) as Hvis.
  { apply elem_of_visible_paths. split.
    - rewrite node_at_snoc, Hc. simpl. by rewrite Hk.
    - apply elem_of_visible_paths in Hp as [_ Hanc].
      intros q n Hq Hne Hn Hid. apply prefix_snoc_strict in Hq; [|done].
      destruct (decide (q = p)) as [->|Hqp].
      + assert (n = c) as -> by congruence. unfold cs' in Hid.
        apply elem_of_toggle in Hid. rewrite decide_True in Hid by done. done.
      + apply (Hanc q n); [done..|]. by apply Hsub. }
  split; [done|].
  destruct (listed_at cs' t _ Hvis) as (n & Hn & Hat & Hd).
  exists n. split; [done|]. rewrite node_at_snoc, Hc in Hat. simpl in Hat.
  rewrite Hk in Hat. split; [by simplify_eq|].
  rewrite Hd, length_app. simpl. lia.
Qed.

Lemma expand_shows_children_witness :
  ∃ r r', calculateLayout (JsObject scenario_B) {[ "C1"%string ]} = Return r ∧
          calculateLayout (JsObject scenario_B)
            (handleToggle "C1" {[ "C1"%string ]}) = Return r' ∧
          forget <$> nodes r `sublist_of` forget <$> nodes r' ∧
          ∀ k c',
            [mkTreeNode "G1" "Rubeus.exe asktgt /user:admin" "code" (Some [])] !! k
              = Some c' →
            [0%nat] ++ [k] ∈ visible_paths (handleToggle "C1" {[ "C1"%string ]})
                               scenario_B ∧
            ∃ n, n ∈ nodes r' ∧ forget n = c' ∧ depth n = 2%nat.
Proof.
  apply (expand_shows_children scenario_B {[ "C1"%string ]} [0%nat]
           (mkTreeNode "C1" "Rubeus" "child"
              (Some [mkTreeNode "G1" "Rubeus.exe asktgt /user:admin" "code" (Some [])]))).
  - reflexivity.
  - apply (bool_decide_unpack _). vm_compute. exact I.
  - apply (bool_decide_unpack _). vm_compute. exact I.
Defined.

(** X8 (collapsing).  In a tree with unique ids, toggling the id of a
    listed, expanded node removes from the listing exactly the positions
    strictly below that node. *)
Theorem collapse_hides_subtree (t : TreeNode) (cs : gset string) (p : path)
    (c : TreeNode) :
  unique_ids t → node_at t p = Some c → p ∈ visible_paths cs t → (id c ∉ cs) →
  ∃ r r', calculateLayout (JsObject t) cs = Return r ∧
          calculateLayout (JsObject t) (handleToggle (id c) cs) = Return r' ∧
          forget <$> nodes r = omap (node_at t) (visible_paths cs t) ∧
          forget <$> nodes r' =
            omap (node_at t) (visible_paths (handleToggle (id c) cs) t) ∧
          forget <$> nodes r' `sublist_of` forget <$> nodes r ∧
          ∀ q, q ∈ visible_paths (handleToggle (id c) cs) t ↔
               q ∈ visible_paths cs t ∧ ¬ (p `prefix_of` q ∧ q ≠ p).
Proof.
  intros Hu Hc Hp Hnin. do 2 eexists.
  split; [apply calculateLayout_object|]. split; [apply calculateLayout_object|].
  set (cs' := handleToggle (id c) cs).
  assert (cs ⊆ cs') as Hsub.
  { intros j Hj. apply elem_of_toggle. case_decide; [by subst | done]. }
  split; [apply listed_nodes|]. split; [apply listed_nodes|]. split.
  { rewrite !listed_nodes. by apply sublist_omap, visible_paths_anti. }
  intros q. split.
  - intros Hq. split.
    + unfold visible_paths in Hq |- *. apply list_elem_of_filter in Hq as [Hv Hin].
      apply list_elem_of_filter. split; [by eapply visibleb_anti | done].
    + intros [Hpre Hne]. apply elem_of_visible_paths in Hq as [_ Hanc].
      apply (Hanc p c); [done | congruence | done |].
      unfold cs'. apply elem_of_toggle. by rewrite decide_True.
  - intros [Hq Hnot]. apply elem_of_visible_paths in Hq as [Hs Hanc].
    apply elem_of_visible_paths. split; [done|].
    intros q' n Hq' Hne Hn Hid. unfold cs' in Hid. apply elem_of_toggle in Hid.
    case_decide as Heq.
    + assert (q' = p) as -> by by eapply (unique_ids_position t q' p n c).
      apply Hnot. split; [done | congruence].
    + by apply (Hanc q' n).
Qed.

Lemma collapse_hides_subtree_witness :
  ∃ r r', calculateLayout (JsObject scenario_B) ∅ = Return r ∧
          calculateLayout (JsObject scenario_B) (handleToggle "C1" ∅) = Return r' ∧
          forget <$> nodes r = omap (node_at scenario_B) (visible_paths ∅ scenario_B) ∧
          forget <$> nodes r' =
            omap (node_at scenario_B) (visible_paths (handleToggle "C1" ∅) scenario_B) ∧
          forget <$> nodes r' `sublist_of` forget <$> nodes r ∧
          ∀ q, q ∈ visible_paths (handleToggle "C1" ∅) scenario_B ↔
               q ∈ visible_paths ∅ scenario_B ∧ ¬ ([0%nat] `prefix_of` q ∧ q ≠ [0%nat]).
Proof.
  apply (collapse_hides_subtree scenario_B ∅ [0%nat]
           (mkTreeNode "C1" "Rubeus" "child"
              (Some [mkTreeNode "G1" "Rubeus.exe asktgt /user:admin" "code" (Some [])]))).
  - apply (bool_decide_unpack _). vm_compute. exact I.
  - reflexivity.
  - apply (bool_decide_unpack _). vm_compute. exact I.
  - apply (bool_decide_unpack _). vm_compute. exact I.
Defined.

(** * Rendered nodes *)

Lemma nodeHasChildren_forget n : nodeHasChildren n = hasChildren (forget n).
Proof.
  unfold nodeHasChildren, hasChildren. rewrite forget_unfold. simpl.
  destruct (p_children n) as [[[|]|]|[|]]; done.
Qed.

(** X9 (toggle button).  The node listed at a visible position is rendered
    with a toggle button exactly when the tree node at that position has
    children; rectangle and button pass that node's id to [handleToggle].
    The button shows [+] when the id is in the collapsed set, and then no
    position below is listed; it shows [-] otherwise, and then every child
    of the tree node is listed, at its position. *)
Theorem toggle_button_states (t : TreeNode) (cs : gset string) :
  ∃ r, calculateLayout (JsObject t) cs = Return r ∧
       MindMapRenderer_nodes (JsObject t) cs =
         Return ((λ n, MindMapNode n (p_x n) (p_y n)) <$> nodes r) ∧
       Forall2 (λ p n,
         ∃ c, node_at t p = Some c ∧ forget n = c ∧
              let v := MindMapNode n (p_x n) (p_y n) in
              (is_Some (button v) ↔ kids c ≠ []) ∧
              rect_onClick v = b_onClick <$> button v ∧
              ∀ b, button v = Some b →
                   b_onClick b = id c ∧
                   (b_glyph b = Plus →
                    id c ∈ cs ∧ laidKids n = [] ∧
                    ∀ k, p ++ [k] ∉ visible_paths cs t) ∧
                   (b_glyph b = Minus →
                    (id c ∉ cs) ∧
                    ∀ k c', kids c !! k = Some c' →
                            ∃ j m, visible_paths cs t !! j = Some (p ++ [k]) ∧
                                   nodes r !! j = Some m ∧
                                   laidKids n !! k = Some m ∧ forget m = c'))
         (visible_paths cs t) (nodes r).
Proof.
  eexists. split; [apply calculateLayout_object|].
  split; [unfold MindMapRenderer_nodes; by rewrite calculateLayout_object|].
  eapply Forall2_impl; [apply listed_children|].
  intros p n (Hat & Hd & Hcol & Hkids & Hpos). exists (forget n).
  split; [done|]. split; [done|].
  unfold MindMapNode. cbn [button rect_onClick]. rewrite nodeHasChildren_forget.
  split; [|split].
  - unfold hasChildren, kids.
    destruct (children (forget n)) as [[|]|]; simpl; split;
      try done; intros [? ?]; done.
  - by destruct (hasChildren (forget n)).
  - intros b Hb. destruct (hasChildren (forget n)); [|done].
    simplify_eq. cbn [b_onClick b_glyph]. split; [by rewrite forget_id|].
    rewrite Hcol. destruct (bool_decide (id (forget n) ∈ cs)) eqn:Hin.
    + apply bool_decide_eq_true in Hin. split; [|done].
      intros _. split; [done|]. split; [by apply fmap_nil_inv in Hkids|].
      intros k (_ & Hanc)%elem_of_visible_paths.
      apply (Hanc p (forget n)); [by apply prefix_app_r | | done..].
      intros Heq%(f_equal length). rewrite length_app in Heq. simpl in Heq. lia.
    + apply bool_decide_eq_false in Hin. split; [done|].
      intros _. split; [done|]. intros k c' Hk.
      rewrite <-Hkids, list_lookup_fmap in Hk.
      destruct (laidKids n !! k) as [m|] eqn:Hm; [|done]. simpl in Hk.
      destruct (Hpos k m Hm) as (j & Hj & Hnj).
      exists j, m. repeat split; try done. congruence.
Qed.

Lemma click_target cs t j tg i :
  ((λ n, MindMapNode n (p_x n) (p_y n)) <$>
     nodes (layoutOf (assignCoords cs t 0 0).1)) !! j ≫= (λ v, click v tg) = Some i →
  ∃ p n, node_at t p = Some n ∧ hasChildren n = true ∧ id n = i.
Proof.
  rewrite list_lookup_fmap.
  destruct (nodes _ !! j) as [m|] eqn:Hm; [simpl|done].
  apply list_elem_of_lookup_2 in Hm.
  destruct (listed_node cs t m Hm) as (_ & _ & _ & p & Hp).
  unfold MindMapNode. rewrite nodeHasChildren_forget.
  intros Hi. exists p, (forget m). split; [done|].
  destruct (hasChildren (forget m)); [|by destruct tg].
  split; [done|]. rewrite forget_id. destruct tg; simpl in Hi; congruence.
Qed.

(** Every id in the set belongs to a node of the tree that has children. *)
Lemma session_parents t clicks :
  ∀ i, i ∈ session (JsObject t) clicks →
       ∃ p n, node_at t p = Some n ∧ hasChildren n = true ∧ id n = i.
Proof.
  unfold session. induction clicks as [|[j tg] clicks IH] using rev_ind.
  - simpl. intros i Hi. apply collapseRecursively_spec in Hi
      as [?%elem_of_empty | (_ & H)]; done.
  - rewrite foldl_app. simpl. set (s := foldl _ _ clicks) in *.
    intros i. unfold MindMapRenderer_click, MindMapRenderer_nodes.
    rewrite calculateLayout_object.
    destruct (_ !! j ≫= _) as [k|] eqn:Hk; [|apply IH].
    intros Hi. apply elem_of_toggle in Hi. case_decide as Hik; [|by apply IH].
    subst k. by eapply click_target.
Qed.

Lemma unique_ids_node t p q n m :
  unique_ids t → node_at t p = Some n → node_at t q = Some m →
  id n = id m → n = m.
Proof.
  intros Hu Hn Hm Heq.
  assert (p = q) as -> by by eapply unique_ids_position. congruence.
Qed.

(** X10 (what a session collapses).  After the seeding effect and any
    sequence of clicks on rendered nodes, every id in the collapsed set is
    the id of a tree node that has children.  With unique ids, every listed
    node flagged as collapsed is therefore rendered with a [+] button that
    toggles it. *)
Theorem session_collapses_parents_only (t : TreeNode)
    (clicks : list (nat * Target)) :
  unique_ids t →
  (∀ i, i ∈ session (JsObject t) clicks →
        ∃ p n, node_at t p = Some n ∧ hasChildren n = true ∧ id n = i) ∧
  ∃ r, calculateLayout (JsObject t) (session (JsObject t) clicks) = Return r ∧
       Forall (λ n, isCollapsed n = true →
                    hasChildren (forget n) = true ∧
                    button (MindMapNode n (p_x n) (p_y n)) =
                      Some (mkToggleButton
                              (calculatedWidth (p_label n) (p_type n) / Q2Qc 2
                               + Q2Qc 12)%Qc
                              Plus (p_id n)))
         (nodes r).
Proof.
  intros Hu. split; [apply session_parents|].
  eexists. split; [apply calculateLayout_object|].
  set (s := session (JsObject t) clicks).
  apply Forall_forall. intros n Hn Hcol.
  destruct (listed_node s t n Hn) as (Hc & _ & _ & q & Hq).
  rewrite Hcol in Hc. symmetry in Hc. apply bool_decide_eq_true in Hc.
  destruct (session_parents t clicks _ Hc) as (p & m & Hp & Hm & Hid).
  assert (m = forget n) as ->.
  { eapply (unique_ids_node t p q); try done. by rewrite forget_id. }
  split; [done|].
  unfold MindMapNode. rewrite nodeHasChildren_forget, Hm, Hcol. cbn [button].
  do 2 f_equal. apply Qc_is_canon. unfold Qcdiv. simpl.
  rewrite ?Qred_correct. ring.
Qed.

Lemma session_collapses_parents_only_witness :
  (∀ i, i ∈ session (JsObject scenario_B) [(1%nat, OnButton); (0%nat, OnRect)] →
        ∃ p n, node_at scenario_B p = Some n ∧ hasChildren n = true ∧ id n = i) ∧
  ∃ r, calculateLayout (JsObject scenario_B)
         (session (JsObject scenario_B) [(1%nat, OnButton); (0%nat, OnRect)])
         = Return r ∧
       Forall (λ n, isCollapsed n = true →
                    hasChildren (forget n) = true ∧
                    button (MindMapNode n (p_x n) (p_y n)) =
                      Some (mkToggleButton
                              (calculatedWidth (p_label n) (p_type n) / Q2Qc 2
                               + Q2Qc 12)%Qc
                              Plus (p_id n)))
         (nodes r).
Proof.
  apply (session_collapses_parents_only scenario_B
           [(1%nat, OnButton); (0%nat, OnRect)]).
  apply (bool_decide_unpack _). vm_compute. exact I.
Defined.

Lemma rect_borders n :
  rect_left (MindMapNode n (p_x n) (p_y n)) =
    (p_x n - calculatedWidth (p_label n) (p_type n) / Q2Qc 2)%Qc ∧
  rect_right (MindMapNode n (p_x n) (p_y n)) =
    (p_x n + calculatedWidth (p_label n) (p_type n) / Q2Qc 2)%Qc.
Proof.
  unfold rect_left, rect_right, MindMapNode. cbn [v_x rect_x rect_width].
  generalize (calculatedWidth (p_label n) (p_type n)) (p_x n). intros w x.
  split; apply Qc_is_canon; unfold Qcdiv, Qcminus; simpl; rewrite ?Qred_correct;
    field.
Qed.


(** X12 (a tree shown as one node).  When the root is collapsed or has no
    children, the layout is a single node at (100, 50), without an edge, on
    a canvas of height 600 and of width [max 800 (w / 2 + 300)], [w] being
    the width of the root's rectangle. *)
Theorem layout_of_visual_leaf (t : TreeNode) (cs : gset string) :
  visualLeaf cs t = true →
  ∃ r n, calculateLayout (JsObject t) cs = Return r ∧
         nodes r = [n] ∧ edges r = [] ∧
         forget n = t ∧ depth n = 0%nat ∧ laidKids n = [] ∧
         p_x n = Q2Qc 100 ∧ p_y n = Q2Qc 50 ∧
         height r = Q2Qc 600 ∧
         width r = Math_max (Q2Qc 800)
                     (calculatedWidth (label t) (type t) / Q2Qc 2 + Q2Qc 300)%Qc.
Proof.
  intros Hleaf. do 2 eexists. split; [apply calculateLayout_object|].
  rewrite assignCoords_leaf by done. unfold layoutOf. cbn.
  split; [done|]. split; [done|].
  split; [by destruct t|]. split; [done|]. split; [done|].
  split; [apply Qc_is_canon; vm_compute; reflexivity|].
  split; [apply Qc_is_canon; vm_compute; reflexivity|].
  split.
  - apply Qc_is_canon. vm_compute. reflexivity.
  - f_equal. unfold halfWidthOr70. cbn.
    pose proof (calculatedWidth_half_pos (label t) (type t)) as Hpos.
    generalize dependent (calculatedWidth (label t) (type t) / Q2Qc 2)%Qc.
    intros w Hpos. destruct (decide (w = 0%Qc)) as [->|_].
    { exfalso. revert Hpos. clear. intros H. qc_order. }
    assert (Q2Qc 0 ≤ depthX 0 + w)%Qc as Hle.
    { assert (depthX 0 = Q2Qc 100) as -> by (apply Qc_is_canon; vm_compute; reflexivity).
      revert Hpos. clear. intros H. qc_order. }
    unfold Math_max at 1. rewrite decide_True by exact Hle.
    assert (depthX 0 = Q2Qc 100) as -> by (apply Qc_is_canon; vm_compute; reflexivity).
    apply Qc_is_canon. simpl. rewrite ?Qred_correct. ring.
Qed.

Lemma layout_of_visual_leaf_witness :
  ∃ r n, calculateLayout (JsObject scenario_B) {[ "R"%string ]} = Return r ∧
         nodes r = [n] ∧ edges r = [] ∧
         forget n = scenario_B ∧ depth n = 0%nat ∧ laidKids n = [] ∧
         p_x n = Q2Qc 100 ∧ p_y n = Q2Qc 50 ∧
         height r = Q2Qc 600 ∧
         width r = Math_max (Q2Qc 800)
                     (calculatedWidth "Kerberos" "root" / Q2Qc 2 + Q2Qc 300)%Qc.
Proof.
  apply (layout_of_visual_leaf scenario_B {[ "R"%string ]}).
  vm_compute. reflexivity.
Defined.

Lemma Math_max_mono (a b b' : Qc) : (b ≤ b')%Qc → (Math_max a b ≤ Math_max a b')%Qc.
Proof.
  intros H. destruct (Math_max_spec a b) as (_ & _ & [-> | ->]);
    destruct (Math_max_spec a b') as (Ha & Hb & _); [done | by etrans].
Qed.

(** X13 (width grows with the label).  A longer label never gets a narrower
    rectangle, and a label typed as code never gets a narrower rectangle
    than the same label typed otherwise. *)
Theorem calculatedWidth_monotone (l1 l2 ty ty' : string) :
  (String.length l1 ≤ String.length l2)%nat →
  (calculatedWidth l1 ty ≤ calculatedWidth l2 ty)%Qc ∧
  (calculatedWidth l1 ty' ≤ calculatedWidth l1 "code")%Qc.
Proof.
  intros Hlen%num_of_nat_le. unfold calculatedWidth.
  pose proof (num_of_nat_le 0 (String.length l1) ltac:(lia)) as H0.
  assert (num_of_nat 0 = Q2Qc 0) as E0 by (apply Qc_is_canon; vm_compute; reflexivity).
  rewrite E0 in H0. clear E0.
  revert Hlen H0. generalize (num_of_nat (String.length l1))
    (num_of_nat (String.length l2)). intros n1 n2 Hlen H0.
  split; apply Math_max_mono; unfold charWidth.
  - destruct (decide (ty = "code"%string)); qc_order.
  - rewrite (decide_True (P := "code"%string = "code"%string)) by done.
    destruct (decide (ty' = "code"%string)); qc_order.
Qed.

Lemma calculatedWidth_monotone_witness :
  (calculatedWidth "Rubeus" "child" ≤ calculatedWidth "Rubeus.exe asktgt /user:admin" "child")%Qc ∧
  (calculatedWidth "Rubeus" "root" ≤ calculatedWidth "Rubeus" "code")%Qc.
Proof.
  apply (calculatedWidth_monotone "Rubeus" "Rubeus.exe asktgt /user:admin" "child" "root").
  vm_compute. lia.
Defined.

Lemma click_on_listed s t q c :
  q ∈ visible_paths s t → node_at t q = Some c → hasChildren c = true →
  ∃ j, MindMapRenderer_click (JsObject t) s j OnButton = handleToggle (id c) s.
Proof.
  intros (j & Hj)%list_elem_of_lookup_1 Hc Hch. exists j.
  destruct (Forall2_lookup_l _ _ _ _ _ (layout_positions s t) Hj)
    as (n & Hn & _ & Hat & _).
  unfold MindMapRenderer_click, MindMapRenderer_nodes.
  rewrite calculateLayout_object, list_lookup_fmap.
  change (nodes (layoutOf (assignCoords s t 0 0).1))
    with (sized <$> flatten (assignCoords s t 0 0).1).
  rewrite Hn. simpl. unfold MindMapNode. rewrite nodeHasChildren_forget.
  assert (forget n = c) as Hf by congruence.
  rewrite Hf, Hch. simpl. by rewrite <-Hf, forget_id.
Qed.

(** X14 (every node can be reached).  For every position of the tree there
    is a sequence of clicks on rendered toggle buttons after which the
    layout lists the node at that position. *)
Theorem every_node_reachable (t : TreeNode) (p : path) (c : TreeNode) :
  node_at t p = Some c →
  ∃ clicks r n,
    calculateLayout (JsObject t) (session (JsObject t) clicks) = Return r ∧
    p ∈ visible_paths (session (JsObject t) clicks) t ∧
    n ∈ nodes r ∧ forget n = c ∧ depth n = length p.
Proof.
  intros Hc.
  assert (∃ clicks, p ∈ visible_paths (session (JsObject t) clicks) t)
    as [clicks Hvis].
  { assert (is_Some (node_at t p)) as Hs by (by exists c). clear Hc. clear c.
    induction p as [|k q IH] using rev_ind.
    - exists []. rewrite visible_paths_unfold. apply list_elem_of_here.
    - rewrite node_at_snoc in Hs. destruct (node_at t q) as [c|] eqn:Hc;
        [simpl in Hs|by destruct Hs].
      destruct Hs as [c' Hk]. destruct IH as [clicks Hq]; [done|].
      set (s := session (JsObject t) clicks) in *.
      destruct (decide (id c ∈ s)) as [Hin|Hnin].
      + assert (hasChildren c = true) as Hch.
        { unfold hasChildren, kids in *. destruct (children c) as [[|]|]; done. }
        destruct (click_on_listed s t q c Hq Hc Hch) as [j Hj].
        exists (clicks ++ [(j, OnButton)]).
        assert (session (JsObject t) (clicks ++ [(j, OnButton)]) =
                handleToggle (id c) s) as ->.
        { unfold session. rewrite foldl_app. simpl. exact Hj. }
        assert (handleToggle (id c) s ⊆ s) as Hsub.
        { intros i Hi. apply elem_of_toggle in Hi. case_decide; [by subst | done]. }
        apply (visible_child _ t q c k c'); [done| | |done].
        * unfold visible_paths in Hq |- *.
          apply list_elem_of_filter in Hq as [Hv Hall].
          apply list_elem_of_filter. split; [|done].
          by apply (visibleb_anti _ s).
        * intros Hi. apply elem_of_toggle in Hi. by rewrite decide_True in Hi.
      + exists clicks. by apply (visible_child s t q c k c'). }
  destruct (listed_at _ t p Hvis) as (n & Hn & Hat & Hd).
  assert (forget n = c) by congruence.
  exists clicks, (layoutOf (assignCoords (session (JsObject t) clicks) t 0 0).1), n.
  split; [apply calculateLayout_object|]. done.
Qed.

Lemma every_node_reachable_witness :
  ∃ clicks r n,
    calculateLayout (JsObject scenario_B) (session (JsObject scenario_B) clicks)
      = Return r ∧
    [0%nat; 0%nat] ∈ visible_paths (session (JsObject scenario_B) clicks) scenario_B ∧
    n ∈ nodes r ∧
    forget n = mkTreeNode "G1" "Rubeus.exe asktgt /user:admin" "code" (Some []) ∧
    depth n = 2%nat.
Proof.
  apply (every_node_reachable scenario_B [0%nat; 0%nat]
           (mkTreeNode "G1" "Rubeus.exe asktgt /user:admin" "code" (Some []))).
  reflexivity.
Defined.

(** * The client of the proxy *)

Lemma tryBlock_never_continues i res ms : tryBlock i res ≠ Continues ms.
Proof.
  unfold tryBlock. destruct res as [|st json]; [done|].
  destruct (ok st); [by destruct json|].
  destruct ((400 <=? st)%nat && (st <? 500)%nat) eqn:H4.
  - destruct json as [[| | | | |m]|]; try done.
    destruct (m !! "error"%string) as [v|]; [by destruct (truthy v) | done].
  - destruct ((st =? 429)%nat && (i <? length delays)%nat) eqn:H429; [|done].
    exfalso. apply andb_true_iff in H429 as [->%Nat.eqb_eq _]. done.
Qed.

Lemma tryBlock_returns i res data :
  tryBlock i res = Returns data ↔
  ∃ st, res = Responded st (Some data) ∧ ok st = true.
Proof.
  unfold tryBlock. split.
  - destruct res as [|st json]; [done|]. destruct (ok st) eqn:Hok.
    + destruct json as [d|]; [|done]. intros [= ->]. by exists st.
    + destruct ((400 <=? st)%nat && (st <? 500)%nat).
      * destruct json as [[| | | | |m]|]; try done.
        destruct (m !! "error"%string) as [v|]; [by destruct (truthy v) | done].
      * by destruct ((st =? 429)%nat && (i <? length delays)%nat).
  - intros (st & -> & ->). done.
Qed.

Lemma fetchLoop_trace world body n :
  ∀ i trace,
    ∃ k, (k ≤ n)%nat ∧
         (fetchLoop world body n i trace).2 = trace ++ replicate k (Posted body) ∧
         ((i + n = S (length delays))%nat → (1 ≤ n)%nat →
          (1 ≤ k)%nat ∧ (fetchLoop world body n i trace).1 ≠ ReturnedUndefined).
Proof.
  induction n as [|n IH]; intros i trace.
  - exists 0%nat. simpl. rewrite app_nil_r. split; [lia|]. split; [done|lia].
  - cbn [fetchLoop]. destruct (tryBlock i (world i body)) as [data|ms|e] eqn:Hstep.
    + exists 1%nat. simpl. split; [lia|]. split; [done|]. intros _ _. split; [lia|done].
    + by apply tryBlock_never_continues in Hstep.
    + destruct (decide (i = length delays)) as [Hi|Hi].
      * exists 1%nat. simpl. split; [lia|]. split; [done|]. intros _ _. split; [lia|done].
      * destruct (IH (S i) (trace ++ [Posted body])) as (k & Hk & Htr & Hout).
        exists (S k). split; [lia|]. split.
        { rewrite Htr, <-(assoc (++)). done. }
        intros Hin _. split; [lia|]. apply Hout; simpl in *; lia.
Qed.

(** X15 (no back-off).  [fetchGeminiProxy] posts the payload with the model
    chosen by [type] between one and six times and never waits between two
    attempts, whatever the answers are: the branch that waits on status 429
    is never reached.  The call returns data or throws. *)
Theorem fetchGeminiProxy_never_waits
    (world : nat → gmap string Json → FetchResult)
    (payload : gmap string Json) (type : string) :
  let body := <[ "model"%string :=
                   JStr (if decide (type = "tts"%string)
                         then "gemini-2.5-flash-preview-tts"%string
                         else "gemini-2.5-flash-preview-09-2025"%string) ]> payload in
  ∃ k, (1 ≤ k ≤ 6)%nat ∧
       (fetchGeminiProxy world payload type).2 = replicate k (Posted body) ∧
       (∀ ms, Waited ms ∉ (fetchGeminiProxy world payload type).2) ∧
       (fetchGeminiProxy world payload type).1 ≠ ReturnedUndefined.
Proof.
  intros body. unfold fetchGeminiProxy.
  destruct (fetchLoop_trace world body (S (length delays)) 0 [])
    as (k & Hk & Htr & Hout).
  destruct Hout as [Hk1 Hne]; [done | lia |].
  exists k. simpl in Hk. split; [lia|]. change (_ ++ ?l) with l in Htr.
  split; [exact Htr|]. split; [|exact Hne].
  intros ms Hin. unfold body, TTS_MODEL, TEXT_MODEL in *.
  rewrite Htr in Hin. by apply elem_of_replicate in Hin as [? _].
Qed.

Lemma fetchLoop_first_success world body n :
  ∀ i trace k data,
    (i ≤ k)%nat → (k < i + n)%nat → (k ≤ length delays)%nat →
    (∀ j d, (i ≤ j < k)%nat → tryBlock j (world j body) ≠ Returns d) →
    tryBlock k (world k body) = Returns data →
    fetchLoop world body n i trace =
      (Returned data, trace ++ replicate (S k - i) (Posted body)).
Proof.
  induction n as [|n IH]; intros i trace k data Hik Hkn Hk5 Hfail Hok; [lia|].
  cbn [fetchLoop]. destruct (decide (i = k)) as [->|Hne].
  - rewrite Hok. by replace (S k - k)%nat with 1%nat by lia.
  - destruct (tryBlock i (world i body)) as [d|ms|e] eqn:Hstep.
    + exfalso. eapply (Hfail i d); [lia | done].
    + by apply tryBlock_never_continues in Hstep.
    + rewrite decide_False by lia.
      rewrite (IH (S i) _ k data); try done; try lia.
      * replace (S k - i)%nat with (S (S k - S i)) by lia.
        simpl. by rewrite <-(assoc (++)).
      * intros j d Hj. apply Hfail. lia.
Qed.

Lemma fetchLoop_all_fail world body n :
  ∀ i trace e,
    (i + n = S (length delays))%nat → (1 ≤ n)%nat →
    (∀ j d, (i ≤ j ≤ length delays)%nat → tryBlock j (world j body) ≠ Returns d) →
    tryBlock (length delays) (world (length delays) body) = Throws e →
    fetchLoop world body n i trace =
      (Thrown e, trace ++ replicate n (Posted body)).
Proof.
  induction n as [|n IH]; intros i trace e Hin Hn Hfail Hlast; [lia|].
  cbn [fetchLoop]. destruct (tryBlock i (world i body)) as [d|ms|e'] eqn:Hstep.
  - exfalso. eapply (Hfail i d); [simpl in *; lia | done].
  - by apply tryBlock_never_continues in Hstep.
  - destruct (decide (i = length delays)) as [->|Hne].
    + assert (n = 0%nat) as -> by lia. simpl. congruence.
    + rewrite (IH (S i) _ e); try done; try (simpl in *; lia).
      * by rewrite <-(assoc (++)).
      * intros j d Hj. apply Hfail. lia.
Qed.

(** X16 (first success wins).  If the [k]-th attempt, [k] below six, is the
    first that is answered with a status in 200..299 and a JSON body, the
    call returns that body after [k + 1] requests: every earlier failure,
    of whatever kind, is retried at once. *)
Theorem fetchGeminiProxy_first_success
    (world : nat → gmap string Json → FetchResult)
    (payload : gmap string Json) (type : string) (k st : nat) (data : Json) :
  let body := <[ "model"%string :=
                   JStr (if decide (type = "tts"%string)
                         then TTS_MODEL else TEXT_MODEL) ]> payload in
  (k ≤ 5)%nat →
  world k body = Responded st (Some data) → (200 ≤ st ≤ 299)%nat →
  (∀ j st' d, (j < k)%nat → world j body = Responded st' (Some d) →
              ¬ (200 ≤ st' ≤ 299)%nat) →
  fetchGeminiProxy world payload type =
    (Returned data, replicate (S k) (Posted body)).
Proof.
  intros body Hk Hw Hst Hfail. unfold fetchGeminiProxy. fold body.
  rewrite (fetchLoop_first_success world body _ 0 [] k data); simpl; try lia.
  - done.
  - intros j d Hj (st' & Hres & Hok)%tryBlock_returns.
    apply (Hfail j st' d); [lia | done |].
    unfold ok in Hok. apply andb_true_iff in Hok as [?%Nat.leb_le ?%Nat.leb_le]. lia.
  - apply tryBlock_returns. exists st. split; [done|].
    unfold ok. apply andb_true_iff. split; apply Nat.leb_le; lia.
Qed.

Lemma fetchGeminiProxy_first_success_witness :
  fetchGeminiProxy
    (λ i _, if decide (i = 2%nat) then Responded 200 (Some (JStr "ok"))
            else Responded 404 (Some JNull))
    ∅ "text" =
  (Returned (JStr "ok"),
   replicate 3 (Posted (<[ "model"%string := JStr TEXT_MODEL ]> ∅))).
Proof.
  apply (fetchGeminiProxy_first_success
           (λ i _, if decide (i = 2%nat) then Responded 200 (Some (JStr "ok"))
                   else Responded 404 (Some JNull))
           ∅ "text" 2 200 (JStr "ok")).
  - lia.
  - reflexivity.
  - lia.
  - intros j st' d Hj. rewrite decide_False by lia. intros [= <- _]. lia.
Defined.

Lemma fetchLoop_six_failures world (body : gmap string Json) :
  (∀ j st d, (j ≤ 5)%nat → world j body = Responded st (Some d) →
             ¬ (200 ≤ st ≤ 299)%nat) →
  ∃ e, tryBlock 5 (world 5%nat body) = Throws e ∧
       fetchLoop world body (S (length delays)) 0 [] =
         (Thrown e, replicate 6 (Posted body)).
Proof.
  intros Hfail.
  assert (∀ j d, (j ≤ 5)%nat → tryBlock j (world j body) ≠ Returns d) as Hnot.
  { intros j d Hj (st' & Hres & Hok)%tryBlock_returns.
    apply (Hfail j st' d); [lia | done |].
    unfold ok in Hok. apply andb_true_iff in Hok as [?%Nat.leb_le ?%Nat.leb_le]. lia. }
  destruct (tryBlock 5 (world 5%nat body)) as [d|ms|e] eqn:Hstep.
  - by apply Hnot in Hstep.
  - by apply tryBlock_never_continues in Hstep.
  - exists e. split; [done|].
    apply (fetchLoop_all_fail world body (S (length delays)) 0 [] e).
    + done.
    + simpl. lia.
    + intros j d Hj. apply Hnot. simpl in Hj. lia.
    + exact Hstep.
Qed.

(** X17 (six failures).  If none of six attempts is answered with a status
    in 200..299 and a JSON body, the call throws after six requests, and
    what it throws is the error of the sixth attempt. *)
Theorem fetchGeminiProxy_all_fail
    (world : nat → gmap string Json → FetchResult)
    (payload : gmap string Json) (type : string) :
  let body := <[ "model"%string :=
                   JStr (if decide (type = "tts"%string)
                         then TTS_MODEL else TEXT_MODEL) ]> payload in
  (∀ j st d, (j ≤ 5)%nat → world j body = Responded st (Some d) →
             ¬ (200 ≤ st ≤ 299)%nat) →
  ∃ e, tryBlock 5 (world 5%nat body) = Throws e ∧
       fetchGeminiProxy world payload type =
         (Thrown e, replicate 6 (Posted body)).
Proof.
  intros body Hfail. unfold fetchGeminiProxy. fold body.
  by apply fetchLoop_six_failures.
Qed.

Lemma fetchGeminiProxy_all_fail_witness :
  ∃ e, tryBlock 5 (Responded 429 (Some (JObj ∅))) = Throws e ∧
       fetchGeminiProxy (λ _ _, Responded 429 (Some (JObj ∅))) ∅ "tts" =
         (Thrown e, replicate 6 (Posted (<[ "model"%string := JStr TTS_MODEL ]> ∅))).
Proof.
  apply (fetchGeminiProxy_all_fail (λ _ _, Responded 429 (Some (JObj ∅))) ∅ "tts").
  intros j st d _ [= <- _]. lia.
Defined.

(** * The proxy function *)

Lemma tryForward_sent prompt key request google :
  let r := tryForward prompt key request google in
  (length r.2 ≤ 1)%nat ∧
  (r.2 = [] → ∃ e, r.1 = inl e) ∧
  (∀ resp, r.1 = inr resp → legalStatus (r_status resp) = true) ∧
  (request = None ∨ request = Some JNull → r.2 = []).
Proof.
  unfold tryForward. destruct request as [requestData|].
  2: { simpl. split; [lia|]. split; [by eexists|]. done. }
  set (req := mkGoogleRequest _ _ _).
  assert (∀ x : (ServerError + Response) * list GoogleRequest,
            x = match google req with
                | Rejected => (inl GoogleUnreachable, [req])
                | Responded st None => (inl GoogleNotJson, [req])
                | Responded st (Some data) =>
                    if legalStatus st then (inr (mkResponse st data), [req])
                    else (inl (IllegalStatus st), [req])
                end →
            (length x.2 ≤ 1)%nat ∧ (x.2 = [] → ∃ e, x.1 = inl e) ∧
            (∀ resp, x.1 = inr resp → legalStatus (r_status resp) = true) ∧
            (Some requestData = None ∨ Some requestData = Some JNull → False)
            ∨ requestData = JNull) as Hgen.
  { intros x ->. destruct requestData; [by right|left..];
      (destruct (google req) as [|st [data|]]; [| destruct (legalStatus st) eqn:Hst |];
       simpl; (split; [lia|]); (split; [done|]); (split; [|intros [|]; done]);
       intros resp; try done; by intros [= <-]). }
  destruct requestData as [| | | | |];
    try (destruct (Hgen _ eq_refl) as [(H1 & H2 & H3 & H4)|]; [|done];
         split; [exact H1|]; split; [exact H2|]; split; [exact H3|];
         intros H; by destruct (H4 H)).
  simpl. split; [lia|]. split; [by eexists|]. done.
Qed.

(** X18 (the proxy always answers).  [onRequestPost] returns a response
    whose status [new Response] accepts, after at most one request to
    Google.  Without a key, or with an empty one, and when the body of the
    request is not JSON or is [null], it answers 500 and sends nothing to
    Google; whenever nothing was sent, the answer is 500. *)
Theorem onRequestPost_answers (prompt : string) (message : ServerError → string)
    (apiKey : option string) (request : option Json)
    (google : GoogleRequest → FetchResult) :
  let r := onRequestPost prompt message apiKey request google in
  legalStatus (r_status r.1) = true ∧
  (length r.2 ≤ 1)%nat ∧
  (r.2 = [] → r_status r.1 = 500%nat) ∧
  (apiKey = None ∨ apiKey = Some ""%string →
   r = (mkResponse 500
          (JObj {[ "error"%string :=
                     JStr "Server-side configuration error: Missing API Key" ]}),
        [])) ∧
  (request = None ∨ request = Some JNull → r_status r.1 = 500%nat ∧ r.2 = []).
Proof.
  unfold onRequestPost. destruct apiKey as [key|].
  2: { simpl. repeat split; try done; lia. }
  destruct (decide (key = ""%string)) as [->|Hkey].
  { simpl. repeat split; try done; lia. }
  destruct (tryForward_sent prompt key request google) as (H1 & H2 & H3 & H4).
  destruct (tryForward prompt key request google) as [[e|resp] sent]; simpl in *.
  - split; [done|]. split; [done|]. split; [done|]. split.
    + intros [|[= ->]]; done.
    + intros H. split; [done | by apply H4].
  - split; [by apply H3|]. split; [done|]. split.
    + intros Hs. by destruct (H2 Hs).
    + split; [intros [|[= ->]]; done|]. intros H.
      specialize (H4 H). by destruct (H2 H4).
Qed.


(** X20 (relaying the answer).  When Google was asked, the response of the
    proxy carries Google's status and JSON body if that status is one that
    [new Response] accepts with a body; in every other case (no answer, a
    body that is not JSON, a status such as 204 or 304) the response has
    status 500. *)
Theorem onRequestPost_relays (prompt : string) (message : ServerError → string)
    (apiKey : option string) (request : option Json)
    (google : GoogleRequest → FetchResult) :
  let r := onRequestPost prompt message apiKey request google in
  Forall (λ g,
    match google g with
    | Responded st (Some data) =>
        if legalStatus st then r.1 = mkResponse st data
        else r_status r.1 = 500%nat
    | _ => r_status r.1 = 500%nat
    end) r.2.
Proof.
  unfold onRequestPost. destruct apiKey as [key|]; [|by constructor].
  destruct (decide (key = ""%string)) as [->|Hkey]; [by constructor|].
  unfold tryForward. destruct request as [requestData|]; [|by constructor].
  set (req := mkGoogleRequest _ _ _).
  assert (∀ x : (ServerError + Response) * list GoogleRequest,
            x = match google req with
                | Rejected => (inl GoogleUnreachable, [req])
                | Responded st None => (inl GoogleNotJson, [req])
                | Responded st (Some data) =>
                    if legalStatus st then (inr (mkResponse st data), [req])
                    else (inl (IllegalStatus st), [req])
                end →
            let r := match x with
                     | (inr response, sent) => (response, sent)
                     | (inl err, sent) =>
                         (mkResponse 500
                            (JObj (<[ "error"%string := JStr "Failed to process request" ]>
                                     {[ "details"%string := JStr (message err) ]})),
                          sent)
                     end in
            Forall (λ g,
              match google g with
              | Responded st (Some data) =>
                  if legalStatus st then r.1 = mkResponse st data
                  else r_status r.1 = 500%nat
              | _ => r_status r.1 = 500%nat
              end) r.2) as Hgen.
  { intros x ->.
    destruct (google req) as [|st [data|]] eqn:Hg;
      [| destruct (legalStatus st) eqn:Hst |]; simpl;
      (constructor; [|constructor]); rewrite Hg; try done; by rewrite Hst. }
  destruct requestData; try (apply Hgen; reflexivity). by constructor.
Qed.

(** * Client and proxy together *)

(** X21 (no key, end to end).  When the proxy has no key, a call of
    [fetchGeminiProxy] that reaches it posts six requests in a row, none of
    which makes the proxy contact Google, and throws the error for status
    500. *)
Theorem missing_key_end_to_end (prompt : string) (message : ServerError → string)
    (apiKey : option string) (google : nat → GoogleRequest → FetchResult)
    (payload : gmap string Json) (type : string) :
  apiKey = None ∨ apiKey = Some ""%string →
  let body := <[ "model"%string :=
                   JStr (if decide (type = "tts"%string)
                         then TTS_MODEL else TEXT_MODEL) ]> payload in
  fetchGeminiProxy (served prompt message apiKey google) payload type =
    (Thrown (ApiError 500), replicate 6 (Posted body)) ∧
  ∀ i, (onRequestPost prompt message apiKey (Some (JObj body)) (google i)).2 = [].
Proof.
  intros Hkey body.
  assert (∀ i b, served prompt message apiKey google i b =
                 Responded 500
                   (Some (JObj {[ "error"%string :=
                      JStr "Server-side configuration error: Missing API Key" ]})))
    as Hserved.
  { intros i b. unfold served, onRequestPost. by destruct Hkey as [-> | ->]. }
  split.
  - unfold fetchGeminiProxy. fold body.
    apply (fetchLoop_all_fail _ body (S (length delays)) 0 [] (ApiError 500)).
    + done.
    + simpl. lia.
    + intros j d _. by rewrite Hserved.
    + by rewrite Hserved.
  - intros i. unfold onRequestPost. by destruct Hkey as [-> | ->].
Qed.

Lemma missing_key_end_to_end_witness :
  fetchGeminiProxy
    (served "" (λ _ : ServerError, ""%string) None
       (λ (_ : nat) (_ : GoogleRequest), Rejected)) ∅ "text" =
    (Thrown (ApiError 500),
     replicate 6 (Posted (<[ "model"%string := JStr TEXT_MODEL ]> ∅))) ∧
  ∀ i : nat,
    (onRequestPost "" (λ _ : ServerError, ""%string) None
       (Some (JObj (<[ "model"%string := JStr TEXT_MODEL ]> ∅)))
       (λ _ : GoogleRequest, Rejected)).2 = [].
Proof.
  apply (missing_key_end_to_end "" (λ _ : ServerError, ""%string) None
           (λ (_ : nat) (_ : GoogleRequest), Rejected) ∅ "text").
  left. reflexivity.
Defined.

(** X22 (the system prompt, end to end).  [fetchGeminiProxy] posts at least
    one request, and a proxy that has a key answers each of them by asking
    Google exactly once, for the model chosen by [type].  For any type but
    ['tts'] the body sent to Google is the client's payload without [model]
    and with the [systemInstruction] of the proxy in place of the client's;
    for ['tts'] it is the client's payload without [model]. *)
Theorem system_prompt_end_to_end (prompt : string) (message : ServerError → string)
    (key : string) (google : nat → GoogleRequest → FetchResult)
    (world : nat → gmap string Json → FetchResult)
    (payload : gmap string Json) (type : string) :
  key ≠ ""%string →
  (fetchGeminiProxy world payload type).2 ≠ [] ∧
  Forall (λ ev,
    ∃ body, ev = Posted body ∧
      ∀ i, (onRequestPost prompt message (Some key) (Some (JObj body)) (google i)).2 =
           [if decide (type = "tts"%string)
            then mkGoogleRequest (JStr "gemini-2.5-flash-preview-tts") key
                   (delete "model"%string payload)
            else mkGoogleRequest (JStr "gemini-2.5-flash-preview-09-2025") key
                   (<[ "systemInstruction"%string := systemInstruction prompt ]>
                      (delete "model"%string payload))])
    (fetchGeminiProxy world payload type).2.
Proof.
  intros Hkey. unfold fetchGeminiProxy.
  set (model := if decide (type = "tts"%string) then TTS_MODEL else TEXT_MODEL).
  set (body := <[ "model"%string := JStr model ]> payload).
  destruct (fetchLoop_trace world body (S (length delays)) 0 [])
    as (k & _ & -> & Hout).
  destruct Hout as [Hk _]; [done | simpl; lia |].
  change ([] ++ ?l) with l. split; [by destruct k; [lia|]|].
  apply Forall_replicate.
  exists body. split; [done|]. intros i.
  unfold onRequestPost. rewrite decide_False by done.
  unfold tryForward. cbn [model_property rest_without_model].
  unfold body. rewrite lookup_insert_eq, delete_insert_eq.
  assert (truthy (JStr model) = true) as -> by (unfold model; by destruct (decide _)).
  set (req := mkGoogleRequest _ _ _).
  assert (req = if decide (type = "tts"%string)
                then mkGoogleRequest (JStr "gemini-2.5-flash-preview-tts") key
                       (delete "model"%string payload)
                else mkGoogleRequest (JStr "gemini-2.5-flash-preview-09-2025") key
                       (<[ "systemInstruction"%string := systemInstruction prompt ]>
                          (delete "model"%string payload))) as <-.
  { unfold req, model. destruct (decide (type = "tts"%string)).
    - by rewrite decide_False by done.
    - by rewrite decide_True by done. }
  by destruct (google i req) as [|st [data|]]; [| destruct (legalStatus st) |].
Qed.

Lemma system_prompt_end_to_end_witness :
  (fetchGeminiProxy (λ (_ : nat) (_ : gmap string Json), Rejected)
     {[ "systemInstruction"%string := JStr "mine" ]} "text").2 ≠ [] ∧
  Forall (λ ev,
    ∃ body, ev = Posted body ∧
      ∀ i : nat,
        (onRequestPost "P" (λ _ : ServerError, ""%string) (Some "k"%string)
           (Some (JObj body)) (λ _ : GoogleRequest, Rejected)).2 =
        [if decide ("text"%string = "tts"%string)
         then mkGoogleRequest (JStr "gemini-2.5-flash-preview-tts") "k"
                (delete "model"%string {[ "systemInstruction"%string := JStr "mine" ]})
         else mkGoogleRequest (JStr "gemini-2.5-flash-preview-09-2025") "k"
                (<[ "systemInstruction"%string := systemInstruction "P" ]>
                   (delete "model"%string
                      {[ "systemInstruction"%string := JStr "mine" ]}))])
    (fetchGeminiProxy (λ (_ : nat) (_ : gmap string Json), Rejected)
       {[ "systemInstruction"%string := JStr "mine" ]} "text").2.
Proof.
  apply (system_prompt_end_to_end "P" (λ _ : ServerError, ""%string) "k"
           (λ (_ : nat) (_ : GoogleRequest), Rejected)
           (λ (_ : nat) (_ : gmap string Json), Rejected)
           {[ "systemInstruction"%string := JStr "mine" ]} "text").
  done.
Defined.

(** * The functions that call the proxy *)

Lemma substring_app_ge n : ∀ s1 s2 : string,
  (n ≤ String.length s1)%nat → String.substring 0 n (s1 +:+ s2) = String.substring 0 n s1.
Proof.
  induction n as [|n IH]; intros s1 s2 Hn.
  - destruct s1, s2; done.
  - destruct s1 as [|a s1]; simpl in *; [lia|]. f_equal. apply IH. lia.
Qed.

Lemma append_length (a b : string) :
  String.length (a +:+ b) = (String.length a + String.length b)%nat.
Proof. induction a as [|x a IH]; simpl; [done | by rewrite IH]. Qed.

Lemma append_inj_l (s a b : string) : s +:+ a = s +:+ b → a = b.
Proof. induction s as [|x s IH]; simpl; [done|]. intros [= H]. by apply IH. Qed.

Lemma append_inj_r (s : string) : ∀ a b : string, a +:+ s = b +:+ s → a = b.
Proof.
  induction a as [|x a IH]; intros [|y b] H.
  - done.
  - apply (f_equal String.length) in H. rewrite !append_length in H.
    simpl in H. lia.
  - apply (f_equal String.length) in H. rewrite !append_length in H.
    simpl in H. lia.
  - cbn in H. injection H as -> H. f_equal. by apply IH.
Qed.

Lemma fetchGeminiProxy_posts world payload type :
  ∃ k, (fetchGeminiProxy world payload type).2 =
         replicate (S k)
           (Posted (<[ "model"%string :=
                         JStr (if decide (type = "tts"%string)
                               then TTS_MODEL else TEXT_MODEL) ]> payload)).
Proof.
  unfold fetchGeminiProxy.
  destruct (fetchLoop_trace world
              (<[ "model"%string :=
                    JStr (if decide (type = "tts"%string)
                          then TTS_MODEL else TEXT_MODEL) ]> payload)
              (S (length delays)) 0 []) as (k & _ & -> & Hout).
  destruct Hout as [Hk _]; [done | simpl; lia |].
  destruct k as [|k]; [lia|]. by exists k.
Qed.

Lemma same_posts_same_contents world1 world2 (p1 p2 : gmap string Json) type :
  (fetchGeminiProxy world1 p1 type).2 = (fetchGeminiProxy world2 p2 type).2 →
  p1 !! "contents"%string = p2 !! "contents"%string.
Proof.
  destruct (fetchGeminiProxy_posts world1 p1 type) as (k1 & ->).
  destruct (fetchGeminiProxy_posts world2 p2 type) as (k2 & ->).
  simpl. intros [= Heq _].
  apply (f_equal (λ m : gmap string Json, m !! "contents"%string)) in Heq.
  by rewrite !lookup_insert_ne in Heq by done.
Qed.

Lemma text_of_contents (s1 s2 : string) :
  Some (JArr [JObj {[ "parts"%string :=
                        JArr [JObj {[ "text"%string := JStr s1 ]}] ]}]) =
  Some (JArr [JObj {[ "parts"%string :=
                        JArr [JObj {[ "text"%string := JStr s2 ]}] ]}]) →
  s1 = s2.
Proof.
  intros H.
  apply (f_equal (λ o : option Json,
           match o with
           | Some (JArr (JObj m :: _)) =>
               match m !! "parts"%string with
               | Some (JArr (JObj m' :: _)) => m' !! "text"%string
               | _ => None
               end
           | _ => None
           end)) in H.
  repeat first [rewrite lookup_singleton_eq in H | progress cbv beta iota in H].
  congruence.
Qed.

(** X23 (the context is cut).  [callGeminiForAnswer] reads exactly the first
    30000 characters of the context and [callGeminiSummarize] exactly the
    first 10000 of the text: what follows them changes neither the requests
    nor the result, and two calls that post the same requests were given
    contexts (texts) that agree on them. *)
Theorem context_beyond_limit_is_ignored
    (JSON_parse : string → option Json) (toString : Json → string)
    (world : nat → gmap string Json → FetchResult)
    (query contextText text extra : string) :
  (30000 ≤ String.length contextText)%nat →
  (10000 ≤ String.length text)%nat →
  callGeminiForAnswer JSON_parse toString world query (contextText +:+ extra) =
    callGeminiForAnswer JSON_parse toString world query contextText ∧
  callGeminiSummarize world (text +:+ extra) = callGeminiSummarize world text ∧
  (∀ c1 c2 : string, c1 ≠ ""%string → c2 ≠ ""%string →
     (callGeminiForAnswer JSON_parse toString world query c1).2 =
       (callGeminiForAnswer JSON_parse toString world query c2).2 →
     String.substring 0 30000 c1 = String.substring 0 30000 c2) ∧
  (∀ t1 t2 : string,
     (callGeminiSummarize world t1).2 = (callGeminiSummarize world t2).2 →
     String.substring 0 10000 t1 = String.substring 0 10000 t2).
Proof.
  intros Hlen Hlen'. split; [|split; [|split]].
  - assert (contextText ≠ ""%string) as Hne.
    { intros ->. simpl in Hlen. apply Nat.le_0_r in Hlen.
      vm_compute in Hlen. discriminate. }
    assert (contextText +:+ extra ≠ ""%string) as Hne'.
    { by destruct contextText. }
    unfold callGeminiForAnswer, answerPayload, userPrompt.
    rewrite !decide_False by done. by rewrite substring_app_ge.
  - unfold callGeminiSummarize, summarizePayload.
    by rewrite substring_app_ge.
  - intros c1 c2 Hc1 Hc2 Hposts. unfold callGeminiForAnswer in Hposts.
    cbn [snd] in Hposts. apply same_posts_same_contents in Hposts.
    unfold answerPayload in Hposts. rewrite !lookup_insert_eq in Hposts.
    apply text_of_contents in Hposts.
    unfold userPrompt in Hposts. rewrite !decide_False in Hposts by done.
    do 4 apply append_inj_l in Hposts. by apply append_inj_r in Hposts.
  - intros t1 t2 Hposts. unfold callGeminiSummarize in Hposts.
    cbn [snd] in Hposts. apply same_posts_same_contents in Hposts.
    unfold summarizePayload in Hposts. rewrite !lookup_singleton_eq in Hposts.
    apply text_of_contents in Hposts.
    by do 3 apply append_inj_l in Hposts.
Qed.

Lemma context_beyond_limit_is_ignored_witness :
  callGeminiForAnswer (λ _ : string, None) (λ _ : Json, ""%string)
      (λ (_ : nat) (_ : gmap string Json), Rejected) "q"
      (String.string_of_list_ascii (replicate 30000 (Ascii.ascii_of_nat 97)) +:+ "tail") =
    callGeminiForAnswer (λ _ : string, None) (λ _ : Json, ""%string)
      (λ (_ : nat) (_ : gmap string Json), Rejected) "q"
      (String.string_of_list_ascii (replicate 30000 (Ascii.ascii_of_nat 97))) ∧
  callGeminiSummarize (λ (_ : nat) (_ : gmap string Json), Rejected)
      (String.string_of_list_ascii (replicate 10000 (Ascii.ascii_of_nat 98)) +:+ "tail") =
    callGeminiSummarize (λ (_ : nat) (_ : gmap string Json), Rejected)
      (String.string_of_list_ascii (replicate 10000 (Ascii.ascii_of_nat 98))) ∧
  (∀ c1 c2 : string, c1 ≠ ""%string → c2 ≠ ""%string →
     (callGeminiForAnswer (λ _ : string, None) (λ _ : Json, ""%string)
        (λ (_ : nat) (_ : gmap string Json), Rejected) "q" c1).2 =
       (callGeminiForAnswer (λ _ : string, None) (λ _ : Json, ""%string)
          (λ (_ : nat) (_ : gmap string Json), Rejected) "q" c2).2 →
     String.substring 0 30000 c1 = String.substring 0 30000 c2) ∧
  (∀ t1 t2 : string,
     (callGeminiSummarize (λ (_ : nat) (_ : gmap string Json), Rejected) t1).2 =
       (callGeminiSummarize (λ (_ : nat) (_ : gmap string Json), Rejected) t2).2 →
     String.substring 0 10000 t1 = String.substring 0 10000 t2).
Proof.
  apply (context_beyond_limit_is_ignored (λ _ : string, None) (λ _ : Json, ""%string)
           (λ (_ : nat) (_ : gmap string Json), Rejected) "q"
           (String.string_of_list_ascii (replicate 30000 (Ascii.ascii_of_nat 97)))
           (String.string_of_list_ascii (replicate 10000 (Ascii.ascii_of_nat 98)))
           "tail").
  - apply Nat.leb_le. vm_compute. reflexivity.
  - apply Nat.leb_le. vm_compute. reflexivity.
Defined.

Lemma candidateText_shape (m c ct pt : gmap string Json) (rest1 rest2 : list Json)
    (v : Json) :
  m !! "candidates"%string = Some (JArr (JObj c :: rest1)) →
  c !! "content"%string = Some (JObj ct) →
  ct !! "parts"%string = Some (JArr (JObj pt :: rest2)) →
  pt !! "text"%string = Some v →
  candidateText (JObj m) = Some (Some v).
Proof.
  intros Hm Hc Hct Hpt. unfold candidateText. cbn [property]. rewrite Hm.
  cbn [optional first_item lookup list_lookup]. simpl.
  rewrite Hc. simpl. rewrite Hct. simpl. rewrite Hpt. by destruct v.
Qed.

(** X24 (the fallback answer).  [callGeminiForAnswer] does not throw.  It
    resolves to the fallback answer, whose [mindMap] is [null], when
    [fetchGeminiProxy] throws (as it does when none of the six attempts is
    answered with a status in 200..299 and a JSON body), when the result is
    [null] or has no candidate text, and when [JSON.parse] throws on that
    text.  When [JSON.parse] yields a value for the candidate text, that
    value is the answer; the candidate text of a result shaped
    [{candidates: [{content: {parts: [{text}]}}]}] is its [text]. *)
Theorem callGeminiForAnswer_falls_back
    (JSON_parse : string → option Json) (toString : Json → string)
    (world : nat → gmap string Json → FetchResult) (query contextText : string) :
  let body := <[ "model"%string := JStr TEXT_MODEL ]> (answerPayload query contextText) in
  let r := callGeminiForAnswer JSON_parse toString world query contextText in
  let fetched := (fetchGeminiProxy world (answerPayload query contextText) "text").1 in
  property "mindMap" fallbackAnswer = Some JNull ∧
  ((∀ j st d, (j ≤ 5)%nat → world j body = Responded st (Some d) →
              ¬ (200 ≤ st ≤ 299)%nat) →
   r = (fallbackAnswer, replicate 6 (Posted body))) ∧
  (∀ e, fetched = Thrown e → r.1 = fallbackAnswer) ∧
  (∀ result, fetched = Returned result →
             candidateText result = None ∨ candidateText result = Some None →
             r.1 = fallbackAnswer) ∧
  (∀ result jsonText,
     fetched = Returned result → candidateText result = Some (Some jsonText) →
     (∀ v, JSON_parse (ToString toString jsonText) = Some v → r.1 = v) ∧
     (JSON_parse (ToString toString jsonText) = None → r.1 = fallbackAnswer)) ∧
  (∀ (m c ct pt : gmap string Json) (rest1 rest2 : list Json) (s : string) (v : Json),
     fetched = Returned (JObj m) →
     m !! "candidates"%string = Some (JArr (JObj c :: rest1)) →
     c !! "content"%string = Some (JObj ct) →
     ct !! "parts"%string = Some (JArr (JObj pt :: rest2)) →
     pt !! "text"%string = Some (JStr s) →
     JSON_parse s = Some v → r.1 = v).
Proof.
  intros body r fetched. split; [done|]. split; [|split; [|split; [|split]]].
  - intros Hfail. unfold r, callGeminiForAnswer, fetchGeminiProxy.
    rewrite decide_False by done. fold body.
    by destruct (fetchLoop_six_failures world body Hfail) as (e & _ & ->).
  - intros e He. unfold r, callGeminiForAnswer. cbn [fst]. fold fetched.
    by rewrite He.
  - intros result Hres Hc. unfold r, callGeminiForAnswer. cbn [fst]. fold fetched.
    rewrite Hres. by destruct Hc as [-> | ->].
  - intros result jsonText Hres Hc. unfold r, callGeminiForAnswer. cbn [fst].
    fold fetched. rewrite Hres, Hc. split.
    + by intros v ->.
    + by intros ->.
  - intros m c ct pt rest1 rest2 s v Hres Hm Hc Hct Hpt Hv.
    unfold r, callGeminiForAnswer. cbn [fst]. fold fetched.
    rewrite Hres, (candidateText_shape m c ct pt rest1 rest2 (JStr s)) by done.
    cbn [ToString]. by rewrite Hv.
Qed.

Lemma callGeminiForAnswer_falls_back_witness :
  (callGeminiForAnswer
     (λ s : string, if decide (s = "7"%string) then Some (JNum (Q2Qc 7)) else None)
     (λ _ : Json, ""%string)
     (λ (_ : nat) (_ : gmap string Json),
        Responded 200
          (Some (JObj {[ "candidates"%string :=
             JArr [JObj {[ "content"%string :=
               JObj {[ "parts"%string :=
                 JArr [JObj {[ "text"%string := JStr "7" ]}] ]} ]}] ]})))
     "q" "ctx").1 = JNum (Q2Qc 7).
Proof.
  pose proof (callGeminiForAnswer_falls_back
     (λ s : string, if decide (s = "7"%string) then Some (JNum (Q2Qc 7)) else None)
     (λ _ : Json, ""%string)
     (λ (_ : nat) (_ : gmap string Json),
        Responded 200
          (Some (JObj {[ "candidates"%string :=
             JArr [JObj {[ "content"%string :=
               JObj {[ "parts"%string :=
                 JArr [JObj {[ "text"%string := JStr "7" ]}] ]} ]}] ]})))
     "q" "ctx") as H.
  cbv zeta in H. destruct H as (_ & _ & _ & _ & _ & H).
  apply (H {[ "candidates"%string :=
             JArr [JObj {[ "content"%string :=
               JObj {[ "parts"%string :=
                 JArr [JObj {[ "text"%string := JStr "7" ]}] ]} ]}] ]}
           {[ "content"%string :=
               JObj {[ "parts"%string :=
                 JArr [JObj {[ "text"%string := JStr "7" ]}] ]} ]}
           {[ "parts"%string := JArr [JObj {[ "text"%string := JStr "7" ]}] ]}
           {[ "text"%string := JStr "7" ]} [] [] "7" (JNum (Q2Qc 7)));
    vm_compute; reflexivity.
Defined.

(** * The size of the canvas *)

(** X25 (left border).  The rectangle of a listed node at depth [d] starts
    at [300 * d + 100 - w / 2], [w] being its width; it starts left of the
    canvas exactly when [w] exceeds [600 * d + 200], which for the root is a
    width above 200. *)
Theorem left_border (t : TreeNode) (cs : gset string) :
  ∃ r, calculateLayout (JsObject t) cs = Return r ∧
       Forall (λ n,
         let v := MindMapNode n (p_x n) (p_y n) in
         let w := calculatedWidth (p_label n) (p_type n) in
         rect_width v = w ∧
         rect_left v = (num_of_nat (depth n) * Q2Qc 300 + Q2Qc 100 - w / Q2Qc 2)%Qc ∧
         ((Q2Qc 0 ≤ rect_left v)%Qc ↔
          (w ≤ num_of_nat (depth n) * Q2Qc 600 + Q2Qc 200)%Qc))
         (nodes r).
Proof.
  eexists. split; [apply calculateLayout_object|]. simpl.
  pose proof (assignCoords_ok cs t 0 0) as Hok. rewrite Forall_forall in Hok.
  apply Forall_fmap, Forall_forall. intros n Hn. simpl.
  destruct (rect_borders (sized n)) as [-> _].
  destruct (sized_fields n) as (_ & -> & -> & -> & _ & -> & _).
  destruct (Hok n Hn) as (_ & -> & _). unfold depthX.
  generalize (calculatedWidth (p_label n) (p_type n)) (num_of_nat (depth n)).
  intros w d. split; [done|]. split; [done|].
  split; intros H; qc_order.
Qed.

Lemma getLeafCount_pos cs t : (1 ≤ getLeafCount cs t)%nat.
Proof.
  destruct (assignCoords_stacked cs 0 t 0 0) as (Hpos & _).
  rewrite assignCoords_counter in Hpos. lia.
Qed.

Lemma foldl_add_mono {A} (g g' : A → nat) (l : list A) :
  Forall (λ c, (g' c ≤ g c)%nat) l →
  ∀ a a', (a' ≤ a)%nat →
    (foldl (λ acc c, (acc + g' c)%nat) a' l ≤ foldl (λ acc c, (acc + g c)%nat) a l)%nat.
Proof.
  induction 1 as [|c l Hc _ IH]; intros a a' Ha; simpl; [done|].
  apply IH. lia.
Qed.

Lemma getLeafCount_anti cs cs' t :
  cs ⊆ cs' → (getLeafCount cs' t ≤ getLeafCount cs t)%nat.
Proof.
  intros Hsub. induction t as [i lbl ty ch IH] using TreeNode_nested_ind.
  rewrite (getLeafCount_unfold cs'), (getLeafCount_unfold cs).
  destruct (visualLeaf cs' (mkTreeNode i lbl ty ch)) eqn:Hl'.
  - rewrite <-(getLeafCount_unfold cs). apply getLeafCount_pos.
  - assert (visualLeaf cs (mkTreeNode i lbl ty ch) = false) as ->.
    { apply visualLeaf_false in Hl' as (Hid & _ & Hk). unfold visualLeaf.
      rewrite Hk. simpl in *. rewrite bool_decide_eq_false_2; [done|]. set_solver. }
    apply foldl_add_mono; [|done]. exact IH.
Qed.

Lemma listed_geometry cs t n :
  n ∈ nodes (layoutOf (assignCoords cs t 0 0).1) →
  p_x n = depthX (depth n) ∧
  halfWidthOr70 n =
    (calculatedWidth (label (forget n)) (type (forget n)) / Q2Qc 2)%Qc.
Proof.
  simpl. intros (m & -> & Hm)%list_elem_of_fmap.
  pose proof (assignCoords_ok cs t 0 0) as Hok. rewrite Forall_forall in Hok.
  destruct (Hok m Hm) as (_ & Hx & _).
  rewrite halfWidthOr70_sized, forget_sized.
  destruct (sized_fields m) as (_ & _ & _ & -> & _ & -> & _).
  split; [done|]. by destruct m.
Qed.

Lemma foldl_max_le {A} (g : A → Qc) (l l' : list A) a :
  (∀ n', n' ∈ l' → ∃ n, n ∈ l ∧ (g n' ≤ g n)%Qc) →
  (foldl (λ m n, Math_max m (g n)) a l' ≤ foldl (λ m n, Math_max m (g n)) a l)%Qc.
Proof.
  intros H. destruct (foldl_max_ge g l a) as [Ha Hall].
  rewrite Forall_forall in Hall.
  destruct (foldl_max_in g l' a) as [-> | (n' & Hn' & ->)]; [done|].
  destruct (H n' Hn') as (n & Hn & Hle). etrans; [exact Hle | by apply Hall].
Qed.

Lemma layoutOf_width L :
  width (layoutOf L) =
    Math_max (Q2Qc 800)
      (foldl (λ m n, Math_max m (p_x n + halfWidthOr70 n)%Qc) 0%Qc
         (nodes (layoutOf L)) + Q2Qc 200)%Qc.
Proof. reflexivity. Qed.

(** X26 (collapsing never enlarges the canvas).  When the collapsed set
    grows, neither the width nor the height of the canvas grows, and the
    number of slots that [getLeafCount] counts does not grow either. *)
Theorem collapsing_shrinks_canvas (t : TreeNode) (cs cs' : gset string) :
  cs ⊆ cs' →
  ∃ r r', calculateLayout (JsObject t) cs = Return r ∧
          calculateLayout (JsObject t) cs' = Return r' ∧
          (getLeafCount cs' t ≤ getLeafCount cs t)%nat ∧
          (width r' ≤ width r)%Qc ∧ (height r' ≤ height r)%Qc.
Proof.
  intros Hsub. do 2 eexists.
  split; [apply calculateLayout_object|]. split; [apply calculateLayout_object|].
  pose proof (getLeafCount_anti cs cs' t Hsub) as Hcount.
  split; [done|]. split.
  - rewrite !layoutOf_width. apply Math_max_mono.
    assert (foldl (λ m n, Math_max m (p_x n + halfWidthOr70 n)%Qc) 0%Qc
              (nodes (layoutOf (assignCoords cs' t 0 0).1)) ≤
            foldl (λ m n, Math_max m (p_x n + halfWidthOr70 n)%Qc) 0%Qc
              (nodes (layoutOf (assignCoords cs t 0 0).1)))%Qc as Hle.
    { apply (foldl_max_le (λ n, (p_x n + halfWidthOr70 n)%Qc)).
      intros n' Hn'.
      destruct (listed_geometry cs' t n' Hn') as [Hx' Hw'].
      apply list_elem_of_lookup_1 in Hn' as (i & Hi).
      destruct (Forall2_lookup_r _ _ _ _ _ (layout_positions cs' t) Hi)
        as (p & Hp & _ & Hat' & Hd').
      apply list_elem_of_lookup_2 in Hp.
      assert (p ∈ visible_paths cs t) as Hvis.
      { unfold visible_paths in Hp |- *. apply list_elem_of_filter in Hp as [Hv Hin].
        apply list_elem_of_filter. split; [by eapply visibleb_anti | done]. }
      destruct (listed_at cs t p Hvis) as (n & Hn & Hat & Hd).
      exists n. split; [done|].
      destruct (listed_geometry cs t n Hn) as [Hx Hw].
      assert (forget n = forget n') as Hf by congruence.
      rewrite Hx, Hx', Hw, Hw', Hf, Hd, Hd'. apply Qcle_refl. }
    revert Hle. generalize (foldl (λ m n, Math_max m (p_x n + halfWidthOr70 n)%Qc) 0%Qc
              (nodes (layoutOf (assignCoords cs' t 0 0).1)))
      (foldl (λ m n, Math_max m (p_x n + halfWidthOr70 n)%Qc) 0%Qc
              (nodes (layoutOf (assignCoords cs t 0 0).1))).
    intros a b Hle. qc_order.
  - rewrite !layoutOf_height. apply Math_max_mono.
    apply num_of_nat_le in Hcount. revert Hcount.
    generalize (num_of_nat (getLeafCount cs' t)) (num_of_nat (getLeafCount cs t)).
    intros a b Hle. qc_order.
Qed.

Lemma collapsing_shrinks_canvas_witness :
  ∃ r r', calculateLayout (JsObject scenario_B) ∅ = Return r ∧
          calculateLayout (JsObject scenario_B) {[ "C1"%string ]} = Return r' ∧
          (getLeafCount {[ "C1"%string ]} scenario_B ≤ getLeafCount ∅ scenario_B)%nat ∧
          (width r' ≤ width r)%Qc ∧ (height r' ≤ height r)%Qc.
Proof.
  apply (collapsing_shrinks_canvas scenario_B ∅ {[ "C1"%string ]}).
  apply (bool_decide_unpack _). vm_compute. exact I.
Defined.

(** * The collapsed set as the layout reads it *)

Lemma mapThread_ext {A B S} (f g : A → S → B * S) (l : list A) :
  Forall (λ a, ∀ s, f a s = g a s) l → ∀ s, mapThread f l s = mapThread g l s.
Proof.
  induction 1 as [|a l Ha _ IH]; intros s; [done|].
  rewrite !mapThread_cons, Ha, IH. done.
Qed.

Lemma assignCoords_agree cs cs' t :
  (∀ i, i ∈ ids t → i ∈ cs ↔ i ∈ cs') →
  ∀ d cur, assignCoords cs t d cur = assignCoords cs' t d cur.
Proof.
  induction t as [i lbl ty ch IH] using TreeNode_nested_ind. intros Hag d cur.
  assert (bool_decide (i ∈ cs) = bool_decide (i ∈ cs')) as Hb.
  { apply bool_decide_ext, Hag. rewrite ids_unfold. apply list_elem_of_here. }
  assert (visualLeaf cs (mkTreeNode i lbl ty ch) =
          visualLeaf cs' (mkTreeNode i lbl ty ch)) as Hv.
  { unfold visualLeaf. simpl. by rewrite Hb. }
  destruct (visualLeaf cs' (mkTreeNode i lbl ty ch)) eqn:Hl'.
  - rewrite !assignCoords_leaf by done. simpl. by rewrite Hb.
  - rewrite !assignCoords_inner by done. cbn -[mapThread].
    rewrite (mapThread_ext (λ c cur, assignCoords cs c (S d) cur)
               (λ c cur, assignCoords cs' c (S d) cur)); [done|].
    apply Forall_forall. intros c Hc s. rewrite Forall_forall in IH.
    apply IH; [done|]. intros j Hj. apply Hag. rewrite ids_unfold.
    apply list_elem_of_further, list_elem_of_In, in_flat_map. exists c.
    split; apply list_elem_of_In; done.
Qed.

(** X27 (ids outside the tree).  The layout depends on the collapsed set
    only through the ids that occur in the tree: two sets that agree on
    those give the same layout, so that ids left over from another tree
    change nothing. *)
Theorem layout_reads_tree_ids_only (t : TreeNode) (cs cs' : gset string) :
  (∀ i, i ∈ ids t → i ∈ cs ↔ i ∈ cs') →
  calculateLayout (JsObject t) cs = calculateLayout (JsObject t) cs'.
Proof.
  intros Hag. rewrite !calculateLayout_object.
  by rewrite (assignCoords_agree cs cs' t Hag).
Qed.

Lemma layout_reads_tree_ids_only_witness :
  calculateLayout (JsObject scenario_B) {[ "C1"%string ]} =
  calculateLayout (JsObject scenario_B) {[ "C1"%string; "stale"%string ]}.
Proof.
  apply (layout_reads_tree_ids_only scenario_B {[ "C1"%string ]}
           {[ "C1"%string; "stale"%string ]}).
  intros i Hi. vm_compute in Hi.
  repeat (apply elem_of_cons in Hi as [-> | Hi]); [..|by apply elem_of_nil in Hi];
    apply (bool_decide_unpack _); vm_compute; exact I.
Defined.
